(** * Intent unification engine: enrichment ledger, rule evaluator, score calculator

    A shallow embedding of the three computation services of the repository
    ([services/enrichmentSync.ts], [services/icpPersonaScoring.ts],
    [services/scoringEngine.ts]) together with the properties stated about
    them.

    Modelling conventions.
    - A JavaScript value is a [JsValue].  Numbers are exact rationals ([Q]):
      [NaN], the infinities and the rounding of IEEE doubles are outside the
      model, [===] on numbers is [Qeq_bool].  The code computes in binary64,
      where a sum, product or quotient can be off by a relative 2^-53.  The
      statements are chosen so that they hold of that computation too: they
      assert what rounding cannot change (ranges, orders, exact cases such
      as whole numbers), and where a computed quantity is compared with a
      bound they leave a margin around the bound ([roundingMargin]).
    - A [Record<string, unknown>] that the services receive (the attribute
      bag of a snapshot, a company, a contact) is a [gmap string JsValue];
      reading a key that is not there gives [JUndefined].  Only own
      properties are modelled.
    - The module-level [Map]s are [gmap]s threaded through the functions
      that read or write them; a function that mutates one returns the new
      map next to its result.
    - [new Date()] is an argument of the function that reads the clock. *)

From Stdlib Require Import QArith Qround Qminmax Qabs Lqa Lia Sorted.
From stdpp Require Import gmap strings list fin_maps pretty.

Set Warnings "-register-all".

(* ===================================================================== *)
(** * JavaScript values *)
(* ===================================================================== *)

Module Js.

Inductive JsValue : Type :=
| JUndefined
| JNull
| JBool (b : bool)
| JNum (q : Q)
| JStr (s : string)
| JArr (elems : list JsValue)
| JObj (props : list (string * JsValue)).

(** [typeof v] *)
Inductive JsType : Type :=
| TUndefined | TObject | TBoolean | TNumber | TString.

Definition typeof (v : JsValue) : JsType :=
  match v with
  | JUndefined => TUndefined
  | JNull => TObject
  | JBool _ => TBoolean
  | JNum _ => TNumber
  | JStr _ => TString
  | JArr _ => TObject
  | JObj _ => TObject
  end.

Definition JsType_eqb (s t : JsType) : bool :=
  match s, t with
  | TUndefined, TUndefined | TObject, TObject | TBoolean, TBoolean
  | TNumber, TNumber | TString, TString => true
  | _, _ => false
  end.

(** [a === b].  Primitives compare by value.  Arrays and objects compare by
    reference; the values compared here come from separately received
    payloads, so two of them are taken never to be the same reference.
    Where the same array or object does reach [deepEqual] twice, the
    structural path gives the answer [===] would have given (lemma
    [deepEqual_refl]). *)
Definition strictEq (a b : JsValue) : bool :=
  match a, b with
  | JUndefined, JUndefined => true
  | JNull, JNull => true
  | JBool x, JBool y => Bool.eqb x y
  | JNum x, JNum y => Qeq_bool x y
  | JStr x, JStr y => String.eqb x y
  | _, _ => false
  end.

(** Truthiness, as used by [||], [!] and [if]. *)
Definition truthy (v : JsValue) : bool :=
  match v with
  | JUndefined | JNull => false
  | JBool b => b
  | JNum q => negb (Qeq_bool q 0)
  | JStr s => negb (String.eqb s "")
  | JArr _ | JObj _ => true
  end.

(** [record[key]] on an attribute bag. *)
Definition get (record : gmap string JsValue) (key : string) : JsValue :=
  default JUndefined (record !! key).

(** Own property lookup in a nested object literal. *)
Fixpoint assoc (props : list (string * JsValue)) (key : string) : JsValue :=
  match props with
  | [] => JUndefined
  | (k, v) :: rest => if String.eqb k key then v else assoc rest key
  end.

(** [Object.keys(v)] for an array or an object. *)
Definition objectKeys (v : JsValue) : list string :=
  match v with
  | JArr elems => map (fun i : nat => pretty i) (seq 0 (length elems))
  | JObj props => map fst props
  | _ => []
  end.

(** [v[key]] for an array or an object: an array answers to its indices and
    to [length]. *)
Definition getProp (v : JsValue) (key : string) : JsValue :=
  match v with
  | JObj props => assoc props key
  | JArr elems =>
      if String.eqb key "length" then JNum (inject_Z (Z.of_nat (length elems)))
      else
        match List.find (fun i : nat => String.eqb (pretty i) key)
                   (seq 0 (length elems)) with
        | Some i => nth i elems JUndefined
        | None => JUndefined
        end
  | _ => JUndefined
  end.

(** [array.every((element, index) => f(element, index))] *)
Definition every_from {A : Type} (f : A -> nat -> bool)
    : list A -> nat -> bool :=
  fix go (l : list A) (idx : nat) : bool :=
    match l with
    | [] => true
    | x :: rest => f x idx && go rest (S idx)
    end.

Definition Array_every {A : Type} (f : A -> nat -> bool) (l : list A)
    : bool :=
  every_from f l 0%nat.

(** [x < y] on numbers; [x <= y] is [Qle_bool x y]. *)
Definition Qlt_bool (x y : Q) : bool := negb (Qle_bool y x).

(** [Math.round]: the nearest integer, halves towards plus infinity. *)
Definition Math_round (x : Q) : Q := inject_Z (Qfloor (x + (1 # 2))).

(** ASCII model of [String.prototype.toLowerCase]. *)
Definition lowerAscii (c : Ascii.ascii) : Ascii.ascii :=
  let n := Ascii.nat_of_ascii c in
  if (65 <=? n)%nat && (n <=? 90)%nat then Ascii.ascii_of_nat (n + 32) else c.

Fixpoint toLowerCase (s : string) : string :=
  match s with
  | EmptyString => EmptyString
  | String c rest => String (lowerAscii c) (toLowerCase rest)
  end.

(** [s.includes(t)] *)
Fixpoint includes (s t : string) : bool :=
  if String.prefix t s then true
  else match s with
       | EmptyString => false
       | String _ rest => includes rest t
       end.

(** An object literal has each key once; arrays and objects nest. *)
Fixpoint distinct (keys : list string) : bool :=
  match keys with
  | [] => true
  | k :: rest => negb (existsb (String.eqb k) rest) && distinct rest
  end.

Fixpoint wellFormed (v : JsValue) : bool :=
  match v with
  | JArr elems => forallb wellFormed elems
  | JObj props =>
      distinct (map fst props)
      && forallb (fun entry : string * JsValue =>
                    let (_, val) := entry in wellFormed val) props
  | _ => true
  end.

(** Induction on values that reaches the elements of arrays and the
    values of objects. *)
Fixpoint JsValue_nested_ind (P : JsValue -> Prop)
    (Hundefined : P JUndefined) (Hnull : P JNull)
    (Hbool : forall b, P (JBool b)) (Hnum : forall q, P (JNum q))
    (Hstr : forall s, P (JStr s))
    (Harr : forall elems, Forall P elems -> P (JArr elems))
    (Hobj : forall props,
        Forall (fun entry : string * JsValue => P (snd entry)) props ->
        P (JObj props))
    (v : JsValue) {struct v} : P v :=
  let rec := JsValue_nested_ind P Hundefined Hnull Hbool Hnum Hstr Harr Hobj in
  match v with
  | JUndefined => Hundefined
  | JNull => Hnull
  | JBool b => Hbool b
  | JNum q => Hnum q
  | JStr s => Hstr s
  | JArr elems =>
      Harr elems
        ((fix go (l : list JsValue) : Forall P l :=
            match l with
            | [] => @List.Forall_nil _ P
            | x :: rest => @List.Forall_cons _ P x rest (rec x) (go rest)
            end) elems)
  | JObj props =>
      Hobj props
        ((fix go (l : list (string * JsValue))
            : Forall (fun entry : string * JsValue => P (snd entry)) l :=
            match l with
            | [] => @List.Forall_nil _ _
            | (k, x) :: rest =>
                @List.Forall_cons _
                  (fun entry : string * JsValue => P (snd entry))
                  (k, x) rest (rec x) (go rest)
            end) props)
  end.

End Js.

Export Js.

(* ===================================================================== *)
(** * services/enrichmentSync.ts *)
(* ===================================================================== *)

Module EnrichmentSync.

Inductive EntityType : Type := Company | Contact.
Inductive Source : Type := Apollo | ZoomInfo.

Definition EntityType_str (t : EntityType) : string :=
  match t with Company => "company" | Contact => "contact" end.

Definition Source_str (s : Source) : string :=
  match s with Apollo => "apollo" | ZoomInfo => "zoominfo" end.

Definition Source_eqb (s t : Source) : bool :=
  match s, t with
  | Apollo, Apollo | ZoomInfo, ZoomInfo => true
  | _, _ => false
  end.

Record EnrichmentData : Type := mkEnrichmentData {
  entityType : EntityType;
  entityId : string;
  source : Source;
  data : gmap string JsValue;
  timestamp : string;
}.

Record FieldChange : Type := mkFieldChange {
  field : string;
  oldValue : JsValue;
  newValue : JsValue;
}.

Record EnrichmentDelta : Type := mkEnrichmentDelta {
  delta_entityType : EntityType;
  delta_entityId : string;
  delta_hubspotId : JsValue;
  delta_source : Source;
  changes : list FieldChange;
  delta_timestamp : string;
}.

(** The module-level [enrichmentStore] is a [gmap string EnrichmentData],
    keyed by [getEnrichmentKey]. *)

Definition trackableFields : list string :=
  [ "employeeCount"; "annualRevenue"; "industry"; "description";
    "linkedinUrl"; "website"; "phone"; "address"; "city"; "state";
    "country"; "postalCode"; "foundedYear"; "technologies";
    "fundingTotal"; "lastFundingDate"; "title"; "department";
    "seniority" ].

Definition getEnrichmentKey (entityType : EntityType) (entityId : string)
    (source : Source) : string :=
  EntityType_str entityType +:+ ":" +:+ entityId +:+ ":" +:+ Source_str source.

(** [deepEqual], line by line.  In the object branch [keysA.every] runs
    over the own entries of [a], so that [a[key]] is the entry's value. *)
Fixpoint deepEqual (a b : JsValue) {struct a} : bool :=
  if strictEq a b then true
  else
    match a, b with
    | JUndefined, JUndefined => true
    | JNull, JNull => true
    | JUndefined, _ | _, JUndefined => false
    | JNull, _ | _, JNull => false
    | _, _ =>
        if negb (JsType_eqb (typeof a) (typeof b)) then false
        else
          match a, b with
          | JArr la, JArr lb =>
              if negb (length la =? length lb)%nat then false
              else
                Array_every
                  (fun val idx => deepEqual val (nth idx lb JUndefined)) la
          | JArr la, JObj _ =>
              if negb (length la =? length (objectKeys b))%nat then false
              else
                Array_every
                  (fun val idx => deepEqual val (getProp b (pretty idx))) la
          | JObj pa, (JArr _ | JObj _) =>
              if negb (length pa =? length (objectKeys b))%nat then false
              else
                Array_every
                  (fun (entry : string * JsValue) _ =>
                     let (key, val) := entry in
                     deepEqual val (getProp b key))
                  pa
          | _, _ => false
          end
    end.

(** [detectChanges]: one pass over [trackableFields], pushing a change for
    each field whose two values are not [deepEqual]. *)
Definition detectChanges (oldData newData : gmap string JsValue)
    : list FieldChange :=
  fold_left
    (fun changes field =>
       let oldValue := get oldData field in
       let newValue := get newData field in
       if negb (deepEqual oldValue newValue)
       then changes ++ [mkFieldChange field oldValue newValue]
       else changes)
    trackableFields [].

(** [storeEnrichmentData]; [now] is [new Date().toISOString()]. *)
Definition storeEnrichmentData (enrichmentStore : gmap string EnrichmentData)
    (enrichment : EnrichmentData) (now : string)
    : option EnrichmentDelta * gmap string EnrichmentData :=
  let key := getEnrichmentKey (entityType enrichment) (entityId enrichment)
               (source enrichment) in
  match enrichmentStore !! key with
  | None => (None, <[key := enrichment]> enrichmentStore)
  | Some existing =>
      let changes := detectChanges (data existing) (data enrichment) in
      let enrichmentStore := <[key := enrichment]> enrichmentStore in
      if (length changes =? 0)%nat then (None, enrichmentStore)
      else
        (Some {| delta_entityType := entityType enrichment;
                 delta_entityId := entityId enrichment;
                 delta_hubspotId := get (data enrichment) "hubspotId";
                 delta_source := source enrichment;
                 changes := changes;
                 delta_timestamp := now |},
         enrichmentStore)
  end.

Definition getEnrichmentData (enrichmentStore : gmap string EnrichmentData)
    (entityType : EntityType) (entityId : string) (source : Source)
    : option EnrichmentData :=
  enrichmentStore !! getEnrichmentKey entityType entityId source.

Definition getAllEnrichmentForEntity (enrichmentStore : gmap string EnrichmentData)
    (entityType : EntityType) (entityId : string) : list EnrichmentData :=
  fold_left
    (fun results source =>
       match getEnrichmentData enrichmentStore entityType entityId source with
       | Some d => results ++ [d]
       | None => results
       end)
    [Apollo; ZoomInfo] [].

(** The prototype of the object [merged] that [mergeEnrichmentData]
    builds.  It starts as [Object.prototype]; an assignment to the key
    [__proto__] can replace it by [null] or by an object or array of a
    snapshot. *)
Inductive Prototype : Type :=
| ObjectPrototype
| NullPrototype
| ValuePrototype (v : JsValue).

(** [merged]: its own properties and its prototype. *)
Record MergedObject : Type := mkMergedObject {
  own : gmap string JsValue;
  prototype : Prototype;
}.

(** Whether the lookup of [__proto__] along the prototype chain ends at a
    data property rather than at the accessor of [Object.prototype]: under
    a [null] prototype nothing is found, which counts as a writable data
    property, and an object that [JSON.parse] built can have [__proto__]
    as an own data property. *)
Definition protoIsData (p : Prototype) : bool :=
  match p with
  | ObjectPrototype => false
  | NullPrototype => true
  | ValuePrototype (JObj props) =>
      existsb (fun kv => String.eqb (fst kv) "__proto__") props
  | ValuePrototype _ => false
  end.

(** [obj[key] = value].  Every property that [obj] can inherit under a key
    other than [__proto__] is a writable data property, so the assignment
    makes an own property.  Under the key [__proto__] it does so only when
    [obj] has that own property already or the chain ends at a data
    property; otherwise it calls the setter of [Object.prototype], which
    replaces the prototype when [value] is an object, an array or [null]
    and does nothing for any other value. *)
Definition setProperty (obj : MergedObject) (key : string) (value : JsValue)
    : MergedObject :=
  if String.eqb key "__proto__" then
    if bool_decide (is_Some (own obj !! key)) || protoIsData (prototype obj)
    then {| own := <[key := value]> (own obj); prototype := prototype obj |}
    else
      match value with
      | JObj _ | JArr _ =>
          {| own := own obj; prototype := ValuePrototype value |}
      | JNull => {| own := own obj; prototype := NullPrototype |}
      | _ => obj
      end
  else {| own := <[key := value]> (own obj); prototype := prototype obj |}.

(** [Object.assign(target, src)]: [target[key] = src[key]] for each own key
    of [src]. *)
Definition Object_assign (target : MergedObject) (src : gmap string JsValue)
    : MergedObject :=
  map_fold (fun key value target => setProperty target key value) target src.

(** The guard of the overlay loop:
    [value !== undefined && value !== null && value !== ''] *)
Definition populated (value : JsValue) : bool :=
  negb (strictEq value JUndefined) && negb (strictEq value JNull)
  && negb (strictEq value (JStr "")).

(** [mergeEnrichmentData]; the result is given by its own properties.  The
    loops over the keys of a bag are [map_fold]s: the keys of a bag are
    distinct, and an assignment to one key neither reads nor changes what
    an assignment to another key reads, so the visiting order does not
    show in the result. *)
Definition mergeEnrichmentData (enrichmentStore : gmap string EnrichmentData)
    (entityType : EntityType) (entityId : string) (prioritySource : Source)
    : gmap string JsValue :=
  let allData := getAllEnrichmentForEntity enrichmentStore entityType entityId in
  if (length allData =? 0)%nat then ∅
  else
    let merged := {| own := ∅; prototype := ObjectPrototype |} in
    let secondarySource :=
      if Source_eqb prioritySource ZoomInfo then Apollo else ZoomInfo in
    let merged :=
      match List.find (fun d => Source_eqb (source d) secondarySource) allData with
      | Some secondaryData => Object_assign merged (data secondaryData)
      | None => merged
      end in
    let merged :=
      match List.find (fun d => Source_eqb (source d) prioritySource) allData with
      | Some primaryData =>
          map_fold
            (fun key value (merged : MergedObject) =>
               if populated value then setProperty merged key value
               else merged)
            merged (data primaryData)
      | None => merged
      end in
    own merged.

(** [processBatchEnrichment]: the snapshots in input order, keeping the
    deltas that are not [null]. *)
Fixpoint processBatchEnrichment (enrichmentStore : gmap string EnrichmentData)
    (enrichments : list (EnrichmentData * string))
    : list EnrichmentDelta * gmap string EnrichmentData :=
  match enrichments with
  | [] => ([], enrichmentStore)
  | (enrichment, now) :: rest =>
      let '(delta, enrichmentStore) :=
        storeEnrichmentData enrichmentStore enrichment now in
      let '(deltas, enrichmentStore) :=
        processBatchEnrichment enrichmentStore rest in
      (match delta with Some d => d :: deltas | None => deltas end,
       enrichmentStore)
  end.

(** ** Vocabulary of the statements about this module *)

(** [undefined] or [null] *)
Definition nullish (v : JsValue) : Prop := v = JUndefined \/ v = JNull.

(** The two snapshots disagree on field [f] under [deepEqual]. *)
Definition differs (oldData newData : gmap string JsValue) (f : string)
    : bool :=
  negb (deepEqual (get oldData f) (get newData f)).

(** The [FieldChange] pushed for field [f]. *)
Definition changeOf (oldData newData : gmap string JsValue) (f : string)
    : FieldChange :=
  mkFieldChange f (get oldData f) (get newData f).

(** The source that is not the priority source. *)
Definition secondaryOf (prioritySource : Source) : Source :=
  if Source_eqb prioritySource ZoomInfo then Apollo else ZoomInfo.

(** The attribute bag stored for one source of an entity, empty when no
    snapshot is stored. *)
Definition storedData (enrichmentStore : gmap string EnrichmentData)
    (entityType : EntityType) (entityId : string) (source : Source)
    : gmap string JsValue :=
  match getEnrichmentData enrichmentStore entityType entityId source with
  | Some d => data d
  | None => ∅
  end.

(** Every snapshot sits under the key of its own triple: what
    [storeEnrichmentData] maintains. *)
Definition keyed (enrichmentStore : gmap string EnrichmentData) : Prop :=
  forall key d,
    enrichmentStore !! key = Some d ->
    key = getEnrichmentKey (entityType d) (entityId d) (source d).

(** ** Sample data *)

(** An old snapshot without [industry], a new one with [industry: null]. *)
Definition noIndustry : gmap string JsValue := ∅.
Definition nullIndustry : gmap string JsValue := {[ "industry" := JNull ]}.

(** A ledger holding one ZoomInfo snapshot of [company-1] whose only
    attribute is an empty string. *)
Definition blankZoomInfo : EnrichmentData :=
  {| entityType := Company; entityId := "company-1"; source := ZoomInfo;
     data := {[ "industry" := JStr "" ]}; timestamp := "t1" |}.

Definition blankLedger : gmap string EnrichmentData :=
  snd (storeEnrichmentData ∅ blankZoomInfo "t1").

(** The two snapshots of [company-1] of the merge example: Apollo has
    [employeeCount], [industry] and [website]; ZoomInfo has [employeeCount]
    and [annualRevenue]. *)
Definition apolloSample : EnrichmentData :=
  {| entityType := Company; entityId := "company-1"; source := Apollo;
     data := {[ "employeeCount" := JNum 500; "industry" := JStr "Tech";
                "website" := JStr "a.com" ]};
     timestamp := "t1" |}.

Definition zoomInfoSample : EnrichmentData :=
  {| entityType := Company; entityId := "company-1"; source := ZoomInfo;
     data := {[ "employeeCount" := JNum 600;
                "annualRevenue" := JNum 50000000 ]};
     timestamp := "t2" |}.

Definition sampleLedger : gmap string EnrichmentData :=
  snd (storeEnrichmentData (snd (storeEnrichmentData ∅ apolloSample "t1"))
         zoomInfoSample "t2").

(** The snapshots of the store-and-diff tests: [employeeCount] goes from
    500 to 600, [industry] stays. *)
Definition tech500 : EnrichmentData :=
  {| entityType := Company; entityId := "company-1"; source := Apollo;
     data := {[ "employeeCount" := JNum 500;
                "industry" := JStr "Technology" ]};
     timestamp := "t1" |}.

Definition tech600 : EnrichmentData :=
  {| entityType := Company; entityId := "company-1"; source := Apollo;
     data := {[ "employeeCount" := JNum 600;
                "industry" := JStr "Technology" ]};
     timestamp := "t2" |}.

(** The overlay loop of [mergeEnrichmentData] on its own. *)
Definition overlay (primary : gmap string JsValue) (merged : MergedObject)
    : MergedObject :=
  map_fold
    (fun key value (merged : MergedObject) =>
       if populated value then setProperty merged key value else merged)
    merged primary.

(** The prototype that [Object.assign] leaves on a fresh object when the
    source has the given value under its own key [__proto__]. *)
Definition prototypeFrom (value : option JsValue) : Prototype :=
  match value with
  | Some (JObj props) => ValuePrototype (JObj props)
  | Some (JArr elems) => ValuePrototype (JArr elems)
  | Some JNull => NullPrototype
  | _ => ObjectPrototype
  end.


(** ** Further operations of the module *)

(** [clearAllEnrichmentData] *)
Definition clearAllEnrichmentData (enrichmentStore : gmap string EnrichmentData)
    : gmap string EnrichmentData :=
  ∅.

(** ** Further vocabulary *)

Definition EntityType_eqb (s t : EntityType) : bool :=
  match s, t with
  | Company, Company | Contact, Contact => true
  | _, _ => false
  end.

(** The snapshot is one of the (entityType, entityId, source) triple. *)
Definition isFor (t : EntityType) (i : string) (s : Source)
    (d : EnrichmentData) : bool :=
  EntityType_eqb (entityType d) t && String.eqb (entityId d) i
  && Source_eqb (source d) s.

(** The last snapshot of a batch for a triple, if the batch has one. *)
Definition lastFor (t : EntityType) (i : string) (s : Source)
    (batch : list (EnrichmentData * string)) : option EnrichmentData :=
  List.find (isFor t i s) (rev (map fst batch)).

(** A boolean, a number or a string. *)
Definition scalar (v : JsValue) : bool :=
  match v with
  | JBool _ | JNum _ | JStr _ => true
  | _ => false
  end.

(** ** Further sample data *)

(** [tech500] re-sent with an attribute that is not tracked. *)
Definition tech500Tagged : EnrichmentData :=
  {| entityType := Company; entityId := "company-1"; source := Apollo;
     data := {[ "employeeCount" := JNum 500;
                "industry" := JStr "Technology";
                "hubspotId" := JStr "hs-1" ]};
     timestamp := "t3" |}.

(** A snapshot of another company. *)
Definition other300 : EnrichmentData :=
  {| entityType := Company; entityId := "company-2"; source := Apollo;
     data := {[ "employeeCount" := JNum 300 ]};
     timestamp := "t1" |}.

(** A first batch for two companies. *)
Definition firstBatch : list (EnrichmentData * string) :=
  [ (tech500, "n1"); (other300, "n2") ].

(** A snapshot whose [industry] is [null] and whose [website] is empty. *)
Definition sparseApollo : EnrichmentData :=
  {| entityType := Company; entityId := "company-9"; source := Apollo;
     data := {[ "industry" := JNull; "website" := JStr "";
                "employeeCount" := JNum 10 ]};
     timestamp := "t1" |}.

Definition sparseLedger : gmap string EnrichmentData :=
  snd (storeEnrichmentData ∅ sparseApollo "t1").

(** A snapshot whose bag has [__proto__] as a key of its own, as
    [JSON.parse] makes it on such an input. *)
Definition protoZoomInfo : EnrichmentData :=
  {| entityType := Company; entityId := "company-7"; source := ZoomInfo;
     data := {[ "employeeCount" := JNum 7;
                "__proto__" := JObj [("industry", JStr "Tech")] ]};
     timestamp := "t1" |}.

Definition protoLedger : gmap string EnrichmentData :=
  snd (storeEnrichmentData ∅ protoZoomInfo "t1").


(** A snapshot is stored for the triple. *)
Definition hasSnapshot (enrichmentStore : gmap string EnrichmentData)
    (t : EntityType) (i : string) (s : Source) : bool :=
  match getEnrichmentData enrichmentStore t i s with
  | Some _ => true
  | None => false
  end.

(** The (entityType, entityId, source) triple of a snapshot. *)
Definition tripleOf (d : EnrichmentData) : EntityType * string * Source :=
  (entityType d, entityId d, source d).

End EnrichmentSync.

(* ===================================================================== *)
(** * services/icpPersonaScoring.ts *)
(* ===================================================================== *)

Module IcpPersonaScoring.

Inductive Operator : Type := Equals | Contains | Range | In.

Record ICPCriterionConfig : Type := mkICPCriterionConfig {
  name : string;
  field : string;
  weight : Q;
  operator : Operator;
  value : JsValue;
  minValue : option Q;
  maxValue : option Q;
}.

Record ICPProfile : Type := mkICPProfile {
  profile_name : string;
  criteria : list ICPCriterionConfig;
}.

Inductive PersonaOperator : Type := PEquals | PContains | PIn.

Record PersonaAttributeConfig : Type := mkPersonaAttributeConfig {
  attr_name : string;
  attr_field : string;
  attr_weight : Q;
  attr_operator : PersonaOperator;
  values : list string;
}.

Record PersonaProfile : Type := mkPersonaProfile {
  persona_name : string;
  attributes : list PersonaAttributeConfig;
}.

Inductive Tier : Type := TierA | TierB | TierC | TierD.

(** [ICPCriterion] of models/types.ts *)
Record ICPCriterion : Type := mkICPCriterion {
  crit_name : string;
  crit_weight : Q;
  crit_matched : bool;
  actualValue : JsValue;
  expectedValue : JsValue;
}.

Record ICPMatch : Type := mkICPMatch {
  companyId : JsValue;
  hubspotCompanyId : JsValue;
  matchScore : Q;
  matchedCriteria : list ICPCriterion;
  unmatchedCriteria : list ICPCriterion;
  tier : Tier;
}.

(** [PersonaAttribute] of models/types.ts *)
Record PersonaAttribute : Type := mkPersonaAttribute {
  pa_name : string;
  pa_value : JsValue;
  pa_weight : Q;
  pa_matched : bool;
}.

Record PersonaScore : Type := mkPersonaScore {
  contactId : JsValue;
  hubspotContactId : JsValue;
  email : JsValue;
  personaType : string;
  persona_matchScore : Q;
  persona_attributes : list PersonaAttribute;
}.

Definition MIN_SAFE_INTEGER : Q := inject_Z (- (2 ^ 53 - 1)).
Definition MAX_SAFE_INTEGER : Q := inject_Z (2 ^ 53 - 1).

Definition strs (l : list string) : JsValue := JArr (map JStr l).

Definition defaultICPProfile : ICPProfile :=
  {| profile_name := "Default B2B SaaS ICP";
     criteria :=
       [ mkICPCriterionConfig "Employee Count" "employeeCount" (25 # 100)
           Range JNull (Some (inject_Z 50)) (Some (inject_Z 5000));
         mkICPCriterionConfig "Industry" "industry" (25 # 100) In
           (strs ["Technology"; "Software"; "Financial Services";
                  "Healthcare"])
           None None;
         mkICPCriterionConfig "Revenue" "annualRevenue" (3 # 10) Range JNull
           (Some (inject_Z 5000000)) (Some (inject_Z 500000000));
         mkICPCriterionConfig "Has Website" "domain" (1 # 10) Contains
           (JStr ".") None None;
         mkICPCriterionConfig "Country" "country" (1 # 10) In
           (strs ["United States"; "Canada"; "United Kingdom"; "Australia"])
           None None ] |}.

Definition defaultPersonaProfiles : list PersonaProfile :=
  [ {| persona_name := "Decision Maker";
       attributes :=
         [ mkPersonaAttributeConfig "Title Level" "title" (5 # 10) PContains
             ["CEO"; "CTO"; "CFO"; "VP"; "Director"; "Head of"];
           mkPersonaAttributeConfig "Department" "department" (3 # 10) PIn
             ["Executive"; "Sales"; "Marketing"; "Operations"];
           mkPersonaAttributeConfig "Seniority" "seniority" (2 # 10) PIn
             ["C-Level"; "VP"; "Director"] ] |};
    {| persona_name := "Technical Evaluator";
       attributes :=
         [ mkPersonaAttributeConfig "Title Level" "title" (4 # 10) PContains
             ["Engineer"; "Developer"; "Architect"; "Technical"];
           mkPersonaAttributeConfig "Department" "department" (4 # 10) PIn
             ["Engineering"; "IT"; "Technology"; "Product"];
           mkPersonaAttributeConfig "Seniority" "seniority" (2 # 10) PIn
             ["Senior"; "Lead"; "Principal"; "Staff"] ] |};
    {| persona_name := "End User";
       attributes :=
         [ mkPersonaAttributeConfig "Title Level" "title" (3 # 10) PContains
             ["Manager"; "Specialist"; "Analyst"; "Coordinator"];
           mkPersonaAttributeConfig "Department" "department" (5 # 10) PIn
             ["Sales"; "Marketing"; "Customer Success"; "Support"];
           mkPersonaAttributeConfig "Seniority" "seniority" (2 # 10) PIn
             ["Manager"; "Individual Contributor"] ] |} ].

(** [evaluateCriterion] *)
Definition evaluateCriterion (value : JsValue) (criterion : ICPCriterionConfig)
    : bool :=
  if strictEq value JUndefined || strictEq value JNull then false
  else
    match operator criterion with
    | Equals => strictEq value (IcpPersonaScoring.value criterion)
    | Contains =>
        match value, IcpPersonaScoring.value criterion with
        | JStr s, JStr c => includes (toLowerCase s) (toLowerCase c)
        | _, _ => false
        end
    | Range =>
        match value with
        | JNum n =>
            let min := default MIN_SAFE_INTEGER (minValue criterion) in
            let max := default MAX_SAFE_INTEGER (maxValue criterion) in
            Qle_bool min n && Qle_bool n max
        | _ => false
        end
    | In =>
        match IcpPersonaScoring.value criterion with
        | JArr vs =>
            existsb
              (fun v =>
                 match v, value with
                 | JStr sv, JStr s =>
                     String.eqb (toLowerCase s) (toLowerCase sv)
                 | _, _ => strictEq value v
                 end)
              vs
        | _ => false
        end
    end.

(** [determineTier] *)
Definition determineTier (score : Q) : Tier :=
  if Qle_bool 80 score then TierA
  else if Qle_bool 60 score then TierB
  else if Qle_bool 40 score then TierC
  else TierD.

(** The variables the loop of [calculateICPMatch] updates. *)
Record ICPLoop : Type := mkICPLoop {
  loop_matched : list ICPCriterion;
  loop_unmatched : list ICPCriterion;
  totalWeight : Q;
  matchedWeight : Q;
}.

Definition icpStep (companyData : gmap string JsValue) (st : ICPLoop)
    (criterion : ICPCriterionConfig) : ICPLoop :=
  let fieldValue := get companyData (field criterion) in
  let matched := evaluateCriterion fieldValue criterion in
  let totalWeight := (totalWeight st + weight criterion)%Q in
  let criterionResult :=
    {| crit_name := name criterion;
       crit_weight := weight criterion;
       crit_matched := matched;
       actualValue := fieldValue;
       expectedValue := value criterion |} in
  if matched then
    {| loop_matched := loop_matched st ++ [criterionResult];
       loop_unmatched := loop_unmatched st;
       totalWeight := totalWeight;
       matchedWeight := (matchedWeight st + weight criterion)%Q |}
  else
    {| loop_matched := loop_matched st;
       loop_unmatched := loop_unmatched st ++ [criterionResult];
       totalWeight := totalWeight;
       matchedWeight := matchedWeight st |}.

Definition icpLoop (companyData : gmap string JsValue)
    (profile : ICPProfile) : ICPLoop :=
  fold_left (icpStep companyData) (criteria profile) (mkICPLoop [] [] 0 0).

(** [totalWeight > 0 ? Math.round((matchedWeight / totalWeight) * 100) : 0] *)
Definition weightedScore (matchedWeight totalWeight : Q) : Q :=
  if Qlt_bool 0 totalWeight
  then Math_round ((matchedWeight / totalWeight) * 100)
  else 0.

(** [x || fallback] *)
Definition orElse (x fallback : JsValue) : JsValue :=
  if truthy x then x else fallback.

(** [calculateICPMatch] *)
Definition calculateICPMatch (companyData : gmap string JsValue)
    (profile : ICPProfile) : ICPMatch :=
  let companyId := orElse (get companyData "id") (JStr "unknown") in
  let st := icpLoop companyData profile in
  let matchScore := weightedScore (matchedWeight st) (totalWeight st) in
  let tier := determineTier matchScore in
  {| companyId := companyId;
     hubspotCompanyId := get companyData "hubspotId";
     matchScore := matchScore;
     matchedCriteria := loop_matched st;
     unmatchedCriteria := loop_unmatched st;
     tier := tier |}.

(** [evaluatePersonaAttribute] *)
Definition evaluatePersonaAttribute (value : JsValue)
    (attr : PersonaAttributeConfig) : bool :=
  match value with
  | JStr s =>
      let lowerValue := toLowerCase s in
      match attr_operator attr with
      | PEquals =>
          existsb (fun v => String.eqb lowerValue (toLowerCase v)) (values attr)
      | PContains =>
          existsb (fun v => includes lowerValue (toLowerCase v)) (values attr)
      | PIn =>
          existsb (fun v => String.eqb lowerValue (toLowerCase v)) (values attr)
      end
  | _ => false
  end.

(** The variables the loop of [evaluatePersonaProfile] updates. *)
Record PersonaLoop : Type := mkPersonaLoop {
  ploop_attributes : list PersonaAttribute;
  ploop_totalWeight : Q;
  ploop_matchedWeight : Q;
}.

Definition personaStep (contactData : gmap string JsValue) (st : PersonaLoop)
    (attr : PersonaAttributeConfig) : PersonaLoop :=
  let fieldValue := get contactData (attr_field attr) in
  let matched := evaluatePersonaAttribute fieldValue attr in
  {| ploop_attributes :=
       ploop_attributes st ++
       [ {| pa_name := attr_name attr;
            pa_value := orElse fieldValue (JStr "");
            pa_weight := attr_weight attr;
            pa_matched := matched |} ];
     ploop_totalWeight := (ploop_totalWeight st + attr_weight attr)%Q;
     ploop_matchedWeight :=
       if matched then (ploop_matchedWeight st + attr_weight attr)%Q
       else ploop_matchedWeight st |}.

(** [evaluatePersonaProfile] *)
Definition evaluatePersonaProfile (contactData : gmap string JsValue)
    (profile : PersonaProfile) : Q * list PersonaAttribute :=
  let st := fold_left (personaStep contactData) (attributes profile)
              (mkPersonaLoop [] 0 0) in
  (weightedScore (ploop_matchedWeight st) (ploop_totalWeight st),
   ploop_attributes st).

(** [bestMatch] of [calculatePersonaScore] *)
Record BestMatch : Type := mkBestMatch {
  best_profile : PersonaProfile;
  best_score : Q;
  best_attributes : list PersonaAttribute;
}.

(** One turn of the loop over the profiles:
    [if (!bestMatch || score > bestMatch.score) bestMatch = ...] *)
Definition bestStep (contactData : gmap string JsValue)
    (bestMatch : option BestMatch) (profile : PersonaProfile)
    : option BestMatch :=
  let '(score, attributes) := evaluatePersonaProfile contactData profile in
  match bestMatch with
  | None => Some (mkBestMatch profile score attributes)
  | Some b =>
      if Qlt_bool (best_score b) score
      then Some (mkBestMatch profile score attributes)
      else bestMatch
  end.

(** [calculatePersonaScore] *)
Definition calculatePersonaScore (contactData : gmap string JsValue)
    (profiles : list PersonaProfile) : PersonaScore :=
  let contactId := orElse (get contactData "id") (JStr "unknown") in
  let email := orElse (get contactData "email") (JStr "") in
  let bestMatch := fold_left (bestStep contactData) profiles None in
  match bestMatch with
  | None =>
      {| contactId := contactId;
         hubspotContactId := get contactData "hubspotId";
         email := email;
         personaType := "Unknown";
         persona_matchScore := 0;
         persona_attributes := [] |}
  | Some b =>
      {| contactId := contactId;
         hubspotContactId := get contactData "hubspotId";
         email := email;
         personaType := persona_name (best_profile b);
         persona_matchScore := best_score b;
         persona_attributes := best_attributes b |}
  end.

(** ** Vocabulary of the statements about this module *)

Definition sumQ (l : list Q) : Q := fold_right Qplus 0%Q l.

(** The criterion matches the company's value of its field. *)
Definition matches (companyData : gmap string JsValue)
    (criterion : ICPCriterionConfig) : bool :=
  evaluateCriterion (get companyData (field criterion)) criterion.

(** The [criterionResult] built for a criterion. *)
Definition resultOf (companyData : gmap string JsValue)
    (criterion : ICPCriterionConfig) : ICPCriterion :=
  {| crit_name := name criterion;
     crit_weight := weight criterion;
     crit_matched := matches companyData criterion;
     actualValue := get companyData (field criterion);
     expectedValue := value criterion |}.

(** The sum of all criterion weights, and of those that match. *)
Definition totalWeightOf (profile : ICPProfile) : Q :=
  sumQ (map weight (criteria profile)).

Definition matchedWeightOf (companyData : gmap string JsValue)
    (profile : ICPProfile) : Q :=
  sumQ (map weight (List.filter (matches companyData) (criteria profile))).

(** The score of one persona profile for a contact. *)
Definition personaScoreOf (contactData : gmap string JsValue)
    (profile : PersonaProfile) : Q :=
  fst (evaluatePersonaProfile contactData profile).

(** ** Sample data *)

(** A range criterion with a lower bound and no upper bound. *)
Definition atLeast50 : ICPCriterionConfig :=
  mkICPCriterionConfig "Employee Count" "employeeCount" (1 # 4) Range JNull
    (Some (inject_Z 50)) None.

(** An [equals] criterion on a number. *)
Definition equals5 : ICPCriterionConfig :=
  mkICPCriterionConfig "Five" "n" 1 Equals (JNum (inject_Z 5)) None None.

(** A persona attribute on [title], operator [in]. *)
Definition titleIn : PersonaAttributeConfig :=
  mkPersonaAttributeConfig "Title" "title" 1 PIn ["CEO"].

Definition tenToThe16 : Q := inject_Z (10 ^ 16).

(** A contact with no attribute at all. *)
Definition emptyContact : gmap string JsValue := ∅.

(** The companies and contacts of the repository's tests. *)
Definition perfectCompany : gmap string JsValue :=
  {[ "id" := JStr "company-1"; "employeeCount" := JNum 500;
     "industry" := JStr "Technology"; "annualRevenue" := JNum 50000000;
     "domain" := JStr "example.com"; "country" := JStr "United States" ]}.

Definition partialCompany : gmap string JsValue :=
  {[ "id" := JStr "company-2"; "employeeCount" := JNum 500;
     "industry" := JStr "Retail"; "annualRevenue" := JNum 50000000;
     "domain" := JStr "example.com"; "country" := JStr "Germany" ]}.

Definition bareCompany : gmap string JsValue :=
  {[ "id" := JStr "company-3" ]}.

Definition ceoContact : gmap string JsValue :=
  {[ "id" := JStr "contact-1"; "email" := JStr "ceo@example.com";
     "title" := JStr "CEO"; "department" := JStr "Executive";
     "seniority" := JStr "C-Level" ]}.

Definition engineerContact : gmap string JsValue :=
  {[ "id" := JStr "contact-2"; "email" := JStr "engineer@example.com";
     "title" := JStr "Senior Software Engineer";
     "department" := JStr "Engineering"; "seniority" := JStr "Senior" ]}.

Definition managerContact : gmap string JsValue :=
  {[ "id" := JStr "contact-3"; "email" := JStr "manager@example.com";
     "title" := JStr "Marketing Manager"; "department" := JStr "Marketing";
     "seniority" := JStr "Manager" ]}.

(** The comparison a persona operator makes between the lower-cased actual
    value and one lower-cased configured value. *)
Definition personaTest (op : PersonaOperator) (lowerValue v : string)
    : bool :=
  match op with
  | PEquals => String.eqb lowerValue v
  | PContains => includes lowerValue v
  | PIn => String.eqb lowerValue v
  end.


(** ** Further operations of the module *)

(** [getPersonaProfiles] and [getICPProfile] *)
Definition getPersonaProfiles : list PersonaProfile := defaultPersonaProfiles.
Definition getICPProfile : ICPProfile := defaultICPProfile.

(** ** Further vocabulary *)

(** Tiers from the lowest to the highest. *)
Definition tierRank (t : Tier) : nat :=
  match t with TierD => 0 | TierC => 1 | TierB => 2 | TierA => 3 end.

(** The persona attribute matches the contact's value of its field. *)
Definition personaMatches (contactData : gmap string JsValue)
    (attr : PersonaAttributeConfig) : bool :=
  evaluatePersonaAttribute (get contactData (attr_field attr)) attr.

(** The [PersonaAttribute] pushed for a configured attribute. *)
Definition personaResultOf (contactData : gmap string JsValue)
    (attr : PersonaAttributeConfig) : PersonaAttribute :=
  {| pa_name := attr_name attr;
     pa_value := orElse (get contactData (attr_field attr)) (JStr "");
     pa_weight := attr_weight attr;
     pa_matched := personaMatches contactData attr |}.

(** No criterion, no attribute, has a weight below 0. *)
Definition icpWeightsNonneg (profile : ICPProfile) : Prop :=
  forall c, List.In c (criteria profile) -> (0 <= weight c)%Q.

Definition personaWeightsNonneg (profile : PersonaProfile) : Prop :=
  forall a, List.In a (attributes profile) -> (0 <= attr_weight a)%Q.

(** ** Further sample data *)

(** An [in] criterion on the industry. *)
Definition inTech : ICPCriterionConfig :=
  mkICPCriterionConfig "Industry" "industry" (1 # 4) In
    (strs ["Technology"; "Software"]) None None.

End IcpPersonaScoring.

(* ===================================================================== *)
(** * services/scoringEngine.ts *)
(* ===================================================================== *)

Module ScoringEngine.

Inductive Source : Type := Apollo | ZoomInfo.

Definition Source_eqb (s t : Source) : bool :=
  match s, t with
  | Apollo, Apollo | ZoomInfo, ZoomInfo => true
  | _, _ => false
  end.

(** [IntentSignal].  [timestamp] is the instant its ISO string denotes, in
    milliseconds since the epoch ([new Date(signal.timestamp).getTime()]);
    the unused [metadata] bag is left out. *)
Record IntentSignal : Type := mkIntentSignal {
  source : Source;
  companyId : string;
  companyName : string;
  domain : option string;
  topic : string;
  signalStrength : Q;
  timestamp : Z;
}.

Record TopicScore : Type := mkTopicScore {
  ts_topic : string;
  ts_score : Q;
  ts_sources : list Source;
}.

Inductive Trend : Type := Increasing | Stable | Decreasing.

(** [UnifiedIntentScore]; [lastUpdated] holds the clock reading. *)
Record UnifiedIntentScore : Type := mkUnifiedIntentScore {
  score_companyId : string;
  score_companyName : string;
  score_domain : option string;
  overallScore : Q;
  apolloScore : Q;
  zoomInfoScore : Q;
  topTopics : list TopicScore;
  signalCount : nat;
  lastUpdated : Z;
  trend : Trend;
  isSpike : bool;
}.

Record ScoringConfig : Type := mkScoringConfig {
  apolloWeight : Q;
  zoomInfoWeight : Q;
  decayDays : Q;
  spikeThresholdPercent : Q;
}.

(** [defaultConfig] with no environment override. *)
Definition defaultConfig : ScoringConfig :=
  {| apolloWeight := 5 # 10;
     zoomInfoWeight := 5 # 10;
     decayDays := 30;
     spikeThresholdPercent := 25 |}.

(** The two module-level maps. *)
Record Stores : Type := mkStores {
  signalStore : gmap string (list IntentSignal);
  scoreCache : gmap string UnifiedIntentScore;
}.

(** [addIntentSignal] *)
Definition addIntentSignal (st : Stores) (signal : IntentSignal) : Stores :=
  let key := companyId signal in
  let existing := default [] (signalStore st !! key) in
  let existing := existing ++ [signal] in
  {| signalStore := <[key := existing]> (signalStore st);
     scoreCache := scoreCache st |}.

(** [addIntentSignals] *)
Definition addIntentSignals (st : Stores) (signals : list IntentSignal)
    : Stores :=
  fold_left addIntentSignal signals st.

(** [getSignalsForCompany] *)
Definition getSignalsForCompany (st : Stores) (companyId : string)
    : list IntentSignal :=
  default [] (signalStore st !! companyId).

(** [clearAllSignals] *)
Definition clearAllSignals (st : Stores) : Stores :=
  {| signalStore := ∅; scoreCache := ∅ |}.

Definition msPerDay : Q := inject_Z (1000 * 60 * 60 * 24).

(** [calculateDecay]; [now] is [new Date().getTime()]. *)
Definition calculateDecay (signalDate : Z) (decayDays : Q) (now : Z) : Q :=
  let daysDiff := (inject_Z (now - signalDate) / msPerDay)%Q in
  if Qle_bool daysDiff 0 then 1
  else if Qle_bool decayDays daysDiff then 0
  else (1 - daysDiff / decayDays)%Q.

(** The two accumulators of the loop of [calculateSourceScore]. *)
Definition sourceStep (decayDays : Q) (now : Z) (acc : Q * Q)
    (signal : IntentSignal) : Q * Q :=
  let '(weightedSum, totalWeight) := acc in
  let decay := calculateDecay (timestamp signal) decayDays now in
  ((weightedSum + signalStrength signal * decay)%Q, (totalWeight + decay)%Q).

(** [calculateSourceScore] *)
Definition calculateSourceScore (signals : list IntentSignal) (decayDays : Q)
    (now : Z) : Q :=
  if (length signals =? 0)%nat then 0
  else
    let '(weightedSum, totalWeight) :=
      fold_left (sourceStep decayDays now) signals (0%Q, 0%Q) in
    if Qeq_bool totalWeight 0 then 0
    else Qmin 100 (weightedSum / totalWeight).

(** [topicMap] of [calculateTopTopics]: a [Map] keeps its keys in insertion
    order, a [Set] likewise. *)
Fixpoint topicGet (topicMap : list (string * (Q * list Source)))
    (topic : string) : option (Q * list Source) :=
  match topicMap with
  | [] => None
  | (k, v) :: rest => if String.eqb k topic then Some v else topicGet rest topic
  end.

Fixpoint topicSet (topicMap : list (string * (Q * list Source)))
    (topic : string) (v : Q * list Source)
    : list (string * (Q * list Source)) :=
  match topicMap with
  | [] => [(topic, v)]
  | (k, w) :: rest =>
      if String.eqb k topic then (k, v) :: rest
      else (k, w) :: topicSet rest topic v
  end.

Definition setAdd (sources : list Source) (s : Source) : list Source :=
  if existsb (Source_eqb s) sources then sources else sources ++ [s].

(** [Array.prototype.sort] with the comparator [b.score - a.score]: a
    stable sort, descending by score. *)
Fixpoint sortInsert (t : TopicScore) (sorted : list TopicScore)
    : list TopicScore :=
  match sorted with
  | [] => [t]
  | u :: rest =>
      if Qlt_bool (ts_score t) (ts_score u) then u :: sortInsert t rest
      else t :: u :: rest
  end.

Definition sortByScoreDesc (topics : list TopicScore) : list TopicScore :=
  fold_right sortInsert [] topics.

(** [calculateTopTopics] *)
Definition calculateTopTopics (signals : list IntentSignal)
    : list TopicScore :=
  let topicMap :=
    fold_left
      (fun topicMap signal =>
         let '(score, sources) :=
           default (0%Q, []) (topicGet topicMap (topic signal)) in
         topicSet topicMap (topic signal)
           ((score + signalStrength signal)%Q, setAdd sources (source signal)))
      signals [] in
  let topics :=
    map
      (fun '(topic, (score, sources)) =>
         let n := length (List.filter (fun s => String.eqb (ScoringEngine.topic s) topic)
                            signals) in
         {| ts_topic := topic;
            ts_score :=
              Qmin 100 (Math_round (score / inject_Z (Z.of_nat n)));
            ts_sources := sources |})
      topicMap in
  take 5 (sortByScoreDesc topics).

(** [determineTrend] *)
Definition determineTrend (currentScore : Q) (previousScore : option Q)
    : Trend :=
  match previousScore with
  | None => Stable
  | Some previousScore =>
      let diff := (currentScore - previousScore)%Q in
      if Qlt_bool 5 diff then Increasing
      else if Qlt_bool diff (-5) then Decreasing
      else Stable
  end.

(** [checkForSpike] *)
Definition checkForSpike (currentScore : Q) (previousScore : option Q)
    (thresholdPercent : Q) : bool :=
  match previousScore with
  | None => false
  | Some previousScore =>
      if Qeq_bool previousScore 0 then false
      else
        let percentIncrease :=
          (((currentScore - previousScore) / previousScore) * 100)%Q in
        Qle_bool thresholdPercent percentIncrease
  end.

Definition nonEmpty (s : string) : bool := negb (String.eqb s "").

(** [calculateUnifiedScore]; returns the score next to the updated stores. *)
Definition calculateUnifiedScore (st : Stores) (companyId : string)
    (config : ScoringConfig) (now : Z)
    : option UnifiedIntentScore * Stores :=
  let signals := getSignalsForCompany st companyId in
  if (length signals =? 0)%nat then (None, st)
  else
    let apolloSignals :=
      List.filter (fun s => Source_eqb (source s) Apollo) signals in
    let zoomInfoSignals :=
      List.filter (fun s => Source_eqb (source s) ZoomInfo) signals in
    let apolloScore :=
      calculateSourceScore apolloSignals (decayDays config) now in
    let zoomInfoScore :=
      calculateSourceScore zoomInfoSignals (decayDays config) now in
    let overallScore :=
      Math_round (apolloScore * apolloWeight config
                  + zoomInfoScore * zoomInfoWeight config) in
    let topTopics := calculateTopTopics signals in
    let previousScore := scoreCache st !! companyId in
    let trend :=
      determineTrend overallScore
        (ScoringEngine.overallScore <$> previousScore) in
    let isSpike :=
      checkForSpike overallScore (ScoringEngine.overallScore <$> previousScore)
        (spikeThresholdPercent config) in
    let companyName :=
      match signals with
      | s :: _ => if nonEmpty (companyName s) then companyName s else "Unknown"
      | [] => "Unknown"
      end in
    let domain :=
      match List.find (fun s => match domain s with
                           | Some d => nonEmpty d
                           | None => false
                           end) signals with
      | Some s => domain s
      | None => None
      end in
    let score :=
      {| score_companyId := companyId;
         score_companyName := companyName;
         score_domain := domain;
         overallScore := overallScore;
         apolloScore := Math_round apolloScore;
         zoomInfoScore := Math_round zoomInfoScore;
         topTopics := topTopics;
         signalCount := length signals;
         lastUpdated := now;
         trend := trend;
         isSpike := isSpike |} in
    (Some score,
     {| signalStore := signalStore st;
        scoreCache := <[companyId := score]> (scoreCache st) |}).

(** ** Vocabulary of the statements about this module *)

(** The age of a signal in days, as [calculateDecay] computes it. *)
Definition ageDays (signal : IntentSignal) (now : Z) : Q :=
  (inject_Z (now - timestamp signal) / msPerDay)%Q.

(** [((current - previous) / previous) * 100] *)
Definition percentIncrease (current previous : Q) : Q :=
  (((current - previous) / previous) * 100)%Q.

(** Every cached score is at least 0: the range of [overallScore] in the
    data model, kept by [calculateUnifiedScore] on signals whose strength is
    at least 0 under weights that are at least 0. *)
Definition cacheInRange (st : Stores) : Prop :=
  forall companyId previous,
    scoreCache st !! companyId = Some previous ->
    (0 <= overallScore previous)%Q.

Definition signalsInRange (st : Stores) : Prop :=
  forall companyId signals signal,
    signalStore st !! companyId = Some signals ->
    List.In signal signals ->
    (0 <= signalStrength signal)%Q.

Definition weightsInRange (config : ScoringConfig) : Prop :=
  (0 <= apolloWeight config)%Q /\ (0 <= zoomInfoWeight config)%Q.

(** ** Sample data *)

Definition noStores : Stores := {| signalStore := ∅; scoreCache := ∅ |}.

(** A fresh Apollo signal of strength 80 for [c1], observed at instant
    1000, and a second one of strength 0 observed at the same instant. *)
Definition cloud80 : IntentSignal :=
  mkIntentSignal Apollo "c1" "Test Company" None "Cloud" 80 1000.

Definition cloud0 : IntentSignal :=
  mkIntentSignal Apollo "c1" "Test Company" None "Cloud" 0 1000.

(** A ZoomInfo signal of strength 90 for [c1]. *)
Definition ai90 : IntentSignal :=
  mkIntentSignal ZoomInfo "c1" "Test Company" None "AI" 90 1000.

(** A signal observed 31 days before instant 2678401000. *)
Definition stale50 : IntentSignal :=
  mkIntentSignal Apollo "c1" "Test Company" None "Cloud" 50 1000.

Definition later31Days : Z := 1000 + 31 * 86400000.

(** A signal of strength 80 observed at that later instant. *)
Definition fresh80 : IntentSignal :=
  mkIntentSignal Apollo "c1" "Test Company" None "Cloud" 80 later31Days.

(** The default configuration with a spike threshold of 0 percent, and
    with a decay window of 0 days. *)
Definition zeroThreshold : ScoringConfig :=
  {| apolloWeight := 5 # 10; zoomInfoWeight := 5 # 10; decayDays := 30;
     spikeThresholdPercent := 0 |}.

Definition zeroWindow : ScoringConfig :=
  {| apolloWeight := 5 # 10; zoomInfoWeight := 5 # 10; decayDays := 0;
     spikeThresholdPercent := 25 |}.

Definition oneSignal : Stores := addIntentSignal noStores cloud80.

(** The signals of the repository's score tests. *)
Definition ai60 : IntentSignal :=
  mkIntentSignal ZoomInfo "c1" "Test Company" None "AI" 60 1000.

Definition cloud50 : IntentSignal :=
  mkIntentSignal Apollo "c1" "Test Company" None "Cloud" 50 1000.

(** The stores after a first score of [c1] on [cloud80], then a second
    signal. *)
Definition scoredOnce : Stores :=
  addIntentSignal (snd (calculateUnifiedScore oneSignal "c1" defaultConfig 1000))
    ai90.


(** ** Further operations of the module *)

(** [AwarenessSpike]; [hubspotCompanyId] is copied from the score, where
    [calculateUnifiedScore] never sets it, and is left out. *)
Record AwarenessSpike : Type := mkAwarenessSpike {
  spike_companyId : string;
  spike_companyName : string;
  spike_previousScore : Q;
  spike_currentScore : Q;
  percentageIncrease : Q;
  triggeringTopics : list string;
  spike_timestamp : Z;
}.

(** One turn of the loop of [detectAwarenessSpikes]. *)
Definition detectStep (config : ScoringConfig) (now : Z)
    (acc : list AwarenessSpike * Stores) (companyId : string)
    : list AwarenessSpike * Stores :=
  let '(spikes, st) := acc in
  let previousScore := scoreCache st !! companyId in
  let '(currentScoreObj, st) := calculateUnifiedScore st companyId config now in
  match currentScoreObj, previousScore with
  | Some currentScoreObj, Some previousScore =>
      if isSpike currentScoreObj then
        let percentageIncrease :=
          if Qlt_bool 0 (overallScore previousScore)
          then (((overallScore currentScoreObj - overallScore previousScore)
                 / overallScore previousScore) * 100)%Q
          else 0%Q in
        (spikes ++
         [ {| spike_companyId := companyId;
              spike_companyName := score_companyName currentScoreObj;
              spike_previousScore := overallScore previousScore;
              spike_currentScore := overallScore currentScoreObj;
              percentageIncrease := Math_round percentageIncrease;
              triggeringTopics := map ts_topic (topTopics currentScoreObj);
              spike_timestamp := now |} ],
         st)
      else (spikes, st)
  | _, _ => (spikes, st)
  end.

(** [detectAwarenessSpikes].  [keys] is [signalStore.keys()], the company
    ids of the signal store in the order in which they were first added
    (the [gmap] does not record that order). *)
Definition detectAwarenessSpikes (st : Stores) (keys : list string)
    (config : ScoringConfig) (now : Z) : list AwarenessSpike * Stores :=
  fold_left (detectStep config now) keys ([], st).

(** A stable sort, descending by [key]: [array.sort((a, b) => key(b) -
    key(a))]. *)
Fixpoint insertDescBy {A : Type} (key : A -> Q) (x : A) (sorted : list A)
    : list A :=
  match sorted with
  | [] => [x]
  | u :: rest =>
      if Qlt_bool (key x) (key u) then u :: insertDescBy key x rest
      else x :: u :: rest
  end.

Definition sortDescBy {A : Type} (key : A -> Q) (l : list A) : list A :=
  fold_right (insertDescBy key) [] l.

(** One turn of the loop of [getAllUnifiedScores]. *)
Definition collectStep (config : ScoringConfig) (now : Z)
    (acc : list UnifiedIntentScore * Stores) (companyId : string)
    : list UnifiedIntentScore * Stores :=
  let '(scores, st) := acc in
  let '(score, st) := calculateUnifiedScore st companyId config now in
  match score with
  | Some score => (scores ++ [score], st)
  | None => (scores, st)
  end.

(** [getAllUnifiedScores], with [keys] as in [detectAwarenessSpikes]. *)
Definition getAllUnifiedScores (st : Stores) (keys : list string)
    (config : ScoringConfig) (now : Z) : list UnifiedIntentScore * Stores :=
  let '(scores, st) := fold_left (collectStep config now) keys ([], st) in
  (sortDescBy overallScore scores, st).

(** ** Further vocabulary *)

(** The overall score [calculateUnifiedScore] computes from a list of
    signals. *)
Definition overallOf (signals : list IntentSignal) (config : ScoringConfig)
    (now : Z) : Q :=
  Math_round
    (calculateSourceScore
       (List.filter (fun s => Source_eqb (source s) Apollo) signals)
       (decayDays config) now * apolloWeight config
     + calculateSourceScore
         (List.filter (fun s => Source_eqb (source s) ZoomInfo) signals)
         (decayDays config) now * zoomInfoWeight config).

(** The signals of a list that carry a topic. *)
Definition withTopic (topic : string) (signals : list IntentSignal)
    : list IntentSignal :=
  List.filter (fun s => String.eqb (ScoringEngine.topic s) topic) signals.

(** The signals of a list that belong to a company. *)
Definition ofCompany (companyId : string) (signals : list IntentSignal)
    : list IntentSignal :=
  List.filter (fun s => String.eqb (ScoringEngine.companyId s) companyId)
    signals.

(** ** Further sample data *)

(** A signal observed 15 days before [later31Days]. *)
Definition halfDecayed : IntentSignal :=
  mkIntentSignal Apollo "c1" "Test Company" None "Cloud" 50
    (1000 + 16 * 86400000).


(** The pieces of [calculateTopTopics]: one turn of the loop that fills
    [topicMap], the map it ends with, and the [TopicScore] pushed for one
    of its entries. *)
Definition topicStep (topicMap : list (string * (Q * list Source)))
    (signal : IntentSignal) : list (string * (Q * list Source)) :=
  let '(score, sources) :=
    default (0%Q, []) (topicGet topicMap (topic signal)) in
  topicSet topicMap (topic signal)
    ((score + signalStrength signal)%Q, setAdd sources (source signal)).

Definition topicMapOf (signals : list IntentSignal)
    : list (string * (Q * list Source)) :=
  fold_left topicStep signals [].

Definition topicEntry (signals : list IntentSignal)
    (entry : string * (Q * list Source)) : TopicScore :=
  let '(topic, (score, sources)) := entry in
  {| ts_topic := topic;
     ts_score :=
       Qmin 100
         (Math_round
            (score / inject_Z (Z.of_nat (length (withTopic topic signals)))));
     ts_sources := sources |}.

(** What the loop has accumulated for a topic: the strengths added up from
    the left, and the sources in the order in which they were first
    seen. *)
Definition accStep (acc : Q * list Source) (signal : IntentSignal)
    : Q * list Source :=
  ((fst acc + signalStrength signal)%Q, setAdd (snd acc) (source signal)).

Definition accOf (topic : string) (signals : list IntentSignal)
    : Q * list Source :=
  fold_left accStep (withTopic topic signals) (0%Q, []).

(** The rounded mean strength of the signals with a topic, capped at
    100. *)
Definition strengthSum (signals : list IntentSignal) : Q :=
  fold_right (fun s total => (signalStrength s + total)%Q) 0%Q signals.

Definition meanStrength (topic : string) (signals : list IntentSignal) : Q :=
  Qmin 100
    (Math_round
       (strengthSum (withTopic topic signals)
        / inject_Z (Z.of_nat (length (withTopic topic signals))))).

(** Later elements never have the larger key. *)
Definition descendingBy {A : Type} (key : A -> Q) (l : list A) : Prop :=
  StronglySorted (fun a b => (key b <= key a)%Q) l.

(** The company has a signal. *)
Definition hasSignals (st : Stores) (companyId : string) : bool :=
  negb (length (getSignalsForCompany st companyId) =? 0)%nat.

(** What [detectAwarenessSpikes] reports for one company on given
    stores. *)
Definition spikeOf (st : Stores) (config : ScoringConfig) (now : Z)
    (companyId : string) : list AwarenessSpike :=
  fst (detectStep config now ([], st) companyId).

(** Three signals on two topics. *)
Definition topicSignals : list IntentSignal := [cloud80; ai60; cloud50].


(** After the signals [seen], the map holds, for each topic with a signal
    among them, what [accOf] gives, and nothing for the other topics; its
    keys are distinct. *)
Definition topicInv (m : list (string * (Q * list Source)))
    (seen : list IntentSignal) : Prop :=
  NoDup (map fst m)
  /\ forall t,
       topicGet m t
       = match withTopic t seen with
         | [] => None
         | _ :: _ => Some (accOf t seen)
         end.


(** The cached score of a company is the score of its signals under
    [config] at [now]; a company without signals counts as settled. *)
Definition settled (config : ScoringConfig) (now : Z) (st : Stores)
    (companyId : string) : Prop :=
  getSignalsForCompany st companyId = []
  \/ exists previous,
       scoreCache st !! companyId = Some previous
       /\ overallScore previous
          = overallOf (getSignalsForCompany st companyId) config now.


(** The margin that statements about a computed quantity [x] leave around a
    bound it is compared with: binary64 evaluates each operation to within
    a relative 2^-53 of the exact result, and the expressions concerned
    take three operations. *)
Definition roundingMargin (x : Q) : Q :=
  ((Qabs x + 1) / inject_Z (2 ^ 40))%Q.

(** The strength is a whole number from 0 to 100, as the providers send
    it.  Sums and means of such strengths are the same in binary64 and in
    exact arithmetic. *)
Definition wholeStrength (signal : IntentSignal) : Prop :=
  exists z : Z,
    (0 <= z <= 100)%Z /\ (signalStrength signal == inject_Z z)%Q.




End ScoringEngine.

(* ===================================================================== *)
(** * Properties of the enrichment ledger and merger *)
(* ===================================================================== *)

Module EnrichmentSyncProofs.
Import EnrichmentSync.

(** ** The deep comparison on [undefined] and [null] *)

Lemma deepEqual_nullish_l (a b : JsValue) :
  nullish a -> (deepEqual a b = true <-> a = b).
Proof.
  intros [-> | ->]; destruct b; simpl; split; intros H;
    first [reflexivity | discriminate H].
Qed.

Lemma deepEqual_nullish_r (a b : JsValue) :
  nullish b -> (deepEqual a b = true <-> a = b).
Proof.
  intros [-> | ->]; destruct a; simpl; split; intros H;
    first [reflexivity | discriminate H].
Qed.

(** ** The deep comparison on one and the same value

    [a === b] answers [true] at once when two attribute values are the same
    array or object; the structural path of [deepEqual] gives the same
    answer, so that taking arrays and objects as distinct references in
    [strictEq] changes no result. *)

Lemma every_from_true {A : Type} (f : A -> nat -> bool) (l : list A)
    (k : nat) :
  (forall i x, nth_error l i = Some x -> f x (k + i)%nat = true) ->
  every_from f l k = true.
Proof.
  revert k. induction l as [| x l IH]; intros k H; [reflexivity |].
  cbn [every_from]. apply andb_true_iff. split.
  - specialize (H 0%nat x eq_refl). now rewrite Nat.add_0_r in H.
  - apply IH. intros i y Hi. specialize (H (S i) y Hi).
    now rewrite Nat.add_succ_r in H.
Qed.

Lemma assoc_distinct (props : list (string * JsValue)) (k : string)
    (v : JsValue) :
  distinct (map fst props) = true -> In (k, v) props -> assoc props k = v.
Proof.
  induction props as [| [k' v'] props IH]; intros Hd Hin; [destruct Hin |].
  cbn [map fst distinct] in Hd. apply andb_true_iff in Hd as [Hfresh Hd].
  cbn [assoc]. destruct Hin as [Heq | Hin].
  - injection Heq as -> ->. now rewrite String.eqb_refl.
  - destruct (String.eqb k' k) eqn:E; [| exact (IH Hd Hin)].
    apply String.eqb_eq in E. subst k'.
    apply negb_true_iff in Hfresh.
    assert (existsb (String.eqb k) (map fst props) = true) as Hex.
    { apply existsb_exists. exists k. split; [| apply String.eqb_refl].
      apply in_map_iff. exists (k, v). auto. }
    congruence.
Qed.

Lemma deepEqual_refl (v : JsValue) :
  wellFormed v = true -> deepEqual v v = true.
Proof.
  induction v as [| | b | q | s | elems IH | props IH]
    using JsValue_nested_ind; intros Hwf; try reflexivity.
  - cbn. now destruct b.
  - cbn. now rewrite Qeq_bool_refl.
  - cbn. now rewrite String.eqb_refl.
  - cbn [deepEqual strictEq typeof JsType_eqb negb].
    rewrite Nat.eqb_refl. cbn [negb].
    apply every_from_true. intros i x Hi. cbn [Nat.add].
    rewrite (nth_error_nth _ _ JUndefined Hi).
    cbn [wellFormed] in Hwf. rewrite forallb_forall in Hwf.
    rewrite Forall_forall in IH.
    apply nth_error_In in Hi.
    apply IH; [apply list_elem_of_In; exact Hi | exact (Hwf _ Hi)].
  - cbn [deepEqual strictEq typeof JsType_eqb negb objectKeys].
    rewrite length_map, Nat.eqb_refl. cbn [negb].
    cbn [wellFormed] in Hwf. apply andb_true_iff in Hwf as [Hd Hwf].
    rewrite forallb_forall in Hwf. rewrite Forall_forall in IH.
    apply every_from_true. intros i [k x] Hi.
    apply nth_error_In in Hi. cbn [getProp].
    rewrite (assoc_distinct _ _ _ Hd Hi).
    apply (IH (k, x)); [apply list_elem_of_In; exact Hi | exact (Hwf _ Hi)].
Qed.

(** ** [detectChanges] as a filter over the declared fields *)

Lemma detect_fold (oldData newData : gmap string JsValue)
    (fields : list string) (acc : list FieldChange) :
  fold_left
    (fun changes field =>
       let oldValue := get oldData field in
       let newValue := get newData field in
       if negb (deepEqual oldValue newValue)
       then changes ++ [mkFieldChange field oldValue newValue]
       else changes)
    fields acc
  = acc ++ map (changeOf oldData newData)
             (List.filter (differs oldData newData) fields).
Proof.
  revert acc. induction fields as [| f fields IH]; intros acc; simpl.
  - now rewrite app_nil_r.
  - rewrite IH. unfold differs at 2.
    destruct (negb (deepEqual (get oldData f) (get newData f))); simpl.
    + now rewrite <- app_assoc.
    + reflexivity.
Qed.

Lemma detectChanges_filter (oldData newData : gmap string JsValue) :
  detectChanges oldData newData
  = map (changeOf oldData newData)
      (List.filter (differs oldData newData) trackableFields).
Proof. unfold detectChanges. now rewrite detect_fold. Qed.

Lemma detectChanges_field (oldData newData : gmap string JsValue)
    (f : string) :
  (exists c, In c (detectChanges oldData newData) /\ field c = f)
  <-> In f trackableFields /\ deepEqual (get oldData f) (get newData f) = false.
Proof.
  rewrite detectChanges_filter. split.
  - intros (c & Hc & <-). apply in_map_iff in Hc as (g & <- & Hg).
    apply filter_In in Hg as [Hg Hd]. simpl. split; [exact Hg |].
    unfold differs in Hd. now apply negb_true_iff in Hd.
  - intros [Hf Hd]. exists (changeOf oldData newData f). split; [| reflexivity].
    apply in_map, filter_In. split; [exact Hf |].
    unfold differs. now rewrite Hd.
Qed.

Lemma detectChanges_nil_iff (oldData newData : gmap string JsValue) :
  detectChanges oldData newData = []
  <-> forall f, In f trackableFields ->
        deepEqual (get oldData f) (get newData f) = true.
Proof.
  split.
  - intros Hnil f Hf.
    destruct (deepEqual (get oldData f) (get newData f)) eqn:E; [reflexivity |].
    assert (exists c, In c (detectChanges oldData newData) /\ field c = f)
      as (c & Hc & _) by (apply detectChanges_field; auto).
    rewrite Hnil in Hc. destruct Hc.
  - intros Hall.
    destruct (detectChanges oldData newData) as [| c rest] eqn:E;
      [reflexivity |].
    assert (exists c', In c' (detectChanges oldData newData)
                       /\ field c' = field c) as Hex
      by (exists c; rewrite E; simpl; auto).
    apply detectChanges_field in Hex as [Hf Hd].
    rewrite (Hall _ Hf) in Hd. discriminate Hd.
Qed.

(** ** C1: [undefined] against [null] *)

(** C1, as stated, fails: with an old snapshot that has no [industry] and a
    new one whose [industry] is [null], the comparison answers [false] and a
    [FieldChange] is pushed for [industry]. *)
Lemma C1_undefined_null_counterexample :
  In "industry" trackableFields
  /\ get noIndustry "industry" = JUndefined
  /\ get nullIndustry "industry" = JNull
  /\ deepEqual JUndefined JNull = false
  /\ deepEqual JNull JUndefined = false
  /\ detectChanges noIndustry nullIndustry
     = [ mkFieldChange "industry" JUndefined JNull ].
Proof. vm_compute. intuition. Qed.

(** C1, amended: in the deep comparison behind [storeEnrichmentData],
    [undefined] is equal to [undefined] only and [null] to [null] only.
    For a trackable field on which one of the two snapshots is [undefined]
    or [null], the comparison succeeds exactly when the other snapshot
    carries the very same value, and a [FieldChange] for the field is
    emitted exactly when it does not: so for [undefined] against [null],
    either way round, and for [undefined] or [null] against any concrete
    value. *)
Theorem C1_nullish_equal_only_to_itself
    (oldData newData : gmap string JsValue) (f : string) :
  In f trackableFields ->
  nullish (get oldData f) \/ nullish (get newData f) ->
  (deepEqual (get oldData f) (get newData f) = true
   <-> get oldData f = get newData f)
  /\ ((exists c, In c (detectChanges oldData newData) /\ field c = f
                 /\ oldValue c = get oldData f
                 /\ newValue c = get newData f)
      <-> get oldData f <> get newData f).
Proof.
  intros Hf Hn.
  assert (deepEqual (get oldData f) (get newData f) = true
          <-> get oldData f = get newData f) as Heq
    by (destruct Hn; [apply deepEqual_nullish_l | apply deepEqual_nullish_r];
        assumption).
  split; [exact Heq |]. split.
  - intros (c & Hc & Hfc & _) Hsame.
    assert (exists c', In c' (detectChanges oldData newData) /\ field c' = f)
      as Hex by (exists c; auto).
    apply detectChanges_field in Hex as [_ Hd].
    apply Heq in Hsame. rewrite Hsame in Hd. discriminate Hd.
  - intros Hne. exists (changeOf oldData newData f).
    repeat split. rewrite detectChanges_filter.
    apply in_map, filter_In. split; [exact Hf |].
    unfold differs.
    destruct (deepEqual (get oldData f) (get newData f)); [| reflexivity].
    exfalso. apply Hne, Heq. reflexivity.
Qed.

Lemma C1_nullish_equal_only_to_itself_witness :
  In "industry" trackableFields
  /\ (nullish (get noIndustry "industry")
      \/ nullish (get nullIndustry "industry"))
  /\ (exists c, In c (detectChanges noIndustry nullIndustry)
               /\ field c = "industry"
               /\ oldValue c = get noIndustry "industry"
               /\ newValue c = get nullIndustry "industry").
Proof.
  assert (In "industry" trackableFields) as Hf by (simpl; tauto).
  assert (nullish (get noIndustry "industry")
          \/ nullish (get nullIndustry "industry")) as Hn
    by (left; left; reflexivity).
  split; [exact Hf |]. split; [exact Hn |].
  apply (C1_nullish_equal_only_to_itself noIndustry nullIndustry
           "industry" Hf Hn).
  vm_compute. discriminate.
Defined.

(** ** What [storeEnrichmentData] leaves in the ledger *)

Lemma storeEnrichmentData_snd (enrichmentStore : gmap string EnrichmentData)
    (enrichment : EnrichmentData) (now : string) :
  snd (storeEnrichmentData enrichmentStore enrichment now)
  = <[getEnrichmentKey (entityType enrichment) (entityId enrichment)
        (source enrichment) := enrichment]> enrichmentStore.
Proof.
  unfold storeEnrichmentData.
  destruct (enrichmentStore !! _); [| reflexivity].
  destruct (length _ =? 0)%nat; reflexivity.
Qed.

(** ** The ledger keeps each snapshot under the key of its own triple *)

Lemma string_length_app (a b : string) :
  String.length (a +:+ b) = (String.length a + String.length b)%nat.
Proof. induction a as [| c a IH]; simpl; [reflexivity | now rewrite IH]. Qed.

Lemma suffix_apollo_zoominfo (a b : string) :
  a +:+ ":apollo" <> b +:+ ":zoominfo".
Proof.
  revert b. induction a as [| c a IH]; intros b H.
  - apply (f_equal String.length) in H.
    rewrite !string_length_app in H. simpl in H. lia.
  - destruct b as [| c' b].
    + destruct a as [| x [| y a]]; simpl in H; try discriminate H.
      apply (f_equal String.length) in H. simpl in H.
      rewrite string_length_app in H. simpl in H. lia.
    + simpl in H. injection H as _ H. exact (IH _ H).
Qed.

Lemma string_app_assoc (a b c : string) :
  a +:+ (b +:+ c) = (a +:+ b) +:+ c.
Proof.
  induction a as [| x a IH]; [reflexivity |].
  change (String x (a +:+ (b +:+ c)) = String x ((a +:+ b) +:+ c)).
  now rewrite IH.
Qed.

Lemma getEnrichmentKey_shape (t : EntityType) (i : string) (s : Source) :
  getEnrichmentKey t i s
  = (EntityType_str t +:+ ":" +:+ i) +:+ (":" +:+ Source_str s).
Proof.
  unfold getEnrichmentKey.
  now rewrite <- !string_app_assoc.
Qed.

Lemma getEnrichmentKey_source (t t' : EntityType) (i i' : string)
    (s s' : Source) :
  getEnrichmentKey t i s = getEnrichmentKey t' i' s' -> s = s'.
Proof.
  rewrite !getEnrichmentKey_shape. intros H.
  destruct s, s'; try reflexivity; exfalso.
  - exact (suffix_apollo_zoominfo _ _ H).
  - symmetry in H. exact (suffix_apollo_zoominfo _ _ H).
Qed.

Lemma string_app_cons (x : Ascii.ascii) (a b : string) :
  String x a +:+ b = String x (a +:+ b).
Proof. reflexivity. Qed.

Lemma string_app_inv_r (a b c : string) : a +:+ c = b +:+ c -> a = b.
Proof.
  revert b. induction a as [| x a IH]; intros [| y b] H.
  - reflexivity.
  - apply (f_equal String.length) in H.
    rewrite !string_length_app in H. cbn [String.length] in H. lia.
  - apply (f_equal String.length) in H.
    rewrite !string_length_app in H. cbn [String.length] in H. lia.
  - rewrite !string_app_cons in H. injection H as -> H.
    now rewrite (IH _ H).
Qed.

Lemma getEnrichmentKey_inj (t t' : EntityType) (i i' : string)
    (s s' : Source) :
  getEnrichmentKey t i s = getEnrichmentKey t' i' s' ->
  t = t' /\ i = i' /\ s = s'.
Proof.
  intros H. pose proof (getEnrichmentKey_source _ _ _ _ _ _ H) as <-.
  unfold getEnrichmentKey in H.
  assert (t = t') as <-.
  { destruct t, t'; try reflexivity; cbn [EntityType_str] in H;
      rewrite !string_app_cons in H; discriminate H. }
  repeat split.
  apply (inj (String.append _)) in H. apply (inj (String.append _)) in H.
  exact (string_app_inv_r _ _ _ H).
Qed.

Lemma keyed_empty : keyed ∅.
Proof. intros key d H. rewrite lookup_empty in H. discriminate H. Qed.

Lemma keyed_store (enrichmentStore : gmap string EnrichmentData)
    (enrichment : EnrichmentData) (now : string) :
  keyed enrichmentStore ->
  keyed (snd (storeEnrichmentData enrichmentStore enrichment now)).
Proof.
  intros Hk key d. rewrite storeEnrichmentData_snd, lookup_insert.
  case_decide as Hkey; intros H.
  - injection H as <-. symmetry. exact Hkey.
  - exact (Hk _ _ H).
Qed.

Lemma keyed_source (enrichmentStore : gmap string EnrichmentData)
    (t : EntityType) (i : string) (s : Source) (d : EnrichmentData) :
  keyed enrichmentStore ->
  getEnrichmentData enrichmentStore t i s = Some d -> source d = s.
Proof.
  intros Hk H. apply Hk in H. symmetry.
  exact (getEnrichmentKey_source _ _ _ _ _ _ H).
Qed.

(** ** C4: what [storeEnrichmentData] stores and returns *)

(** C4: after the call the ledger holds the new snapshot for its
    (entityType, entityId, source) triple, whatever was there before, and
    every other triple is as it was.  With no snapshot stored for the
    triple the result is [null].  With one, the result is a delta exactly
    when some trackable field differs under the deep comparison, and the
    changes of the delta are the differing fields in the order of
    [trackableFields], each with the old and the new value. *)
Theorem C4_storeEnrichmentData_delta
    (enrichmentStore : gmap string EnrichmentData)
    (enrichment : EnrichmentData) (now : string) :
  let result := fst (storeEnrichmentData enrichmentStore enrichment now) in
  let store' := snd (storeEnrichmentData enrichmentStore enrichment now) in
  getEnrichmentData store' (entityType enrichment) (entityId enrichment)
    (source enrichment) = Some enrichment
  /\ (forall t i s,
        (t, i, s)
        <> (entityType enrichment, entityId enrichment, source enrichment) ->
        getEnrichmentData store' t i s
        = getEnrichmentData enrichmentStore t i s)
  /\ match getEnrichmentData enrichmentStore (entityType enrichment)
             (entityId enrichment) (source enrichment) with
     | None => result = None
     | Some existing =>
         let changed :=
           List.filter (differs (data existing) (data enrichment))
             trackableFields in
         ((exists delta, result = Some delta)
          <-> exists f, In f trackableFields
                        /\ differs (data existing) (data enrichment) f = true)
         /\ (result = None <-> changed = [])
         /\ forall delta, result = Some delta ->
               changes delta
               = map (changeOf (data existing) (data enrichment)) changed
               /\ changes delta <> []
               /\ delta_entityType delta = entityType enrichment
               /\ delta_entityId delta = entityId enrichment
               /\ delta_source delta = source enrichment
     end.
Proof.
  intros result store'. subst result store'.
  rewrite storeEnrichmentData_snd. unfold getEnrichmentData.
  split; [apply lookup_insert_eq |]. split.
  { intros t i s Hne. apply lookup_insert_ne. intros Hkey.
    apply getEnrichmentKey_inj in Hkey as (<- & <- & <-). congruence. }
  unfold storeEnrichmentData.
  set (key := getEnrichmentKey (entityType enrichment) (entityId enrichment)
                (source enrichment)).
  destruct (enrichmentStore !! key) as [existing |] eqn:Hlook;
    [| reflexivity].
  rewrite detectChanges_filter.
  set (changed := List.filter (differs (data existing) (data enrichment))
                    trackableFields).
  assert (forall f, In f changed
                    <-> In f trackableFields
                        /\ differs (data existing) (data enrichment) f = true)
    as Hin by (intros f; apply filter_In).
  clearbody changed.
  destruct changed as [| f0 rest]; cbn [map length Nat.eqb fst snd].
  - split; [| split].
    + split.
      * intros (delta & Hd). discriminate Hd.
      * intros (f & Hf). apply Hin in Hf. destruct Hf.
    + split; reflexivity.
    + intros delta Hd. discriminate Hd.
  - split; [| split].
    + split.
      * intros _. exists f0. apply Hin. left. reflexivity.
      * intros _. eexists. reflexivity.
    + split; intros H; discriminate H.
    + intros delta Hd. injection Hd as <-. cbn.
      repeat split. discriminate.
Qed.

(** ** C3: the merged attribute bag *)

Lemma setProperty_other (obj : MergedObject) (key : string)
    (value : JsValue) :
  key <> "__proto__" ->
  setProperty obj key value
  = {| own := <[key := value]> (own obj); prototype := prototype obj |}.
Proof.
  intros Hne. unfold setProperty.
  apply String.eqb_neq in Hne. now rewrite Hne.
Qed.

(** [Object.assign] on a fresh object copies every own key but
    [__proto__], whose value goes to the setter. *)
Lemma Object_assign_fresh (src : gmap string JsValue) :
  (forall k,
     own (Object_assign {| own := ∅; prototype := ObjectPrototype |} src) !! k
     = if String.eqb k "__proto__" then None else src !! k)
  /\ prototype (Object_assign {| own := ∅; prototype := ObjectPrototype |} src)
     = prototypeFrom (src !! "__proto__").
Proof.
  unfold Object_assign.
  apply (map_fold_weak_ind
           (fun (r : MergedObject) (m : gmap string JsValue) =>
              (forall k, own r !! k
                         = if String.eqb k "__proto__" then None else m !! k)
              /\ prototype r = prototypeFrom (m !! "__proto__"))).
  - cbn [own prototype]. split; [| now rewrite lookup_empty].
    intros k. rewrite !lookup_empty. now destruct (String.eqb k "__proto__").
  - intros i x m r Hi [Hown Hproto].
    destruct (decide (i = "__proto__")) as [-> | Hne].
    + unfold setProperty. rewrite String.eqb_refl.
      assert (bool_decide (is_Some (own r !! "__proto__")) = false) as ->.
      { apply bool_decide_eq_false. rewrite Hown. cbn.
        intros [v Hv]. discriminate Hv. }
      rewrite Hproto, Hi. cbn [prototypeFrom protoIsData orb].
      rewrite lookup_insert_eq.
      assert (forall k, own r !! k
                        = if String.eqb k "__proto__" then None
                          else <["__proto__" := x]> m !! k) as Hown'.
      { intros k. rewrite Hown. destruct (String.eqb k "__proto__") eqn:E;
          [reflexivity |].
        apply String.eqb_neq in E. now rewrite lookup_insert_ne. }
      destruct x; cbn [own prototype prototypeFrom]; split;
        try exact Hown'; try reflexivity;
        rewrite Hproto, Hi; reflexivity.
    + rewrite setProperty_other by exact Hne. cbn [own prototype]. split.
      * intros k. destruct (decide (i = k)) as [<- | Hik].
        -- rewrite !lookup_insert_eq.
           apply String.eqb_neq in Hne. now rewrite Hne.
        -- rewrite !lookup_insert_ne by exact Hik. apply Hown.
      * now rewrite lookup_insert_ne.
Qed.

(** The overlay loop: a populated value becomes an own property, under
    the key [__proto__] only when the chain of the object ends at a data
    property. *)
Lemma overlay_lookup (primary : gmap string JsValue) (obj : MergedObject)
    (k : string) :
  own obj !! "__proto__" = None ->
  own (overlay primary obj) !! k
  = match primary !! k with
    | Some v =>
        if populated v
           && (negb (String.eqb k "__proto__")
               || protoIsData (prototype obj))
        then Some v
        else own obj !! k
    | None => own obj !! k
    end.
Proof.
  intros Hfresh. unfold overlay. revert k.
  apply (map_fold_weak_ind
           (fun (r : MergedObject) (m : gmap string JsValue) =>
              (forall k,
                 own r !! k
                 = match m !! k with
                   | Some v =>
                       if populated v
                          && (negb (String.eqb k "__proto__")
                              || protoIsData (prototype obj))
                       then Some v
                       else own obj !! k
                   | None => own obj !! k
                   end)
              /\ (m !! "__proto__" = None -> prototype r = prototype obj))).
  - split; [| reflexivity]. intros k. now rewrite lookup_empty.
  - intros i x m r Hi [IH IHp]. destruct (populated x) eqn:Hx.
    + destruct (decide (i = "__proto__")) as [-> | Hne].
      * split; [| rewrite lookup_insert_eq; discriminate].
        intros k. unfold setProperty. rewrite String.eqb_refl.
        rewrite (IHp Hi).
        assert (bool_decide (is_Some (own r !! "__proto__")) = false) as ->.
        { apply bool_decide_eq_false. rewrite IH, Hi, Hfresh.
          intros [v Hv]. discriminate Hv. }
        cbn [orb].
        destruct (decide ("__proto__" = k)) as [<- | Hk].
        -- rewrite lookup_insert_eq, Hx, String.eqb_refl.
           cbn [negb orb andb].
           destruct (protoIsData (prototype obj)) eqn:Hd.
           ++ cbn [own]. now rewrite lookup_insert_eq.
           ++ rewrite Hfresh.
              destruct x; cbn [own]; rewrite IH, Hi; exact Hfresh.
        -- rewrite (lookup_insert_ne m) by exact Hk.
           destruct (protoIsData (prototype obj)) eqn:Hd.
           ++ cbn [own]. rewrite lookup_insert_ne by exact Hk. apply IH.
           ++ destruct x; cbn [own]; apply IH.
      * rewrite setProperty_other by exact Hne. cbn [own prototype]. split.
        -- intros k. destruct (decide (i = k)) as [<- | Hk].
           ++ rewrite !lookup_insert_eq, Hx.
              apply String.eqb_neq in Hne. now rewrite Hne.
           ++ rewrite !lookup_insert_ne by exact Hk. apply IH.
        -- rewrite lookup_insert_ne by exact Hne. exact IHp.
    + split.
      * intros k. destruct (decide (i = k)) as [<- | Hk].
        -- rewrite lookup_insert_eq, Hx. cbn [andb]. rewrite IH, Hi.
           reflexivity.
        -- rewrite lookup_insert_ne by exact Hk. apply IH.
      * intros Hnone. apply IHp.
        destruct (decide (i = "__proto__")) as [-> | Hne]; [exact Hi |].
        now rewrite lookup_insert_ne in Hnone.
Qed.

Lemma getAllEnrichmentForEntity_eq
    (enrichmentStore : gmap string EnrichmentData)
    (t : EntityType) (i : string) :
  getAllEnrichmentForEntity enrichmentStore t i
  = option_list (getEnrichmentData enrichmentStore t i Apollo)
    ++ option_list (getEnrichmentData enrichmentStore t i ZoomInfo).
Proof.
  unfold getAllEnrichmentForEntity. cbn [fold_left].
  destruct (getEnrichmentData enrichmentStore t i Apollo),
           (getEnrichmentData enrichmentStore t i ZoomInfo); reflexivity.
Qed.

Lemma mergeEnrichmentData_overlay
    (enrichmentStore : gmap string EnrichmentData)
    (t : EntityType) (i : string) (prioritySource : Source) :
  keyed enrichmentStore ->
  mergeEnrichmentData enrichmentStore t i prioritySource
  = own (overlay (storedData enrichmentStore t i prioritySource)
           (Object_assign {| own := ∅; prototype := ObjectPrototype |}
              (storedData enrichmentStore t i (secondaryOf prioritySource)))).
Proof.
  intros Hk. unfold mergeEnrichmentData, storedData, secondaryOf, overlay.
  rewrite getAllEnrichmentForEntity_eq.
  pose proof (fun d => keyed_source enrichmentStore t i Apollo d Hk) as HA.
  pose proof (fun d => keyed_source enrichmentStore t i ZoomInfo d Hk) as HZ.
  destruct prioritySource; cbn [Source_eqb];
    (destruct (getEnrichmentData enrichmentStore t i Apollo) as [dA |];
       [specialize (HA _ eq_refl) | clear HA]);
    (destruct (getEnrichmentData enrichmentStore t i ZoomInfo) as [dZ |];
       [specialize (HZ _ eq_refl) | clear HZ]);
    simpl; rewrite ?HA, ?HZ; simpl; unfold Object_assign;
    rewrite ?map_fold_empty; reflexivity.
Qed.

(** The own properties of the merge, key by key. *)
Lemma mergeEnrichmentData_lookup
    (enrichmentStore : gmap string EnrichmentData)
    (t : EntityType) (i : string) (prioritySource : Source) (k : string) :
  keyed enrichmentStore ->
  mergeEnrichmentData enrichmentStore t i prioritySource !! k
  = let primary := storedData enrichmentStore t i prioritySource in
    let secondary :=
      storedData enrichmentStore t i (secondaryOf prioritySource) in
    if String.eqb k "__proto__" then
      match primary !! k with
      | Some v =>
          if populated v
             && protoIsData (prototypeFrom (secondary !! "__proto__"))
          then Some v
          else None
      | None => None
      end
    else
      match primary !! k with
      | Some v => if populated v then Some v else secondary !! k
      | None => secondary !! k
      end.
Proof.
  intros Hk. cbv zeta. rewrite mergeEnrichmentData_overlay by exact Hk.
  destruct (Object_assign_fresh
              (storedData enrichmentStore t i (secondaryOf prioritySource)))
    as [Hown Hproto].
  rewrite overlay_lookup by (rewrite Hown; reflexivity).
  rewrite Hproto, !Hown.
  destruct (String.eqb k "__proto__") eqn:E.
  - apply String.eqb_eq in E. subst k. reflexivity.
  - cbn [negb orb]. destruct (_ !! k) as [v |]; [| reflexivity].
    now rewrite andb_true_r.
Qed.

(** A key [__proto__] of a snapshot is not a key of the merge, whichever
    source has priority: the assignment sets the prototype of the
    result. *)
Lemma merge_without_proto_key :
  mergeEnrichmentData protoLedger Company "company-7" ZoomInfo
  = {[ "employeeCount" := JNum 7 ]}
  /\ mergeEnrichmentData protoLedger Company "company-7" Apollo
     = {[ "employeeCount" := JNum 7 ]}.
Proof. split; vm_compute; reflexivity. Qed.

(** C3, as stated, fails on the key set: the ledger holds one ZoomInfo
    snapshot for the entity, whose [industry] is the empty string, and the
    merge under ZoomInfo priority is the empty bag, so [industry], a key of
    the priority source, is not a key of the result. *)
Lemma C3_key_union_counterexample :
  getAllEnrichmentForEntity blankLedger Company "company-1" = [blankZoomInfo]
  /\ storedData blankLedger Company "company-1" ZoomInfo !! "industry"
     = Some (JStr "")
  /\ mergeEnrichmentData blankLedger Company "company-1" ZoomInfo !! "industry"
     = None
  /\ mergeEnrichmentData blankLedger Company "company-1" ZoomInfo = ∅.
Proof. vm_compute. repeat split; reflexivity. Qed.

(** C3, amended: on a ledger filled by [storeEnrichmentData], the merge
    with priority source P starts from the attribute bag of the other
    source and overlays every attribute of P's bag except those whose value
    is [undefined], [null] or the empty string.  Leaving the key
    [__proto__] aside, its keys are the keys of the other source together
    with the keys that P populates (not all of P's keys), and an
    empty-string value of P never replaces a value of the other source.
    An attribute named [__proto__] is assigned through the prototype
    accessor of the result: the other source's is never copied, and P's
    becomes a key of the result only when it is populated and the other
    source's is [null] or an object that has [__proto__] as a key of its
    own.  The merge is the empty bag when no snapshot is stored for the
    entity. *)
Theorem C3_merge_overlays_populated
    (enrichmentStore : gmap string EnrichmentData)
    (t : EntityType) (i : string) (prioritySource : Source) :
  keyed enrichmentStore ->
  let primary := storedData enrichmentStore t i prioritySource in
  let secondary :=
    storedData enrichmentStore t i (secondaryOf prioritySource) in
  let merged := mergeEnrichmentData enrichmentStore t i prioritySource in
  (forall k, k <> "__proto__" ->
             merged !! k
             = match primary !! k with
               | Some v => if populated v then Some v else secondary !! k
               | None => secondary !! k
               end)
  /\ (forall k, k <> "__proto__" ->
                (k ∈ dom merged
                 <-> k ∈ dom secondary
                     \/ exists v, primary !! k = Some v
                                  /\ populated v = true))
  /\ (forall k v, k <> "__proto__" ->
                  primary !! k = Some (JStr "") ->
                  secondary !! k = Some v -> merged !! k = Some v)
  /\ merged !! "__proto__"
     = match primary !! "__proto__" with
       | Some v =>
           if populated v
              && protoIsData (prototypeFrom (secondary !! "__proto__"))
           then Some v
           else None
       | None => None
       end
  /\ (getAllEnrichmentForEntity enrichmentStore t i = [] -> merged = ∅).
Proof.
  intros Hk primary secondary merged.
  assert (forall k, k <> "__proto__" ->
                    merged !! k
                    = match primary !! k with
                      | Some v => if populated v then Some v
                                  else secondary !! k
                      | None => secondary !! k
                      end) as Hlook.
  { intros k Hne. subst merged.
    rewrite mergeEnrichmentData_lookup by exact Hk. cbv zeta.
    apply String.eqb_neq in Hne. now rewrite Hne. }
  split; [exact Hlook |]. split; [| split; [| split]].
  - intros k Hne. rewrite !elem_of_dom, (Hlook k Hne). unfold is_Some.
    destruct (primary !! k) as [v |] eqn:Hp.
    + destruct (populated v) eqn:Hv.
      * split; [intros _; right; eauto | intros _; eauto].
      * split; [intros H; left; exact H |].
        intros [H | (w & Hw & Hpw)]; [exact H |].
        injection Hw as <-. congruence.
    + split; [intros H; left; exact H |].
      intros [H | (w & Hw & _)]; [exact H | discriminate Hw].
  - intros k v Hne Hp Hs. rewrite (Hlook k Hne), Hp. exact Hs.
  - subst merged. rewrite mergeEnrichmentData_lookup by exact Hk.
    reflexivity.
  - intros Hnone. subst merged. unfold mergeEnrichmentData.
    now rewrite Hnone.
Qed.

Lemma C3_merge_overlays_populated_witness :
  keyed sampleLedger
  /\ mergeEnrichmentData sampleLedger Company "company-1" ZoomInfo
       !! "employeeCount" = Some (JNum 600)
  /\ mergeEnrichmentData sampleLedger Company "company-1" ZoomInfo
       !! "industry" = Some (JStr "Tech").
Proof.
  assert (keyed sampleLedger) as Hk
    by (unfold sampleLedger; do 2 apply keyed_store; exact keyed_empty).
  split; [exact Hk |].
  destruct (C3_merge_overlays_populated sampleLedger Company "company-1"
              ZoomInfo Hk) as (Hlook & _).
  rewrite !Hlook by discriminate. split; vm_compute; reflexivity.
Defined.

End EnrichmentSyncProofs.

(* ===================================================================== *)
(** * Facts about numbers *)
(* ===================================================================== *)

Module NumberFacts.

Lemma Qlt_bool_iff (x y : Q) : Qlt_bool x y = true <-> (x < y)%Q.
Proof.
  unfold Qlt_bool. rewrite negb_true_iff. split.
  - intros H. apply Qnot_le_lt. intros Hle.
    apply Qle_bool_iff in Hle. congruence.
  - intros H. destruct (Qle_bool y x) eqn:E; [| reflexivity].
    apply Qle_bool_iff in E. exfalso. exact (Qlt_not_le _ _ H E).
Qed.

Lemma Qlt_bool_false_iff (x y : Q) : Qlt_bool x y = false <-> (y <= x)%Q.
Proof.
  unfold Qlt_bool. rewrite negb_false_iff. apply Qle_bool_iff.
Qed.

Lemma Qle_bool_false_iff (x y : Q) : Qle_bool x y = false <-> (y < x)%Q.
Proof.
  rewrite <- Qlt_bool_iff. unfold Qlt_bool.
  destruct (Qle_bool x y); simpl; split; congruence.
Qed.

Lemma Math_round_comp (x y : Q) : (x == y)%Q -> Math_round x = Math_round y.
Proof. intros H. unfold Math_round. now rewrite H. Qed.

Lemma Math_round_0 : Math_round 0 = 0%Q.
Proof. reflexivity. Qed.

End NumberFacts.

(* ===================================================================== *)
(** * Properties of the rule evaluator *)
(* ===================================================================== *)

Module IcpPersonaScoringProofs.
Import IcpPersonaScoring NumberFacts.

(** ** C2: the [range] operator *)

(** C2, as stated, fails on the missing upper bound: ten to the sixteenth
    is a number above the lower bound 50 of a criterion that has no
    [maxValue], and the criterion does not match it. *)
Lemma C2_missing_max_counterexample :
  operator atLeast50 = Range
  /\ minValue atLeast50 = Some (inject_Z 50)
  /\ maxValue atLeast50 = None
  /\ (inject_Z 50 <= tenToThe16)%Q
  /\ evaluateCriterion (JNum tenToThe16) atLeast50 = false.
Proof. repeat split. vm_compute. discriminate. Qed.

(** C2, amended: a criterion with operator [range] matches a value exactly
    when the value is a number that lies within [min, max], where a missing
    [minValue] stands for [Number.MIN_SAFE_INTEGER] = -(2^53 - 1) and a
    missing [maxValue] for [Number.MAX_SAFE_INTEGER] = 2^53 - 1 (so with a
    bound absent, numbers beyond the safe-integer limit on that side do not
    match); any value that is not a number is unmatched. *)
Theorem C2_range_within_safe_bounds
    (actual : JsValue) (criterion : ICPCriterionConfig) :
  operator criterion = Range ->
  let min := default (inject_Z (- (2 ^ 53 - 1))) (minValue criterion) in
  let max := default (inject_Z (2 ^ 53 - 1)) (maxValue criterion) in
  (evaluateCriterion actual criterion = true
   <-> exists n, actual = JNum n /\ (min <= n)%Q /\ (n <= max)%Q)
  /\ ((forall n, actual <> JNum n) ->
      evaluateCriterion actual criterion = false).
Proof.
  intros Hop min max. unfold evaluateCriterion. rewrite Hop.
  fold MIN_SAFE_INTEGER MAX_SAFE_INTEGER in min, max.
  destruct actual as [| | b | n | s | l | l]; cbn [strictEq orb];
    try (split; [split; [discriminate | intros (n' & Hn & _); discriminate Hn]
                | reflexivity]).
  split.
  - fold min max. rewrite andb_true_iff, !Qle_bool_iff. split.
    + intros [H1 H2]. exists n. auto.
    + intros (n' & Hn & H1 & H2). injection Hn as <-. auto.
  - intros Hnot. exfalso. exact (Hnot n eq_refl).
Qed.

Lemma C2_range_within_safe_bounds_witness :
  operator atLeast50 = Range
  /\ (evaluateCriterion (JNum (inject_Z 500)) atLeast50 = true
      <-> exists n, JNum (inject_Z 500) = JNum n
                    /\ (default (inject_Z (- (2 ^ 53 - 1)))
                          (minValue atLeast50) <= n)%Q
                    /\ (n <= default (inject_Z (2 ^ 53 - 1))
                               (maxValue atLeast50))%Q).
Proof.
  split; [reflexivity |].
  apply (C2_range_within_safe_bounds (JNum (inject_Z 500)) atLeast50).
  reflexivity.
Defined.

(** ** C7: the ICP score and its tier *)

Lemma weightedScore_comp (m m' t t' : Q) :
  (m == m')%Q -> (t == t')%Q -> weightedScore m t = weightedScore m' t'.
Proof.
  intros Hm Ht. unfold weightedScore, Qlt_bool. rewrite Ht.
  destruct (Qle_bool t' 0); cbn [negb]; [reflexivity |].
  apply Math_round_comp. now rewrite Hm, Ht.
Qed.

Lemma sumQ_cons (x : Q) (l : list Q) : sumQ (x :: l) = (x + sumQ l)%Q.
Proof. reflexivity. Qed.

Lemma icpStep_spec (companyData : gmap string JsValue) (st : ICPLoop)
    (c : ICPCriterionConfig) :
  let st' := icpStep companyData st c in
  loop_matched st'
  = loop_matched st
    ++ map (resultOf companyData) (List.filter (matches companyData) [c])
  /\ loop_unmatched st'
     = loop_unmatched st
       ++ map (resultOf companyData)
            (List.filter (fun c => negb (matches companyData c)) [c])
  /\ totalWeight st' = (totalWeight st + weight c)%Q
  /\ matchedWeight st'
     = if matches companyData c then (matchedWeight st + weight c)%Q
       else matchedWeight st.
Proof.
  unfold icpStep, resultOf, matches. cbn [List.filter].
  destruct (evaluateCriterion (get companyData (field c)) c) eqn:E;
    cbn; rewrite ?E, ?app_nil_r; auto.
Qed.

Lemma icpLoop_fold (companyData : gmap string JsValue)
    (cs : list ICPCriterionConfig) (st : ICPLoop) :
  let st' := fold_left (icpStep companyData) cs st in
  loop_matched st'
  = loop_matched st
    ++ map (resultOf companyData) (List.filter (matches companyData) cs)
  /\ loop_unmatched st'
     = loop_unmatched st
       ++ map (resultOf companyData)
            (List.filter (fun c => negb (matches companyData c)) cs)
  /\ (totalWeight st' == totalWeight st + sumQ (map weight cs))%Q
  /\ (matchedWeight st'
      == matchedWeight st
         + sumQ (map weight (List.filter (matches companyData) cs)))%Q.
Proof.
  revert st. induction cs as [| c cs IH]; intros st; cbn [fold_left].
  - cbv zeta. cbn [List.filter map sumQ fold_right]. rewrite !app_nil_r.
    split; [reflexivity |]. split; [reflexivity |]. split; ring.
  - destruct (IH (icpStep companyData st c)) as (H1 & H2 & H3 & H4).
    destruct (icpStep_spec companyData st c) as (S1 & S2 & S3 & S4).
    cbv zeta in *. rewrite H1, H2, H3, H4, S1, S2, S3, S4.
    cbn [List.filter map]. rewrite <- !app_assoc.
    destruct (matches companyData c); cbn [negb map app];
      rewrite ?sumQ_cons;
      (split; [reflexivity |]); (split; [reflexivity |]); split; ring.
Qed.

Lemma icpLoop_spec (companyData : gmap string JsValue)
    (profile : ICPProfile) :
  let st := icpLoop companyData profile in
  loop_matched st
  = map (resultOf companyData)
      (List.filter (matches companyData) (criteria profile))
  /\ loop_unmatched st
     = map (resultOf companyData)
         (List.filter (fun c => negb (matches companyData c))
            (criteria profile))
  /\ (totalWeight st == totalWeightOf profile)%Q
  /\ (matchedWeight st == matchedWeightOf companyData profile)%Q.
Proof.
  unfold icpLoop, totalWeightOf, matchedWeightOf.
  destruct (icpLoop_fold companyData (criteria profile) (mkICPLoop [] [] 0 0))
    as (H1 & H2 & H3 & H4).
  cbv zeta in *. cbn [loop_matched loop_unmatched totalWeight matchedWeight
                      app] in *.
  rewrite H1, H2, H3, H4.
  split; [reflexivity |]. split; [reflexivity |]. split; ring.
Qed.






(** ** C8: the best persona profile *)

Lemma best_fold (contactData : gmap string JsValue)
    (l : list PersonaProfile) (b : BestMatch) :
  exists b', fold_left (bestStep contactData) l (Some b) = Some b'
    /\ ((b' = b
         /\ forall q, List.In q l ->
               (personaScoreOf contactData q <= best_score b)%Q)
        \/ exists (i : nat) (p : PersonaProfile),
             l !! i = Some p
             /\ b' = mkBestMatch p (personaScoreOf contactData p)
                      (snd (evaluatePersonaProfile contactData p))
             /\ (best_score b < personaScoreOf contactData p)%Q
             /\ (forall (j : nat) q, (j < i)%nat -> l !! j = Some q ->
                   (personaScoreOf contactData q
                    < personaScoreOf contactData p)%Q)
             /\ forall q, List.In q l ->
                   (personaScoreOf contactData q
                    <= personaScoreOf contactData p)%Q).
Proof.
  revert b. induction l as [| p l IH]; intros b.
  - exists b. split; [reflexivity |]. left. split; [reflexivity |].
    intros q [].
  - cbn [fold_left]. unfold bestStep at 2. unfold personaScoreOf in *.
    destruct (evaluatePersonaProfile contactData p) as [s a] eqn:Ep.
    destruct (Qlt_bool (best_score b) s) eqn:Elt.
    + apply Qlt_bool_iff in Elt.
      destruct (IH (mkBestMatch p s a))
        as (b' & Hfold & [[-> Hall] | (i & p' & Hi & -> & Hgt & Hbefore & Hall)]).
      * exists (mkBestMatch p s a). split; [exact Hfold |]. right.
        exists 0%nat, p. rewrite Ep. cbn [fst snd best_score] in *.
        repeat split; auto.
        -- intros j q Hj. lia.
        -- intros q [<- | Hq]; [rewrite Ep; cbn; lra | auto].
      * eexists. split; [exact Hfold |]. right.
        exists (S i), p'. cbn [best_score] in Hgt.
        repeat split; auto.
        -- lra.
        -- intros [| j] q Hj Hq.
           ++ injection Hq as <-. rewrite Ep. exact Hgt.
           ++ apply (Hbefore j); [lia | exact Hq].
        -- intros q [<- | Hq]; [rewrite Ep; cbn [fst]; lra | auto].
    + apply Qlt_bool_false_iff in Elt.
      destruct (IH b)
        as (b' & Hfold & [[-> Hall] | (i & p' & Hi & -> & Hgt & Hbefore & Hall)]).
      * exists b. split; [exact Hfold |]. left. split; [reflexivity |].
        intros q [<- | Hq]; [rewrite Ep; exact Elt | auto].
      * eexists. split; [exact Hfold |]. right.
        exists (S i), p'. repeat split; auto.
        -- intros [| j] q Hj Hq.
           ++ injection Hq as <-. rewrite Ep. cbn [fst]. lra.
           ++ apply (Hbefore j); [lia | exact Hq].
        -- intros q [<- | Hq]; [rewrite Ep; cbn [fst]; lra | auto].
Qed.

Lemma bestStep_None (contactData : gmap string JsValue)
    (p : PersonaProfile) :
  bestStep contactData None p
  = Some (mkBestMatch p (personaScoreOf contactData p)
            (snd (evaluatePersonaProfile contactData p))).
Proof.
  unfold bestStep, personaScoreOf.
  now destruct (evaluatePersonaProfile contactData p).
Qed.

(** C8: with no profile configured the result is the [Unknown]
    classification with score 0.  With a non-empty list of profiles, every
    profile is scored on its own and the result is the profile, at some
    position [i], whose score no other profile exceeds and which every
    profile declared before it stays strictly below: the first profile with
    the highest score. *)
Theorem C8_persona_first_highest (contactData : gmap string JsValue)
    (profiles : list PersonaProfile) :
  let r := calculatePersonaScore contactData profiles in
  (profiles = [] ->
   personaType r = "Unknown" /\ persona_matchScore r = 0%Q
   /\ persona_attributes r = [])
  /\ (profiles <> [] ->
      exists (i : nat) (p : PersonaProfile),
        profiles !! i = Some p
        /\ personaType r = persona_name p
        /\ persona_matchScore r = personaScoreOf contactData p
        /\ persona_attributes r = snd (evaluatePersonaProfile contactData p)
        /\ (forall q, List.In q profiles ->
              (personaScoreOf contactData q
               <= personaScoreOf contactData p)%Q)
        /\ (forall (j : nat) q, (j < i)%nat -> profiles !! j = Some q ->
              (personaScoreOf contactData q
               < personaScoreOf contactData p)%Q)).
Proof.
  intros r. split.
  - intros ->. subst r. repeat split.
  - intros Hne. destruct profiles as [| p0 rest]; [congruence |].
    subst r. unfold calculatePersonaScore. cbn [fold_left].
    rewrite bestStep_None.
    destruct (best_fold contactData rest
                (mkBestMatch p0 (personaScoreOf contactData p0)
                   (snd (evaluatePersonaProfile contactData p0))))
      as (b' & -> & [[-> Hall] | (i & p & Hi & -> & Hgt & Hbefore & Hall)]);
      cbn [best_score] in *.
    + exists 0%nat, p0.
      do 4 (split; [reflexivity |]). split.
      * intros q [<- | Hq]; [apply Qle_refl | exact (Hall q Hq)].
      * intros j q Hj. lia.
    + exists (S i), p.
      split; [exact Hi |]. do 3 (split; [reflexivity |]). split.
      * intros q [<- | Hq]; [apply Qlt_le_weak, Hgt | exact (Hall q Hq)].
      * intros [| j] q Hj Hq.
        -- injection Hq as <-. exact Hgt.
        -- apply (Hbefore j); [lia | exact Hq].
Qed.

Lemma C8_persona_first_highest_witness :
  defaultPersonaProfiles <> []
  /\ exists (i : nat) (p : PersonaProfile),
       defaultPersonaProfiles !! i = Some p
       /\ personaType (calculatePersonaScore emptyContact
                         defaultPersonaProfiles) = persona_name p
       /\ (forall q, List.In q defaultPersonaProfiles ->
             (personaScoreOf emptyContact q
              <= personaScoreOf emptyContact p)%Q).
Proof.
  assert (defaultPersonaProfiles <> []) as Hne by discriminate.
  split; [exact Hne |].
  destruct (C8_persona_first_highest emptyContact defaultPersonaProfiles)
    as [_ Hbest].
  destruct (Hbest Hne) as (i & p & Hi & Hname & _ & _ & Hmax & _).
  exists i, p. auto.
Defined.

(** ** C10: persona attributes compare strings only, ignoring case *)

Lemma existsb_map {A B : Type} (f : B -> bool) (g : A -> B) (l : list A) :
  existsb f (map g l) = existsb (fun x => f (g x)) l.
Proof.
  induction l as [| x l IH]; [reflexivity |].
  cbn [map existsb]. now rewrite IH.
Qed.

Lemma evaluatePersonaAttribute_lower (s : string)
    (attr : PersonaAttributeConfig) :
  evaluatePersonaAttribute (JStr s) attr
  = existsb (personaTest (attr_operator attr) (toLowerCase s))
      (map toLowerCase (values attr)).
Proof.
  rewrite existsb_map. unfold evaluatePersonaAttribute, personaTest.
  destruct (attr_operator attr); reflexivity.
Qed.

(** C10: in persona evaluation every operator leaves a value that is
    [undefined], [null] or not a string unmatched, so a number or a boolean
    never matches; on a string, the result depends on the actual value and
    on the configured values through their lower-cased forms only, for
    [equals], [contains] and [in] alike.  ICP evaluation differs: its
    [equals] matches a number. *)
Theorem C10_persona_strings_case_insensitive
    (actual : JsValue) (attr : PersonaAttributeConfig) :
  ((forall s, actual <> JStr s) ->
   evaluatePersonaAttribute actual attr = false)
  /\ evaluatePersonaAttribute JUndefined attr = false
  /\ evaluatePersonaAttribute JNull attr = false
  /\ (forall n, evaluatePersonaAttribute (JNum n) attr = false)
  /\ (forall b, evaluatePersonaAttribute (JBool b) attr = false)
  /\ (forall s,
        evaluatePersonaAttribute (JStr s) attr
        = existsb (personaTest (attr_operator attr) (toLowerCase s))
            (map toLowerCase (values attr)))
  /\ (forall s s' attr',
        toLowerCase s' = toLowerCase s ->
        attr_operator attr' = attr_operator attr ->
        map toLowerCase (values attr') = map toLowerCase (values attr) ->
        evaluatePersonaAttribute (JStr s') attr'
        = evaluatePersonaAttribute (JStr s) attr)
  /\ evaluateCriterion (JNum (inject_Z 5)) equals5 = true.
Proof.
  split; [| do 4 (split; [reflexivity |]); split; [| split]].
  - intros Hnot. destruct actual; try reflexivity.
    exfalso. exact (Hnot _ eq_refl).
  - intros s. apply evaluatePersonaAttribute_lower.
  - intros s s' attr' Hs Hop Hvs.
    rewrite !evaluatePersonaAttribute_lower. now rewrite Hs, Hop, Hvs.
  - reflexivity.
Qed.

Lemma C10_persona_strings_case_insensitive_witness :
  toLowerCase "ceo" = toLowerCase "CEO"
  /\ evaluatePersonaAttribute (JStr "ceo") titleIn
     = evaluatePersonaAttribute (JStr "CEO") titleIn
  /\ evaluatePersonaAttribute (JStr "CEO") titleIn = true.
Proof.
  assert (toLowerCase "ceo" = toLowerCase "CEO") as Hs by reflexivity.
  split; [exact Hs |]. split; [| reflexivity].
  destruct (C10_persona_strings_case_insensitive (JStr "CEO") titleIn)
    as (_ & _ & _ & _ & _ & _ & Hcase & _).
  exact (Hcase "CEO" "ceo" titleIn Hs eq_refl eq_refl).
Defined.

End IcpPersonaScoringProofs.

(* ===================================================================== *)
(** * Properties of the score calculator *)
(* ===================================================================== *)

Module ScoringEngineProofs.
Import ScoringEngine NumberFacts.

(** ** The result of [calculateUnifiedScore], field by field *)

Lemma calculateUnifiedScore_none (st : Stores) (companyId : string)
    (config : ScoringConfig) (now : Z) :
  getSignalsForCompany st companyId = [] ->
  calculateUnifiedScore st companyId config now = (None, st).
Proof. intros H. unfold calculateUnifiedScore. now rewrite H. Qed.

Lemma calculateUnifiedScore_some (st : Stores) (companyId : string)
    (config : ScoringConfig) (now : Z) :
  getSignalsForCompany st companyId <> [] ->
  exists score,
    calculateUnifiedScore st companyId config now
    = (Some score,
       {| signalStore := signalStore st;
          scoreCache := <[companyId := score]> (scoreCache st) |})
    /\ overallScore score
       = Math_round
           (calculateSourceScore
              (List.filter (fun s => Source_eqb (source s) Apollo)
                 (getSignalsForCompany st companyId))
              (decayDays config) now * apolloWeight config
            + calculateSourceScore
                (List.filter (fun s => Source_eqb (source s) ZoomInfo)
                   (getSignalsForCompany st companyId))
                (decayDays config) now * zoomInfoWeight config)
    /\ trend score
       = determineTrend (overallScore score)
           (overallScore <$> scoreCache st !! companyId)
    /\ isSpike score
       = checkForSpike (overallScore score)
           (overallScore <$> scoreCache st !! companyId)
           (spikeThresholdPercent config).
Proof.
  intros Hne. unfold calculateUnifiedScore.
  destruct (getSignalsForCompany st companyId) as [| s0 rest] eqn:E;
    [congruence |].
  cbn [length Nat.eqb]. eexists. split; [reflexivity |].
  cbn [overallScore trend isSpike]. repeat split.
Qed.

(** ** Scores stay at or above 0 *)

Lemma Math_round_nonneg (x : Q) : (0 <= x)%Q -> (0 <= Math_round x)%Q.
Proof.
  intros Hx. unfold Math_round.
  change 0%Q with (inject_Z 0). rewrite <- Zle_Qle.
  change 0%Z with (Qfloor 0). apply Qfloor_resp_le. lra.
Qed.

Lemma calculateDecay_range (signalDate : Z) (decayDays : Q) (now : Z) :
  (0 <= calculateDecay signalDate decayDays now <= 1)%Q.
Proof.
  unfold calculateDecay.
  set (daysDiff := (inject_Z (now - signalDate) / msPerDay)%Q).
  destruct (Qle_bool daysDiff 0) eqn:E0; [lra |].
  apply Qle_bool_false_iff in E0.
  destruct (Qle_bool decayDays daysDiff) eqn:E1; [lra |].
  apply Qle_bool_false_iff in E1.
  assert (0 < decayDays)%Q as Hd by lra.
  assert (0 < daysDiff / decayDays)%Q as H0
    by (apply Qlt_shift_div_l; [exact Hd | lra]).
  assert (daysDiff / decayDays < 1)%Q as H1
    by (apply Qlt_shift_div_r; [exact Hd | lra]).
  lra.
Qed.

Lemma sourceFold_nonneg (decayDays : Q) (now : Z)
    (signals : list IntentSignal) (acc : Q * Q) :
  (forall s, List.In s signals -> (0 <= signalStrength s)%Q) ->
  (0 <= fst acc)%Q -> (0 <= snd acc)%Q ->
  (0 <= fst (fold_left (sourceStep decayDays now) signals acc))%Q
  /\ (0 <= snd (fold_left (sourceStep decayDays now) signals acc))%Q.
Proof.
  revert acc. induction signals as [| s signals IH]; intros [ws tw] Hs Hws Htw;
    cbn [fold_left]; [split; assumption |].
  apply IH.
  - intros s' Hs'. apply Hs. now right.
  - cbn [sourceStep fst].
    pose proof (calculateDecay_range (timestamp s) decayDays now) as [Hd _].
    assert (0 <= signalStrength s)%Q as Hst by (apply Hs; now left).
    pose proof (Qmult_le_0_compat _ _ Hst Hd). cbn [fst] in Hws. lra.
  - cbn [sourceStep snd].
    pose proof (calculateDecay_range (timestamp s) decayDays now) as [Hd _].
    cbn [snd] in Htw. lra.
Qed.

Lemma calculateSourceScore_nonneg (signals : list IntentSignal)
    (decayDays : Q) (now : Z) :
  (forall s, List.In s signals -> (0 <= signalStrength s)%Q) ->
  (0 <= calculateSourceScore signals decayDays now)%Q.
Proof.
  intros Hs. unfold calculateSourceScore.
  destruct (length signals =? 0)%nat; [lra |].
  destruct (sourceFold_nonneg decayDays now signals (0%Q, 0%Q) Hs)
    as [Hws Htw]; [cbn; lra | cbn; lra |].
  destruct (fold_left (sourceStep decayDays now) signals (0%Q, 0%Q))
    as [ws tw].
  cbn [fst snd] in Hws, Htw.
  destruct (Qeq_bool tw 0) eqn:E; [lra |].
  apply Qeq_bool_neq in E.
  assert (0 <= ws / tw)%Q as Hdiv
    by (apply Qle_shift_div_l; [lra | lra]).
  destruct (Q.min_spec 100 (ws / tw)) as [[_ ->] | [_ ->]]; lra.
Qed.

Lemma cacheInRange_calculateUnifiedScore (st : Stores) (companyId : string)
    (config : ScoringConfig) (now : Z) :
  signalsInRange st -> weightsInRange config -> cacheInRange st ->
  cacheInRange (snd (calculateUnifiedScore st companyId config now)).
Proof.
  intros Hsig [Hwa Hwz] Hcache.
  destruct (getSignalsForCompany st companyId) as [| s0 rest] eqn:E.
  - rewrite calculateUnifiedScore_none by exact E. exact Hcache.
  - destruct (calculateUnifiedScore_some st companyId config now)
      as (score & -> & Hov & _); [congruence |].
    intros id previous. cbn [snd scoreCache].
    rewrite lookup_insert. case_decide as Hid; [| apply Hcache].
    intros H. injection H as <-. rewrite Hov.
    assert (forall src s,
              List.In s (List.filter (fun s => Source_eqb (source s) src)
                           (getSignalsForCompany st companyId)) ->
              (0 <= signalStrength s)%Q) as Hin.
    { intros src s Hs. apply filter_In in Hs as [Hs _].
      unfold getSignalsForCompany in Hs.
      destruct (signalStore st !! companyId) as [l |] eqn:El; [| destruct Hs].
      exact (Hsig _ _ _ El Hs). }
    apply Math_round_nonneg.
    pose proof (calculateSourceScore_nonneg _ (decayDays config) now
                  (Hin Apollo)) as HA.
    pose proof (calculateSourceScore_nonneg _ (decayDays config) now
                  (Hin ZoomInfo)) as HZ.
    pose proof (Qmult_le_0_compat _ _ HA Hwa).
    pose proof (Qmult_le_0_compat _ _ HZ Hwz). lra.
Qed.

Lemma signalsInRange_add (st : Stores) (signal : IntentSignal) :
  signalsInRange st -> (0 <= signalStrength signal)%Q ->
  signalsInRange (addIntentSignal st signal).
Proof.
  intros Hsig Hs id signals s. unfold addIntentSignal. cbn [signalStore].
  rewrite lookup_insert. case_decide as Hid.
  - intros H. injection H as <-. intros Hin.
    apply in_app_iff in Hin as [Hin | [<- | []]]; [| exact Hs].
    destruct (signalStore st !! companyId signal) as [l |] eqn:El;
      [exact (Hsig _ _ _ El Hin) | destruct Hin].
  - apply Hsig.
Qed.

Lemma signalsInRange_calculateUnifiedScore (st : Stores)
    (companyId : string) (config : ScoringConfig) (now : Z) :
  signalsInRange st ->
  signalsInRange (snd (calculateUnifiedScore st companyId config now)).
Proof.
  intros Hsig.
  destruct (getSignalsForCompany st companyId) as [| s0 rest] eqn:E.
  - rewrite calculateUnifiedScore_none by exact E. exact Hsig.
  - destruct (calculateUnifiedScore_some st companyId config now)
      as (score & -> & _); [congruence |]. exact Hsig.
Qed.

Lemma cacheInRange_add (st : Stores) (signal : IntentSignal) :
  cacheInRange st -> cacheInRange (addIntentSignal st signal).
Proof. intros H. exact H. Qed.

Lemma noStores_inRange : signalsInRange noStores /\ cacheInRange noStores.
Proof.
  split.
  - intros id signals s H. cbn in H. rewrite lookup_empty in H. discriminate H.
  - intros id previous H. cbn in H. rewrite lookup_empty in H. discriminate H.
Qed.

(** ** C5: when a score is a spike *)

Lemma checkForSpike_iff (current : Q) (previous : option Q) (threshold : Q) :
  checkForSpike current previous threshold = true
  <-> exists p, previous = Some p /\ ~ (p == 0)%Q
                /\ (threshold <= percentIncrease current p)%Q.
Proof.
  unfold checkForSpike, percentIncrease.
  destruct previous as [p |].
  - destruct (Qeq_bool p 0) eqn:E.
    + apply Qeq_bool_iff in E. split; [discriminate |].
      intros (p' & Hp & Hne & _). injection Hp as <-. contradiction.
    + apply Qeq_bool_neq in E. rewrite Qle_bool_iff. split.
      * intros H. exists p. auto.
      * intros (p' & Hp & _ & H). injection Hp as <-. exact H.
  - split; [discriminate |]. intros (p & Hp & _). discriminate Hp.
Qed.

Lemma roundingMargin_nonneg (x : Q) : (0 <= roundingMargin x)%Q.
Proof.
  unfold roundingMargin. pose proof (Qabs_nonneg x).
  apply Qle_shift_div_l; [reflexivity | lra].
Qed.





(** ** C6: two calls in a row *)

Lemma determineTrend_same (s : Q) : determineTrend s (Some s) = Stable.
Proof.
  unfold determineTrend.
  assert (Qlt_bool 5 (s - s) = false) as -> by (apply Qlt_bool_false_iff; lra).
  assert (Qlt_bool (s - s) (-5) = false) as ->
    by (apply Qlt_bool_false_iff; lra).
  reflexivity.
Qed.

Lemma checkForSpike_same (s threshold : Q) :
  checkForSpike s (Some s) threshold
  = negb (Qeq_bool s 0) && Qle_bool threshold 0.
Proof.
  unfold checkForSpike.
  destruct (Qeq_bool s 0) eqn:E; [reflexivity |].
  apply Qeq_bool_neq in E. cbn [negb andb].
  assert ((s - s) / s * 100 == 0)%Q as -> by (field; exact E).
  reflexivity.
Qed.

(** C6, as stated, fails on the spike flag: with a spike threshold of 0
    percent, one signal of strength 80 gives score 40 on both calls, and
    the second call reports a spike (increase 0 is at least 0), with trend
    stable. *)
Lemma C6_zero_threshold_counterexample :
  getSignalsForCompany oneSignal "c1" = [cloud80]
  /\ overallScore
       <$> fst (calculateUnifiedScore oneSignal "c1" zeroThreshold 1000)
     = Some 40%Q
  /\ overallScore
       <$> fst (calculateUnifiedScore
                  (snd (calculateUnifiedScore oneSignal "c1" zeroThreshold
                          1000))
                  "c1" zeroThreshold 1000)
     = Some 40%Q
  /\ trend
       <$> fst (calculateUnifiedScore
                  (snd (calculateUnifiedScore oneSignal "c1" zeroThreshold
                          1000))
                  "c1" zeroThreshold 1000)
     = Some Stable
  /\ isSpike
       <$> fst (calculateUnifiedScore
                  (snd (calculateUnifiedScore oneSignal "c1" zeroThreshold
                          1000))
                  "c1" zeroThreshold 1000)
     = Some true.
Proof. vm_compute. repeat split. Qed.

(** C6, amended: for an entity with at least one signal, two calls in a
    row at the same instant, with the same configuration and no signal
    added in between, give the same overall score, and the second call
    reports trend stable; it reports no spike when the configured spike
    threshold is above 0 (as the default 25 is) or the score is 0, and it
    reports a spike exactly when the score is not 0 and the threshold is at
    most 0. *)
Theorem C6_second_call_stable
    (st : Stores) (companyId : string) (config : ScoringConfig) (now : Z) :
  getSignalsForCompany st companyId <> [] ->
  exists first second,
    fst (calculateUnifiedScore st companyId config now) = Some first
    /\ scoreCache (snd (calculateUnifiedScore st companyId config now))
         !! companyId = Some first
    /\ fst (calculateUnifiedScore
              (snd (calculateUnifiedScore st companyId config now))
              companyId config now) = Some second
    /\ overallScore second = overallScore first
    /\ trend second = Stable
    /\ ((0 < spikeThresholdPercent config)%Q -> isSpike second = false)
    /\ ((overallScore first == 0)%Q -> isSpike second = false)
    /\ (isSpike second = true
        <-> ~ (overallScore first == 0)%Q
            /\ (spikeThresholdPercent config <= 0)%Q).
Proof.
  intros Hne.
  destruct (calculateUnifiedScore_some st companyId config now Hne)
    as (first & Hcall1 & Hov1 & _).
  rewrite Hcall1. cbn [fst snd].
  set (st1 := {| signalStore := signalStore st;
                 scoreCache := <[companyId := first]> (scoreCache st) |}).
  assert (getSignalsForCompany st1 companyId
          = getSignalsForCompany st companyId) as Hsame by reflexivity.
  destruct (calculateUnifiedScore_some st1 companyId config now)
    as (second & Hcall2 & Hov2 & Htrend & Hspike);
    [rewrite Hsame; exact Hne |].
  rewrite Hsame, <- Hov1 in Hov2.
  assert (scoreCache st1 !! companyId = Some first) as Hcached
    by (subst st1; cbn [scoreCache]; apply lookup_insert_eq).
  rewrite Hcached in Htrend, Hspike. cbn [fmap option_fmap option_map] in *.
  rewrite Hov2 in Htrend, Hspike.
  rewrite determineTrend_same in Htrend.
  rewrite checkForSpike_same in Hspike.
  exists first, second. rewrite Hcall2. cbn [fst].
  do 5 (split; [first [reflexivity | assumption] |]).
  rewrite Hspike. split; [| split].
  - intros Hpos.
    assert (Qle_bool (spikeThresholdPercent config) 0 = false) as ->
      by (apply Qle_bool_false_iff; exact Hpos).
    apply andb_false_r.
  - intros Hz. apply Qeq_bool_iff in Hz. now rewrite Hz.
  - rewrite andb_true_iff, negb_true_iff, Qle_bool_iff. split.
    + intros [Hnz Hle]. split; [| exact Hle].
      apply Qeq_bool_neq. exact Hnz.
    + intros [Hnz Hle]. split; [| exact Hle].
      destruct (Qeq_bool (overallScore first) 0) eqn:E; [| reflexivity].
      apply Qeq_bool_iff in E. contradiction.
Qed.

Lemma C6_second_call_stable_witness :
  getSignalsForCompany oneSignal "c1" <> []
  /\ exists first second,
       fst (calculateUnifiedScore oneSignal "c1" defaultConfig 1000)
       = Some first
       /\ fst (calculateUnifiedScore
                 (snd (calculateUnifiedScore oneSignal "c1" defaultConfig
                         1000))
                 "c1" defaultConfig 1000) = Some second
       /\ trend second = Stable
       /\ isSpike second = false.
Proof.
  assert (getSignalsForCompany oneSignal "c1" <> []) as Hne
    by (vm_compute; discriminate).
  split; [exact Hne |].
  destruct (C6_second_call_stable oneSignal "c1" defaultConfig 1000 Hne)
    as (first & second & H1 & _ & H2 & _ & Htrend & Hnospike & _).
  exists first, second.
  repeat split; try assumption.
  apply Hnospike. reflexivity.
Defined.

(** ** C9: a fully decayed signal *)

Lemma calculateDecay_zero (signal : IntentSignal) (decayDays : Q) (now : Z) :
  (0 < ageDays signal now)%Q -> (decayDays <= ageDays signal now)%Q ->
  calculateDecay (timestamp signal) decayDays now = 0%Q.
Proof.
  unfold calculateDecay, ageDays. intros Hpos Hge.
  apply Qle_bool_false_iff in Hpos as ->.
  apply Qle_bool_iff in Hge as ->. reflexivity.
Qed.

Lemma Qmin_comp (x y y' : Q) : (y == y')%Q -> (Qmin x y == Qmin x y')%Q.
Proof.
  intros H.
  destruct (Q.min_spec x y) as [[? ->] | [? ->]];
    destruct (Q.min_spec x y') as [[? ->] | [? ->]]; lra.
Qed.

(** C9, as stated, fails when the decay window is not positive: with a
    window of 0 days, a signal observed at the very instant of the
    computation has age 0, which is at least the window, and it counts with
    decay 1; appended to one fresh signal of strength 80 it halves the
    source score. *)
Lemma C9_zero_window_counterexample :
  (decayDays zeroWindow <= ageDays cloud0 1000)%Q
  /\ calculateDecay (timestamp cloud0) (decayDays zeroWindow) 1000 = 1%Q
  /\ (calculateSourceScore [cloud80] (decayDays zeroWindow) 1000 == 80)%Q
  /\ (calculateSourceScore ([cloud80] ++ [cloud0]) (decayDays zeroWindow) 1000
      == 40)%Q
  /\ ~ (calculateSourceScore ([cloud80] ++ [cloud0]) (decayDays zeroWindow)
          1000
        == calculateSourceScore [cloud80] (decayDays zeroWindow) 1000)%Q.
Proof.
  split; [vm_compute; discriminate |]. split; [reflexivity |].
  split; [reflexivity |]. split; [reflexivity |].
  vm_compute. discriminate.
Qed.

(** C9, amended: for every list of signals of one source and every
    additional signal whose age is at least the configured decay window,
    where the age is above 0 (which it is whenever the window is above 0),
    the source score over the list with the signal appended equals the
    score over the list without it: the signal has decay 0 and adds nothing
    to the numerator or the denominator of the weighted mean. *)
Theorem C9_decayed_signal_ignored
    (signals : list IntentSignal) (extra : IntentSignal)
    (decayDays : Q) (now : Z) :
  (0 < ageDays extra now)%Q \/ (0 < decayDays)%Q ->
  (decayDays <= ageDays extra now)%Q ->
  calculateDecay (timestamp extra) decayDays now = 0%Q
  /\ (calculateSourceScore (signals ++ [extra]) decayDays now
      == calculateSourceScore signals decayDays now)%Q.
Proof.
  intros Hpos Hge.
  assert (0 < ageDays extra now)%Q as Hage by (destruct Hpos; lra).
  pose proof (calculateDecay_zero extra decayDays now Hage Hge) as Hdecay.
  split; [exact Hdecay |].
  unfold calculateSourceScore.
  rewrite fold_left_app. cbn [fold_left].
  destruct (fold_left (sourceStep decayDays now) signals (0%Q, 0%Q))
    as [ws tw] eqn:Efold.
  cbn [sourceStep]. rewrite Hdecay.
  rewrite length_app. cbn [length].
  replace (length signals + 1 =? 0)%nat with false
    by (symmetry; apply Nat.eqb_neq; lia).
  assert (tw + 0 == tw)%Q as Htw by ring.
  rewrite (Qeqb_comp _ _ Htw 0%Q 0%Q (Qeq_refl 0)).
  destruct signals as [| s0 rest].
  - cbn [fold_left] in Efold. injection Efold as <- <-. reflexivity.
  - cbn [length Nat.eqb].
    destruct (Qeq_bool tw 0) eqn:E; [reflexivity |].
    apply Qeq_bool_neq in E.
    apply Qmin_comp. field. exact E.
Qed.

Lemma C9_decayed_signal_ignored_witness :
  ((0 < ageDays stale50 later31Days)%Q \/ (0 < decayDays defaultConfig)%Q)
  /\ (decayDays defaultConfig <= ageDays stale50 later31Days)%Q
  /\ (calculateSourceScore ([fresh80] ++ [stale50]) (decayDays defaultConfig)
        later31Days
      == calculateSourceScore [fresh80] (decayDays defaultConfig)
           later31Days)%Q.
Proof.
  assert ((0 < ageDays stale50 later31Days)%Q
          \/ (0 < decayDays defaultConfig)%Q) as Hpos
    by (right; reflexivity).
  assert (decayDays defaultConfig <= ageDays stale50 later31Days)%Q as Hge
    by (vm_compute; discriminate).
  split; [exact Hpos |]. split; [exact Hge |].
  apply (C9_decayed_signal_ignored [fresh80] stale50 (decayDays defaultConfig)
           later31Days Hpos Hge).
Defined.

End ScoringEngineProofs.

(* ===================================================================== *)
(** * The repository's own tests, replayed on the embedding *)
(* ===================================================================== *)

Module RepositoryTests.

Import EnrichmentSync.

(** should store enrichment data and return null for first entry *)
Example first_entry_null :
  fst (storeEnrichmentData ∅ tech500 "t1") = None.
Proof. reflexivity. Qed.

(** should detect changes and return delta *)
Example changed_employeeCount :
  changes <$> fst (storeEnrichmentData
                     (snd (storeEnrichmentData ∅ tech500 "t1")) tech600 "t2")
  = Some [ mkFieldChange "employeeCount" (JNum 500) (JNum 600) ].
Proof. vm_compute. reflexivity. Qed.

(** should return null when no changes *)
Example unchanged_null :
  fst (storeEnrichmentData (snd (storeEnrichmentData ∅ tech500 "t1"))
         tech500 "t2") = None.
Proof. vm_compute. reflexivity. Qed.

(** should merge data with ZoomInfo priority by default *)
Example merge_zoominfo_priority :
  mergeEnrichmentData sampleLedger Company "company-1" ZoomInfo
  = {[ "employeeCount" := JNum 600; "industry" := JStr "Tech";
       "website" := JStr "a.com"; "annualRevenue" := JNum 50000000 ]}.
Proof. vm_compute. reflexivity. Qed.

(** should merge data with Apollo priority when specified *)
Example merge_apollo_priority :
  mergeEnrichmentData sampleLedger Company "company-1" Apollo
    !! "employeeCount" = Some (JNum 500).
Proof. vm_compute. reflexivity. Qed.

(** should return empty object for non-existent entity *)
Example merge_unknown_entity :
  mergeEnrichmentData sampleLedger Company "unknown" ZoomInfo = ∅.
Proof. vm_compute. reflexivity. Qed.

Import IcpPersonaScoring.

(** should calculate ICP match for a perfect match company *)
Example icp_perfect :
  let r := calculateICPMatch perfectCompany defaultICPProfile in
  companyId r = JStr "company-1" /\ matchScore r = 100%Q /\ tier r = TierA
  /\ length (matchedCriteria r) = 5%nat
  /\ length (unmatchedCriteria r) = 0%nat.
Proof. vm_compute. repeat split. Qed.

(** should calculate ICP match for a partial match company *)
Example icp_partial :
  let r := calculateICPMatch partialCompany defaultICPProfile in
  matchScore r = 65%Q /\ tier r = TierB
  /\ length (matchedCriteria r) = 3%nat
  /\ length (unmatchedCriteria r) = 2%nat.
Proof. vm_compute. repeat split. Qed.

(** should handle missing fields gracefully *)
Example icp_missing_fields :
  let r := calculateICPMatch bareCompany defaultICPProfile in
  companyId r = JStr "company-3" /\ matchScore r = 0%Q /\ tier r = TierD
  /\ length (unmatchedCriteria r) = 5%nat.
Proof. vm_compute. repeat split. Qed.

(** should identify Decision Maker / Technical Evaluator / End User *)
Example persona_types :
  personaType (calculatePersonaScore ceoContact defaultPersonaProfiles)
  = "Decision Maker"
  /\ personaType (calculatePersonaScore engineerContact
                    defaultPersonaProfiles) = "Technical Evaluator"
  /\ personaType (calculatePersonaScore managerContact
                    defaultPersonaProfiles) = "End User".
Proof. vm_compute. repeat split. Qed.

Import ScoringEngine.

(** should return null for unknown company *)
Example score_unknown_company :
  fst (calculateUnifiedScore noStores "unknown-company" defaultConfig 1000)
  = None.
Proof. reflexivity. Qed.

(** should calculate score from Apollo signals only *)
Example score_apollo_only :
  (fun s => (apolloScore s, zoomInfoScore s, overallScore s))
    <$> fst (calculateUnifiedScore oneSignal "c1" defaultConfig 1000)
  = Some (80%Q, 0%Q, 40%Q).
Proof. vm_compute. reflexivity. Qed.

(** should calculate unified score from both sources *)
Example score_both_sources :
  (fun s => (apolloScore s, zoomInfoScore s, overallScore s, signalCount s))
    <$> fst (calculateUnifiedScore
               (addIntentSignals noStores [cloud80; ai60]) "c1"
               defaultConfig 1000)
  = Some (80%Q, 60%Q, 70%Q, 2%nat).
Proof. vm_compute. reflexivity. Qed.

(** should detect increasing trend *)
Example score_increasing_trend :
  trend
    <$> fst (calculateUnifiedScore
               (addIntentSignal
                  (snd (calculateUnifiedScore
                          (addIntentSignal noStores cloud50) "c1"
                          defaultConfig 1000))
                  ai90)
               "c1" defaultConfig 1000)
  = Some Increasing.
Proof. vm_compute. reflexivity. Qed.

End RepositoryTests.

(* ===================================================================== *)
(** * Further properties of the enrichment ledger and merger *)
(* ===================================================================== *)

Module EnrichmentSyncExtras.
Import EnrichmentSync EnrichmentSyncProofs.

Lemma isFor_iff (t : EntityType) (i : string) (s : Source)
    (d : EnrichmentData) :
  isFor t i s d = true <-> tripleOf d = (t, i, s).
Proof.
  unfold isFor, tripleOf. rewrite !andb_true_iff, String.eqb_eq. split.
  - intros [[Ht Hi] Hs]. subst i.
    destruct (entityType d), t; try discriminate Ht;
      destruct (source d), s; try discriminate Hs; reflexivity.
  - intros H. injection H as -> -> ->.
    destruct t, s; repeat split.
Qed.

Lemma key_eq_iff (t : EntityType) (i : string) (s : Source)
    (d : EnrichmentData) :
  getEnrichmentKey (entityType d) (entityId d) (source d)
  = getEnrichmentKey t i s
  <-> tripleOf d = (t, i, s).
Proof.
  unfold tripleOf. split.
  - intros H. apply getEnrichmentKey_inj in H as (-> & -> & ->). reflexivity.
  - intros H. injection H as -> -> ->. reflexivity.
Qed.

Lemma find_app_last {A : Type} (p : A -> bool) (l : list A) (x : A) :
  List.find p (l ++ [x])
  = match List.find p l with
    | Some y => Some y
    | None => if p x then Some x else None
    end.
Proof.
  induction l as [| y l IH]; cbn [app List.find]; [reflexivity |].
  destruct (p y); [reflexivity | exact IH].
Qed.

Lemma processBatchEnrichment_cons
    (enrichmentStore : gmap string EnrichmentData)
    (e : EnrichmentData) (now : string)
    (rest : list (EnrichmentData * string)) :
  processBatchEnrichment enrichmentStore ((e, now) :: rest)
  = (match fst (storeEnrichmentData enrichmentStore e now) with
     | Some d =>
         d :: fst (processBatchEnrichment
                     (snd (storeEnrichmentData enrichmentStore e now)) rest)
     | None =>
         fst (processBatchEnrichment
                (snd (storeEnrichmentData enrichmentStore e now)) rest)
     end,
     snd (processBatchEnrichment
            (snd (storeEnrichmentData enrichmentStore e now)) rest)).
Proof.
  cbn [processBatchEnrichment].
  destruct (storeEnrichmentData enrichmentStore e now) as [delta store1].
  cbn [fst snd].
  destruct (processBatchEnrichment store1 rest) as [deltas store2].
  reflexivity.
Qed.

(** X1: after a batch, the ledger holds for every triple the last snapshot
    the batch has for it, and what it held before for a triple the batch
    does not mention. *)
Theorem X1_batch_last_write_wins
    (enrichmentStore : gmap string EnrichmentData)
    (batch : list (EnrichmentData * string))
    (t : EntityType) (i : string) (s : Source) :
  getEnrichmentData (snd (processBatchEnrichment enrichmentStore batch)) t i s
  = match lastFor t i s batch with
    | Some e => Some e
    | None => getEnrichmentData enrichmentStore t i s
    end.
Proof.
  revert enrichmentStore.
  induction batch as [| [e now] rest IH]; intros enrichmentStore;
    [reflexivity |].
  rewrite processBatchEnrichment_cons. cbn [snd]. rewrite IH.
  unfold lastFor. cbn [map fst rev]. rewrite find_app_last.
  destruct (List.find (isFor t i s) (rev (map fst rest))); [reflexivity |].
  rewrite storeEnrichmentData_snd. unfold getEnrichmentData.
  rewrite lookup_insert.
  destruct (isFor t i s e) eqn:E.
  - apply isFor_iff, key_eq_iff in E. now rewrite decide_True.
  - rewrite decide_False; [reflexivity |].
    intros Hkey. apply key_eq_iff, isFor_iff in Hkey. congruence.
Qed.

(** X2: a batch whose snapshots are for pairwise different triples, none
    of which the ledger holds yet, yields no delta at all. *)
Theorem X2_first_batch_no_delta
    (enrichmentStore : gmap string EnrichmentData)
    (batch : list (EnrichmentData * string)) :
  (forall e now, In (e, now) batch ->
     getEnrichmentData enrichmentStore (entityType e) (entityId e) (source e)
     = None) ->
  List.NoDup (map (fun p => tripleOf (fst p)) batch) ->
  fst (processBatchEnrichment enrichmentStore batch) = [].
Proof.
  revert enrichmentStore.
  induction batch as [| [e now] rest IH]; intros enrichmentStore Hnew Hnodup;
    [reflexivity |].
  rewrite processBatchEnrichment_cons.
  cbn [map fst] in Hnodup. apply List.NoDup_cons_iff in Hnodup as [Hfresh Hnodup].
  assert (fst (storeEnrichmentData enrichmentStore e now) = None) as ->.
  { unfold storeEnrichmentData.
    specialize (Hnew e now (or_introl eq_refl)).
    unfold getEnrichmentData in Hnew. now rewrite Hnew. }
  apply IH; [| exact Hnodup].
  intros e' now' Hin. rewrite storeEnrichmentData_snd.
  unfold getEnrichmentData. rewrite lookup_insert_ne.
  - apply (Hnew e' now'). now right.
  - intros Hkey. symmetry in Hkey. apply key_eq_iff in Hkey.
    apply Hfresh. apply in_map_iff. exists (e', now'). split; assumption.
Qed.

Lemma X2_first_batch_no_delta_witness :
  (forall e now, In (e, now) firstBatch ->
     getEnrichmentData ∅ (entityType e) (entityId e) (source e) = None)
  /\ List.NoDup (map (fun p => tripleOf (fst p)) firstBatch)
  /\ fst (processBatchEnrichment ∅ firstBatch) = [].
Proof.
  assert (forall e now, In (e, now) firstBatch ->
            getEnrichmentData ∅ (entityType e) (entityId e) (source e)
            = None) as Hnew by (intros e now _; apply lookup_empty).
  assert (List.NoDup (map (fun p => tripleOf (fst p)) firstBatch)) as Hnodup.
  { repeat constructor; cbn; intuition discriminate. }
  split; [exact Hnew |]. split; [exact Hnodup |].
  exact (X2_first_batch_no_delta ∅ firstBatch Hnew Hnodup).
Defined.

(** X3: when the new snapshot carries, on every trackable field, the value
    the stored snapshot has (a well-formed value), the result is [null]:
    an identical re-send, or a change confined to fields that are not
    tracked, is no delta. *)
Theorem X3_untracked_change_no_delta
    (enrichmentStore : gmap string EnrichmentData)
    (enrichment existing : EnrichmentData) (now : string) :
  getEnrichmentData enrichmentStore (entityType enrichment)
    (entityId enrichment) (source enrichment) = Some existing ->
  (forall f, In f trackableFields ->
     get (data enrichment) f = get (data existing) f
     /\ wellFormed (get (data existing) f) = true) ->
  fst (storeEnrichmentData enrichmentStore enrichment now) = None.
Proof.
  intros Hlook Hsame.
  assert (detectChanges (data existing) (data enrichment) = []) as Hnil.
  { apply detectChanges_nil_iff. intros f Hf.
    destruct (Hsame f Hf) as [-> Hwf]. now apply deepEqual_refl. }
  unfold storeEnrichmentData. unfold getEnrichmentData in Hlook.
  rewrite Hlook, Hnil. reflexivity.
Qed.

Lemma X3_untracked_change_no_delta_witness :
  getEnrichmentData (snd (storeEnrichmentData ∅ tech500 "t1"))
    (entityType tech500Tagged) (entityId tech500Tagged)
    (source tech500Tagged) = Some tech500
  /\ get (data tech500Tagged) "hubspotId" <> get (data tech500) "hubspotId"
  /\ fst (storeEnrichmentData (snd (storeEnrichmentData ∅ tech500 "t1"))
           tech500Tagged "t3") = None.
Proof.
  assert (getEnrichmentData (snd (storeEnrichmentData ∅ tech500 "t1"))
            (entityType tech500Tagged) (entityId tech500Tagged)
            (source tech500Tagged) = Some tech500) as Hlook
    by (vm_compute; reflexivity).
  split; [exact Hlook |]. split; [vm_compute; discriminate |].
  apply (X3_untracked_change_no_delta _ tech500Tagged tech500 "t3" Hlook).
  intros f Hf. cbn [trackableFields In] in Hf.
  repeat (destruct Hf as [<- | Hf]; [vm_compute; split; reflexivity |]).
  destruct Hf.
Defined.

Lemma every_from_iff {A : Type} (f : A -> nat -> bool) (l : list A)
    (k : nat) :
  every_from f l k = true
  <-> forall i x, nth_error l i = Some x -> f x (k + i)%nat = true.
Proof.
  split; [| apply every_from_true].
  revert k. induction l as [| y l IH]; intros k H i x Hi.
  - destruct i; discriminate Hi.
  - cbn [every_from] in H. apply andb_true_iff in H as [Hy Hrest].
    destruct i as [| i].
    + injection Hi as <-. now rewrite Nat.add_0_r.
    + rewrite Nat.add_succ_r. exact (IH (S k) Hrest i x Hi).
Qed.

(** X4: two arrays are deep-equal exactly when they have the same length
    and are deep-equal element by element, in order. *)
Theorem X4_arrays_elementwise (la lb : list JsValue) :
  deepEqual (JArr la) (JArr lb) = true
  <-> length la = length lb
      /\ forall i, (i < length la)%nat ->
           deepEqual (nth i la JUndefined) (nth i lb JUndefined) = true.
Proof.
  cbn [deepEqual strictEq typeof JsType_eqb negb].
  destruct (length la =? length lb)%nat eqn:Elen; cbn [negb].
  - apply Nat.eqb_eq in Elen. unfold Array_every. rewrite every_from_iff.
    split.
    + intros H. split; [exact Elen |]. intros i Hi.
      apply (H i). cbn [Nat.add]. now apply nth_error_nth'.
    + intros [_ H] i x Hi. cbn [Nat.add].
      rewrite <- (nth_error_nth _ _ JUndefined Hi). apply H.
      apply nth_error_Some. congruence.
  - apply Nat.eqb_neq in Elen. split; [discriminate |]. intros [H _].
    contradiction.
Qed.

Lemma deepEqual_scalar (a b : JsValue) :
  scalar a = true \/ scalar b = true -> deepEqual a b = strictEq a b.
Proof.
  intros [H | H]; destruct a, b; try discriminate H; cbn;
    try reflexivity; match goal with |- (if ?c then _ else _) = _ =>
                                       destruct c; reflexivity end.
Qed.

(** X5: on a trackable field whose old or new value is a boolean, a number
    or a string, a change is reported exactly when the two values are not
    [===]: no coercion between types, and no change goes unseen. *)
Theorem X5_scalar_change_reported
    (oldData newData : gmap string JsValue) (f : string) :
  In f trackableFields ->
  scalar (get oldData f) = true \/ scalar (get newData f) = true ->
  ((exists c, In c (detectChanges oldData newData) /\ field c = f)
   <-> strictEq (get oldData f) (get newData f) = false).
Proof.
  intros Hf Hscalar. rewrite detectChanges_field.
  rewrite (deepEqual_scalar _ _ Hscalar). tauto.
Qed.

Lemma X5_scalar_change_reported_witness :
  In "employeeCount" trackableFields
  /\ (scalar (get (data tech500) "employeeCount") = true
      \/ scalar (get (data tech600) "employeeCount") = true)
  /\ exists c, In c (detectChanges (data tech500) (data tech600))
               /\ field c = "employeeCount".
Proof.
  assert (In "employeeCount" trackableFields) as Hf by (left; reflexivity).
  assert (scalar (get (data tech500) "employeeCount") = true
          \/ scalar (get (data tech600) "employeeCount") = true) as Hs
    by (left; reflexivity).
  split; [exact Hf |]. split; [exact Hs |].
  apply (X5_scalar_change_reported _ _ _ Hf Hs). reflexivity.
Defined.

(** X6: on a ledger filled by [storeEnrichmentData], the snapshots listed
    for an entity are exactly the stored snapshots of that entity, at most
    two, Apollo's before ZoomInfo's. *)
Theorem X6_all_enrichment_for_entity
    (enrichmentStore : gmap string EnrichmentData)
    (t : EntityType) (i : string) :
  keyed enrichmentStore ->
  (forall d,
     In d (getAllEnrichmentForEntity enrichmentStore t i)
     <-> (exists key, enrichmentStore !! key = Some d)
         /\ entityType d = t /\ entityId d = i)
  /\ map source (getAllEnrichmentForEntity enrichmentStore t i)
     = List.filter (hasSnapshot enrichmentStore t i) [Apollo; ZoomInfo]
  /\ (length (getAllEnrichmentForEntity enrichmentStore t i) <= 2)%nat.
Proof.
  intros Hk. rewrite getAllEnrichmentForEntity_eq.
  pose proof (fun s d => keyed_source enrichmentStore t i s d Hk) as Hsrc.
  unfold hasSnapshot. cbn [List.filter].
  split; [| split].
  - intros d. rewrite in_app_iff. split.
    + intros [Hin | Hin];
        [ destruct (getEnrichmentData enrichmentStore t i Apollo) as [x |] eqn:E
        | destruct (getEnrichmentData enrichmentStore t i ZoomInfo)
            as [x |] eqn:E ];
        cbn in Hin; try contradiction;
        destruct Hin as [<- | []];
        pose proof E as Hkey; apply Hk in Hkey;
        apply getEnrichmentKey_inj in Hkey as (Ht & Hi & _);
        (split; [eexists; exact E | split; congruence]).
    + intros [[key Hkey] [Ht Hi]]. pose proof (Hk _ _ Hkey) as ->.
      rewrite Ht, Hi in Hkey. fold (getEnrichmentData enrichmentStore t i
                                      (source d)) in Hkey.
      destruct (source d); rewrite Hkey; cbn; auto.
  - destruct (getEnrichmentData enrichmentStore t i Apollo) as [x |] eqn:EA;
      destruct (getEnrichmentData enrichmentStore t i ZoomInfo)
        as [y |] eqn:EZ; cbn;
      rewrite ?(Hsrc _ _ EA), ?(Hsrc _ _ EZ); reflexivity.
  - destruct (getEnrichmentData enrichmentStore t i Apollo);
      destruct (getEnrichmentData enrichmentStore t i ZoomInfo); cbn; lia.
Qed.

Lemma X6_all_enrichment_for_entity_witness :
  keyed sampleLedger
  /\ map source (getAllEnrichmentForEntity sampleLedger Company "company-1")
     = [Apollo; ZoomInfo].
Proof.
  assert (keyed sampleLedger) as Hk
    by (unfold sampleLedger; do 2 apply keyed_store; exact keyed_empty).
  split; [exact Hk |].
  destruct (X6_all_enrichment_for_entity sampleLedger Company "company-1" Hk)
    as (_ & -> & _).
  vm_compute. reflexivity.
Defined.

(** X7: with a snapshot from one source only, the merge depends on which
    source has priority.  When the priority source has none, the merge is
    the other source's attribute bag, [null] and empty strings included,
    without its key [__proto__]; when the other source has none, the merge
    is the priority source's bag without its [undefined], [null] and
    empty-string attributes and without its key [__proto__]. *)
Theorem X7_merge_single_source
    (enrichmentStore : gmap string EnrichmentData)
    (t : EntityType) (i : string) (prioritySource : Source) :
  keyed enrichmentStore ->
  (getEnrichmentData enrichmentStore t i prioritySource = None ->
   mergeEnrichmentData enrichmentStore t i prioritySource
   = delete "__proto__"
       (storedData enrichmentStore t i (secondaryOf prioritySource)))
  /\ (getEnrichmentData enrichmentStore t i (secondaryOf prioritySource)
      = None ->
      forall k,
        mergeEnrichmentData enrichmentStore t i prioritySource !! k
        = match storedData enrichmentStore t i prioritySource !! k with
          | Some v =>
              if populated v && negb (String.eqb k "__proto__")
              then Some v
              else None
          | None => None
          end).
Proof.
  intros Hk. split.
  - intros Hnone. apply map_eq. intros k.
    rewrite mergeEnrichmentData_lookup by exact Hk. cbv zeta.
    assert (storedData enrichmentStore t i prioritySource = ∅) as ->
      by (unfold storedData; now rewrite Hnone).
    rewrite lookup_empty.
    destruct (String.eqb k "__proto__") eqn:E.
    + apply String.eqb_eq in E. subst k. now rewrite lookup_delete_eq.
    + apply String.eqb_neq in E. rewrite lookup_delete_ne by congruence.
      reflexivity.
  - intros Hnone k.
    rewrite mergeEnrichmentData_lookup by exact Hk. cbv zeta.
    assert (storedData enrichmentStore t i (secondaryOf prioritySource) = ∅)
      as -> by (unfold storedData; now rewrite Hnone).
    rewrite !lookup_empty.
    cbn [prototypeFrom protoIsData].
    destruct (String.eqb k "__proto__");
      (destruct (storedData enrichmentStore t i prioritySource !! k)
         as [v |]; [destruct (populated v) |]); reflexivity.
Qed.

Lemma X7_merge_single_source_witness :
  keyed sparseLedger
  /\ getEnrichmentData sparseLedger Company "company-9" ZoomInfo = None
  /\ mergeEnrichmentData sparseLedger Company "company-9" ZoomInfo
     = data sparseApollo
  /\ mergeEnrichmentData sparseLedger Company "company-9" Apollo
     = {[ "employeeCount" := JNum 10 ]}.
Proof.
  assert (keyed sparseLedger) as Hk
    by (unfold sparseLedger; apply keyed_store; exact keyed_empty).
  assert (getEnrichmentData sparseLedger Company "company-9" ZoomInfo = None)
    as Hnone by (vm_compute; reflexivity).
  split; [exact Hk |]. split; [exact Hnone |]. split.
  - rewrite (proj1 (X7_merge_single_source sparseLedger Company "company-9"
                      ZoomInfo Hk) Hnone).
    vm_compute. reflexivity.
  - vm_compute. reflexivity.
Defined.

End EnrichmentSyncExtras.

(* ===================================================================== *)
(** * Facts about rounding *)
(* ===================================================================== *)

Module RoundingFacts.

Lemma Math_round_integer (x : Q) : exists z : Z, Math_round x = inject_Z z.
Proof. eexists. reflexivity. Qed.

Lemma Math_round_range (x : Q) :
  (0 <= x)%Q -> (x <= 100)%Q ->
  (0 <= Math_round x)%Q /\ (Math_round x <= 100)%Q.
Proof.
  intros H0 H100. unfold Math_round. split.
  - change 0%Q with (inject_Z 0). rewrite <- Zle_Qle.
    change 0%Z with (Qfloor 0). apply Qfloor_resp_le. lra.
  - change 100%Q with (inject_Z 100). rewrite <- Zle_Qle.
    change 100%Z with (Qfloor (100 + (1 # 2))). apply Qfloor_resp_le. lra.
Qed.

End RoundingFacts.

(* ===================================================================== *)
(** * Further properties of the rule evaluator *)
(* ===================================================================== *)

Module IcpPersonaScoringExtras.
Import IcpPersonaScoring NumberFacts RoundingFacts IcpPersonaScoringProofs.

(** ** Rounded percentages *)

Lemma weightedScore_range (m t : Q) :
  (0 <= m)%Q -> (m <= t)%Q ->
  (0 <= weightedScore m t)%Q /\ (weightedScore m t <= 100)%Q.
Proof.
  intros Hm Hmt. unfold weightedScore.
  destruct (Qlt_bool 0 t) eqn:E; [| lra].
  apply Qlt_bool_iff in E. apply Math_round_range.
  - apply Qmult_le_0_compat; [| lra].
    apply Qle_shift_div_l; [exact E | lra].
  - assert (m / t <= 1)%Q as H1 by (apply Qle_shift_div_r; [exact E | lra]).
    lra.
Qed.

Lemma weightedScore_integer (m t : Q) :
  exists z : Z, weightedScore m t = inject_Z z.
Proof.
  unfold weightedScore. destruct (Qlt_bool 0 t); [apply Math_round_integer |].
  exists 0%Z. reflexivity.
Qed.

Lemma sumQ_filter_range {A : Type} (w : A -> Q) (p : A -> bool)
    (l : list A) :
  (forall x, List.In x l -> (0 <= w x)%Q) ->
  (0 <= sumQ (map w (List.filter p l)))%Q
  /\ (sumQ (map w (List.filter p l)) <= sumQ (map w l))%Q.
Proof.
  induction l as [| x l IH]; intros Hw; [cbn; lra |].
  destruct IH as [IH0 IH1]; [intros y Hy; apply Hw; now right |].
  assert (0 <= w x)%Q as Hx by (apply Hw; now left).
  cbn [List.filter map]. destruct (p x); cbn [map]; rewrite ?sumQ_cons; lra.
Qed.

Lemma filter_partition_length {A : Type} (p : A -> bool) (l : list A) :
  (length (List.filter p l) + length (List.filter (fun x => negb (p x)) l)
   = length l)%nat.
Proof.
  induction l as [| x l IH]; [reflexivity |].
  cbn [List.filter]. destruct (p x); cbn [negb length]; lia.
Qed.


(** ** The ICP result *)

(** X8: every criterion of the profile lands in exactly one of
    [matchedCriteria] and [unmatchedCriteria], each list in declaration
    order, and the [matched] flag of an entry says which list it is in. *)
Theorem X8_icp_criteria_partition (companyData : gmap string JsValue)
    (profile : ICPProfile) :
  let r := calculateICPMatch companyData profile in
  matchedCriteria r
  = map (resultOf companyData)
      (List.filter (matches companyData) (criteria profile))
  /\ unmatchedCriteria r
     = map (resultOf companyData)
         (List.filter (fun c => negb (matches companyData c))
            (criteria profile))
  /\ (length (matchedCriteria r) + length (unmatchedCriteria r)
      = length (criteria profile))%nat
  /\ (forall c, List.In c (matchedCriteria r) -> crit_matched c = true)
  /\ (forall c, List.In c (unmatchedCriteria r) -> crit_matched c = false).
Proof.
  intros r. destruct (icpLoop_spec companyData profile) as (L1 & L2 & _).
  cbv zeta in L1, L2. subst r. cbn [calculateICPMatch matchedCriteria
                                     unmatchedCriteria].
  rewrite L1, L2. split; [reflexivity |]. split; [reflexivity |].
  split; [| split].
  - rewrite !length_map. apply filter_partition_length.
  - intros c Hc. apply in_map_iff in Hc as (x & <- & Hx).
    apply filter_In in Hx as [_ Hx]. exact Hx.
  - intros c Hc. apply in_map_iff in Hc as (x & <- & Hx).
    apply filter_In in Hx as [_ Hx]. cbn [resultOf crit_matched].
    now apply negb_true_iff in Hx.
Qed.

(** X9: when no criterion has a weight below 0, the ICP match score is an
    integer between 0 and 100. *)
Theorem X9_icp_score_range (companyData : gmap string JsValue)
    (profile : ICPProfile) :
  icpWeightsNonneg profile ->
  let score := matchScore (calculateICPMatch companyData profile) in
  (0 <= score)%Q /\ (score <= 100)%Q /\ exists z : Z, score = inject_Z z.
Proof.
  intros Hw score.
  destruct (icpLoop_spec companyData profile) as (_ & _ & L3 & L4).
  cbv zeta in L3, L4.
  assert (score = weightedScore (matchedWeightOf companyData profile)
                    (totalWeightOf profile)) as ->
    by (subst score; cbn [calculateICPMatch matchScore];
        apply weightedScore_comp; assumption).
  destruct (sumQ_filter_range weight (matches companyData) (criteria profile)
              Hw) as [H0 H1].
  destruct (weightedScore_range _ _ H0 H1) as [R0 R1].
  split; [exact R0 |]. split; [exact R1 |]. apply weightedScore_integer.
Qed.

Lemma defaultICPProfile_nonneg : icpWeightsNonneg defaultICPProfile.
Proof.
  intros c Hc. cbn [defaultICPProfile criteria List.In] in Hc.
  repeat (destruct Hc as [<- | Hc]; [cbn; lra |]). destruct Hc.
Qed.

Lemma X9_icp_score_range_witness :
  icpWeightsNonneg defaultICPProfile
  /\ (0 <= matchScore (calculateICPMatch partialCompany defaultICPProfile))%Q
  /\ (matchScore (calculateICPMatch partialCompany defaultICPProfile)
      <= 100)%Q.
Proof.
  split; [exact defaultICPProfile_nonneg |].
  destruct (X9_icp_score_range partialCompany defaultICPProfile
              defaultICPProfile_nonneg) as (H0 & H1 & _).
  split; assumption.
Defined.



(** ** The ICP operators on strings *)

Lemma existsb_ext_in {A : Type} (f g : A -> bool) (l : list A) :
  (forall x, List.In x l -> f x = g x) -> existsb f l = existsb g l.
Proof.
  induction l as [| x l IH]; intros H; [reflexivity |].
  cbn [existsb]. rewrite (H x) by now left.
  rewrite IH; [reflexivity |]. intros y Hy. apply H. now right.
Qed.

(** X11: no ICP operator matches [undefined] or [null]; [contains] and
    [in] see the actual string through its lower-cased form only; [equals]
    matches a string exactly when the configured value is that very
    string. *)
Theorem X11_icp_string_operators (criterion : ICPCriterionConfig)
    (s s' : string) :
  evaluateCriterion JUndefined criterion = false
  /\ evaluateCriterion JNull criterion = false
  /\ (operator criterion = Contains \/ operator criterion = In ->
      toLowerCase s' = toLowerCase s ->
      evaluateCriterion (JStr s') criterion
      = evaluateCriterion (JStr s) criterion)
  /\ (operator criterion = Equals ->
      (evaluateCriterion (JStr s) criterion = true
       <-> value criterion = JStr s)).
Proof.
  split; [reflexivity |]. split; [reflexivity |]. split.
  - intros Hop Hlow. unfold evaluateCriterion. cbn [strictEq orb].
    destruct Hop as [-> | ->].
    + destruct (value criterion); try reflexivity. now rewrite Hlow.
    + destruct (value criterion) as [| | | | | vs |]; try reflexivity.
      apply existsb_ext_in. intros v _.
      destruct v; try reflexivity. now rewrite Hlow.
  - intros Hop. unfold evaluateCriterion. rewrite Hop. cbn [strictEq orb].
    destruct (value criterion) as [| | | | v | |]; cbn [strictEq];
      try (split; [discriminate | intros H; discriminate H]).
    rewrite String.eqb_eq. split; [intros -> | intros H; injection H as ->];
      reflexivity.
Qed.

Lemma X11_icp_string_operators_witness :
  (operator inTech = Contains \/ operator inTech = In)
  /\ toLowerCase "TECHNOLOGY" = toLowerCase "technology"
  /\ evaluateCriterion (JStr "TECHNOLOGY") inTech
     = evaluateCriterion (JStr "technology") inTech
  /\ evaluateCriterion (JStr "technology") inTech = true.
Proof.
  assert (operator inTech = Contains \/ operator inTech = In) as Hop
    by (right; reflexivity).
  assert (toLowerCase "TECHNOLOGY" = toLowerCase "technology") as Hlow
    by reflexivity.
  split; [exact Hop |]. split; [exact Hlow |]. split; [| reflexivity].
  destruct (X11_icp_string_operators inTech "technology" "TECHNOLOGY")
    as (_ & _ & Hcase & _).
  exact (Hcase Hop Hlow).
Defined.

(** ** Tiers *)

(** X12: a higher score never gives a lower tier. *)
Theorem X12_tier_monotone (s1 s2 : Q) :
  (s1 <= s2)%Q ->
  (tierRank (determineTier s1) <= tierRank (determineTier s2))%nat.
Proof.
  intros Hle. unfold determineTier.
  destruct (Qle_bool 80 s1) eqn:A1;
    [apply Qle_bool_iff in A1 | apply Qle_bool_false_iff in A1];
    destruct (Qle_bool 80 s2) eqn:A2;
    try apply Qle_bool_iff in A2; try apply Qle_bool_false_iff in A2;
    destruct (Qle_bool 60 s1) eqn:B1;
    try apply Qle_bool_iff in B1; try apply Qle_bool_false_iff in B1;
    destruct (Qle_bool 60 s2) eqn:B2;
    try apply Qle_bool_iff in B2; try apply Qle_bool_false_iff in B2;
    destruct (Qle_bool 40 s1) eqn:C1;
    try apply Qle_bool_iff in C1; try apply Qle_bool_false_iff in C1;
    destruct (Qle_bool 40 s2) eqn:C2;
    try apply Qle_bool_iff in C2; try apply Qle_bool_false_iff in C2;
    cbn [tierRank]; try lia; exfalso; lra.
Qed.

Lemma X12_tier_monotone_witness :
  (65 <= 80)%Q
  /\ (tierRank (determineTier 65) <= tierRank (determineTier 80))%nat.
Proof.
  assert (65 <= 80)%Q as H by (vm_compute; discriminate).
  split; [exact H |]. exact (X12_tier_monotone 65 80 H).
Defined.

(** ** Persona profiles *)

Lemma personaStep_spec (contactData : gmap string JsValue)
    (st : PersonaLoop) (a : PersonaAttributeConfig) :
  ploop_attributes (personaStep contactData st a)
  = ploop_attributes st ++ [personaResultOf contactData a]
  /\ ploop_totalWeight (personaStep contactData st a)
     = (ploop_totalWeight st + attr_weight a)%Q
  /\ ploop_matchedWeight (personaStep contactData st a)
     = if personaMatches contactData a
       then (ploop_matchedWeight st + attr_weight a)%Q
       else ploop_matchedWeight st.
Proof. repeat split. Qed.

Lemma personaLoop_fold (contactData : gmap string JsValue)
    (attrs : list PersonaAttributeConfig) (st : PersonaLoop) :
  let st' := fold_left (personaStep contactData) attrs st in
  ploop_attributes st'
  = ploop_attributes st ++ map (personaResultOf contactData) attrs
  /\ (ploop_totalWeight st'
      == ploop_totalWeight st + sumQ (map attr_weight attrs))%Q
  /\ (ploop_matchedWeight st'
      == ploop_matchedWeight st
         + sumQ (map attr_weight
                   (List.filter (personaMatches contactData) attrs)))%Q.
Proof.
  revert st. induction attrs as [| a attrs IH]; intros st; cbn [fold_left].
  - cbv zeta. cbn [List.filter map sumQ fold_right]. rewrite app_nil_r.
    split; [reflexivity |]. split; ring.
  - destruct (IH (personaStep contactData st a)) as (H1 & H2 & H3).
    destruct (personaStep_spec contactData st a) as (S1 & S2 & S3).
    cbv zeta in *. rewrite H1, H2, H3, S1, S2, S3.
    cbn [List.filter map]. rewrite <- app_assoc. cbn [app].
    destruct (personaMatches contactData a); cbn [map];
      rewrite ?sumQ_cons; (split; [reflexivity |]); split; ring.
Qed.

Lemma personaScore_range (contactData : gmap string JsValue)
    (profile : PersonaProfile) :
  personaWeightsNonneg profile ->
  (0 <= personaScoreOf contactData profile)%Q
  /\ (personaScoreOf contactData profile <= 100)%Q.
Proof.
  intros Hw. unfold personaScoreOf, evaluatePersonaProfile. cbn [fst].
  destruct (personaLoop_fold contactData (attributes profile)
              (mkPersonaLoop [] 0 0)) as (_ & H2 & H3).
  cbv zeta in H2, H3.
  cbn [ploop_totalWeight ploop_matchedWeight] in *.
  destruct (sumQ_filter_range attr_weight (personaMatches contactData)
              (attributes profile) Hw) as [S0 S1].
  rewrite (weightedScore_comp _
             (sumQ (map attr_weight
                      (List.filter (personaMatches contactData)
                         (attributes profile))))
             _ (sumQ (map attr_weight (attributes profile))))
    by (first [rewrite H3 | rewrite H2]; ring).
  exact (weightedScore_range _ _ S0 S1).
Qed.

(** X13: evaluating a persona profile gives one result attribute per
    configured attribute, in declaration order, each with the name, the
    weight and the match flag of its attribute and with the contact's
    value of the field or the empty string; when no weight is below 0 the
    score is an integer between 0 and 100. *)
Theorem X13_persona_profile_result (contactData : gmap string JsValue)
    (profile : PersonaProfile) :
  snd (evaluatePersonaProfile contactData profile)
  = map (personaResultOf contactData) (attributes profile)
  /\ (personaWeightsNonneg profile ->
      (0 <= personaScoreOf contactData profile)%Q
      /\ (personaScoreOf contactData profile <= 100)%Q
      /\ exists z : Z, personaScoreOf contactData profile = inject_Z z).
Proof.
  unfold personaScoreOf, evaluatePersonaProfile. cbn [fst snd].
  destruct (personaLoop_fold contactData (attributes profile)
              (mkPersonaLoop [] 0 0)) as (H1 & H2 & H3).
  cbv zeta in H1, H2, H3.
  cbn [ploop_attributes ploop_totalWeight ploop_matchedWeight app] in *.
  split; [exact H1 |]. intros Hw.
  destruct (sumQ_filter_range attr_weight (personaMatches contactData)
              (attributes profile) Hw) as [S0 S1].
  rewrite (weightedScore_comp _
             (sumQ (map attr_weight
                      (List.filter (personaMatches contactData)
                         (attributes profile))))
             _ (sumQ (map attr_weight (attributes profile))))
    by (first [rewrite H3 | rewrite H2]; ring).
  destruct (weightedScore_range _ _ S0 S1) as [R0 R1].
  split; [exact R0 |]. split; [exact R1 |]. apply weightedScore_integer.
Qed.

Lemma defaultPersonaProfiles_nonneg :
  forall p, List.In p defaultPersonaProfiles -> personaWeightsNonneg p.
Proof.
  intros p Hp. cbn [defaultPersonaProfiles List.In] in Hp.
  repeat (destruct Hp as [<- | Hp];
          [intros a Ha; cbn [attributes List.In] in Ha;
           repeat (destruct Ha as [<- | Ha]; [cbn; lra |]); destruct Ha |]).
  destruct Hp.
Qed.

Lemma X13_persona_profile_result_witness :
  (forall p, List.In p defaultPersonaProfiles -> personaWeightsNonneg p)
  /\ forall p, List.In p defaultPersonaProfiles ->
       (0 <= personaScoreOf ceoContact p)%Q
       /\ (personaScoreOf ceoContact p <= 100)%Q.
Proof.
  split; [exact defaultPersonaProfiles_nonneg |].
  intros p Hp.
  destruct (X13_persona_profile_result ceoContact p) as [_ Hrange].
  destruct (Hrange (defaultPersonaProfiles_nonneg p Hp)) as (H0 & H1 & _).
  split; assumption.
Defined.

Lemma bestStep_range (contactData : gmap string JsValue)
    (P : Q -> Prop) (l : list PersonaProfile) (acc : option BestMatch) :
  (forall p, List.In p l -> P (personaScoreOf contactData p)) ->
  (forall b, acc = Some b -> P (best_score b)) ->
  forall b, fold_left (bestStep contactData) l acc = Some b ->
            P (best_score b).
Proof.
  revert acc. induction l as [| p l IH]; intros acc Hl Hacc b Hb.
  - apply Hacc. exact Hb.
  - cbn [fold_left] in Hb. apply (IH (bestStep contactData acc p)).
    + intros q Hq. apply Hl. now right.
    + intros b' Hb'. unfold bestStep in Hb'.
      pose proof (Hl p (or_introl eq_refl)) as Hp.
      unfold personaScoreOf in Hp.
      destruct (evaluatePersonaProfile contactData p) as [sc at'].
      cbn [fst] in Hp.
      destruct acc as [b0 |].
      * destruct (Qlt_bool (best_score b0) sc).
        -- injection Hb' as <-. exact Hp.
        -- injection Hb' as <-. now apply Hacc.
      * injection Hb' as <-. exact Hp.
    + exact Hb.
Qed.

(** X14: when no profile has an attribute weight below 0, the match score
    of the persona classification lies between 0 and 100, with any list of
    profiles. *)
Theorem X14_persona_score_range (contactData : gmap string JsValue)
    (profiles : list PersonaProfile) :
  (forall p, List.In p profiles -> personaWeightsNonneg p) ->
  let score :=
    persona_matchScore (calculatePersonaScore contactData profiles) in
  (0 <= score)%Q /\ (score <= 100)%Q.
Proof.
  intros Hw score. subst score. unfold calculatePersonaScore.
  destruct (fold_left (bestStep contactData) profiles None) as [b |] eqn:E;
    cbn [persona_matchScore]; [| lra].
  apply (bestStep_range contactData
           (fun q => (0 <= q)%Q /\ (q <= 100)%Q) profiles None);
    [| discriminate | exact E].
  intros p Hp.
  destruct (personaScore_range contactData p (Hw p Hp)) as (H0 & H1).
  split; assumption.
Qed.

Lemma X14_persona_score_range_witness :
  (forall p, List.In p defaultPersonaProfiles -> personaWeightsNonneg p)
  /\ (0 <= persona_matchScore
             (calculatePersonaScore engineerContact defaultPersonaProfiles))%Q
  /\ (persona_matchScore
        (calculatePersonaScore engineerContact defaultPersonaProfiles)
      <= 100)%Q.
Proof.
  split; [exact defaultPersonaProfiles_nonneg |].
  exact (X14_persona_score_range engineerContact defaultPersonaProfiles
           defaultPersonaProfiles_nonneg).
Defined.


(** ** The shipped persona profiles *)

Lemma evaluatePersonaAttribute_nonstring (value : JsValue)
    (attr : PersonaAttributeConfig) :
  (forall s, value <> JStr s) -> evaluatePersonaAttribute value attr = false.
Proof.
  intros H. destruct value; try reflexivity. now destruct (H s).
Qed.

(** X29: under the shipped persona profiles, which [getPersonaProfiles]
    returns, a contact whose title, department and seniority are not
    strings matches no attribute of any profile; it is classified
    [Decision Maker], the first profile, with score 0, and not
    [Unknown]. *)
Theorem X29_default_personas_unmatched (contactData : gmap string JsValue) :
  (forall f s,
     List.In f ["title"; "department"; "seniority"] ->
     get contactData f <> JStr s) ->
  personaType (calculatePersonaScore contactData getPersonaProfiles)
  = "Decision Maker"
  /\ persona_matchScore (calculatePersonaScore contactData getPersonaProfiles)
     = 0%Q
  /\ map pa_matched
       (persona_attributes
          (calculatePersonaScore contactData getPersonaProfiles))
     = [false; false; false].
Proof.
  intros H.
  assert (forall attr,
            List.In (attr_field attr) ["title"; "department"; "seniority"] ->
            evaluatePersonaAttribute (get contactData (attr_field attr)) attr
            = false) as Hno.
  { intros attr Hin. apply evaluatePersonaAttribute_nonstring.
    intros s. now apply H. }
  unfold calculatePersonaScore, getPersonaProfiles, defaultPersonaProfiles.
  cbn [fold_left]. unfold bestStep, evaluatePersonaProfile.
  cbn [attributes fold_left]. unfold personaStep.
  rewrite !Hno by (cbn; tauto).
  repeat split.
Qed.

Lemma X29_default_personas_unmatched_witness :
  personaType (calculatePersonaScore ∅ getPersonaProfiles) = "Decision Maker".
Proof.
  refine (proj1 (X29_default_personas_unmatched ∅ _)).
  intros f s _. unfold get. rewrite lookup_empty. discriminate.
Defined.

End IcpPersonaScoringExtras.

(* ===================================================================== *)
(** * Further properties of the score calculator *)
(* ===================================================================== *)

Module ScoringEngineExtras.
Import ScoringEngine NumberFacts RoundingFacts ScoringEngineProofs.

(** ** The signal ledger *)

Lemma addIntentSignal_get (st : Stores) (signal : IntentSignal)
    (id : string) :
  getSignalsForCompany (addIntentSignal st signal) id
  = getSignalsForCompany st id ++ ofCompany id [signal].
Proof.
  unfold getSignalsForCompany, addIntentSignal, ofCompany.
  cbn [signalStore List.filter]. rewrite lookup_insert.
  destruct (String.eqb (companyId signal) id) eqn:E.
  - apply String.eqb_eq in E. subst id. now rewrite decide_True.
  - apply String.eqb_neq in E. rewrite decide_False by exact E.
    now rewrite app_nil_r.
Qed.

(** X15: adding a batch of signals appends, to each company's list, the
    signals of the batch that are that company's, in batch order; nothing
    that was there is removed or moved, and the score cache is not
    touched. *)
Theorem X15_signals_append_in_order (st : Stores)
    (signals : list IntentSignal) (id : string) :
  getSignalsForCompany (addIntentSignals st signals) id
  = getSignalsForCompany st id ++ ofCompany id signals
  /\ scoreCache (addIntentSignals st signals) = scoreCache st.
Proof.
  unfold addIntentSignals. revert st.
  induction signals as [| s signals IH]; intros st; cbn [fold_left].
  - unfold ofCompany. cbn [List.filter]. now rewrite app_nil_r.
  - destruct (IH (addIntentSignal st s)) as [-> ->].
    rewrite addIntentSignal_get. split; [| reflexivity].
    rewrite <- app_assoc. f_equal.
    unfold ofCompany. cbn [List.filter].
    destruct (String.eqb (companyId s) id); reflexivity.
Qed.

(** ** Decay *)

Lemma msPerDay_pos : (0 < msPerDay)%Q.
Proof. reflexivity. Qed.

Lemma ageDays_antitone (t1 t2 now : Z) :
  (t1 <= t2)%Z ->
  (inject_Z (now - t2) / msPerDay <= inject_Z (now - t1) / msPerDay)%Q.
Proof.
  intros H. unfold Qdiv. apply Qmult_le_compat_r.
  - rewrite <- Zle_Qle. lia.
  - apply Qinv_le_0_compat. apply Qlt_le_weak, msPerDay_pos.
Qed.

(** X16: the decay factor lies between 0 and 1, and of two signals the one
    observed later never has the smaller factor. *)
Theorem X16_decay_range_and_order (t1 t2 : Z) (decayDays : Q) (now : Z) :
  (t1 <= t2)%Z ->
  (0 <= calculateDecay t1 decayDays now)%Q
  /\ (calculateDecay t1 decayDays now <= calculateDecay t2 decayDays now)%Q
  /\ (calculateDecay t2 decayDays now <= 1)%Q.
Proof.
  intros Ht.
  pose proof (calculateDecay_range t1 decayDays now) as [L1 U1].
  pose proof (calculateDecay_range t2 decayDays now) as [L2 U2].
  split; [exact L1 |]. split; [| exact U2].
  pose proof (ageDays_antitone t1 t2 now Ht) as Hage.
  unfold calculateDecay in *.
  set (a1 := (inject_Z (now - t1) / msPerDay)%Q) in *.
  set (a2 := (inject_Z (now - t2) / msPerDay)%Q) in *.
  destruct (Qle_bool a1 0) eqn:E1.
  - apply Qle_bool_iff in E1.
    assert (Qle_bool a2 0 = true) as -> by (apply Qle_bool_iff; lra). lra.
  - apply Qle_bool_false_iff in E1.
    destruct (Qle_bool decayDays a1) eqn:D1; [exact L2 |].
    apply Qle_bool_false_iff in D1.
    destruct (Qle_bool a2 0) eqn:E2.
    + assert (0 < a1 / decayDays)%Q
        by (apply Qlt_shift_div_l; lra). lra.
    + apply Qle_bool_false_iff in E2.
      assert (Qle_bool decayDays a2 = false) as ->
        by (apply Qle_bool_false_iff; lra).
      assert (a2 / decayDays <= a1 / decayDays)%Q.
      { unfold Qdiv. apply Qmult_le_compat_r; [exact Hage |].
        apply Qinv_le_0_compat. lra. }
      lra.
Qed.

Lemma X16_decay_range_and_order_witness :
  (timestamp stale50 <= timestamp halfDecayed)%Z
  /\ (calculateDecay (timestamp stale50) 30 later31Days
      <= calculateDecay (timestamp halfDecayed) 30 later31Days)%Q
  /\ (calculateDecay (timestamp halfDecayed) 30 later31Days == 1 # 2)%Q.
Proof.
  assert (timestamp stale50 <= timestamp halfDecayed)%Z as Ht
    by (vm_compute; discriminate).
  split; [exact Ht |]. split; [| reflexivity].
  exact (proj1 (proj2 (X16_decay_range_and_order _ _ 30 later31Days Ht))).
Defined.

(** ** The score of one source *)

Lemma calculateSourceScore_le_100 (signals : list IntentSignal)
    (decayDays : Q) (now : Z) :
  (calculateSourceScore signals decayDays now <= 100)%Q.
Proof.
  unfold calculateSourceScore.
  destruct (length signals =? 0)%nat; [lra |].
  destruct (fold_left (sourceStep decayDays now) signals (0%Q, 0%Q))
    as [ws tw].
  destruct (Qeq_bool tw 0); [lra |]. apply Q.le_min_l.
Qed.

Lemma calculateDecay_fresh (signalDate : Z) (decayDays : Q) (now : Z) :
  (now <= signalDate)%Z -> calculateDecay signalDate decayDays now = 1%Q.
Proof.
  intros H. unfold calculateDecay.
  assert (Qle_bool (inject_Z (now - signalDate) / msPerDay) 0 = true) as ->;
    [| reflexivity].
  apply Qle_bool_iff. apply Qle_shift_div_r; [apply msPerDay_pos |].
  rewrite Qmult_0_l. change 0%Q with (inject_Z 0). rewrite <- Zle_Qle. lia.
Qed.

(** X17: the score of a source never exceeds 100; it is at least 0 when no
    signal of the list has a strength below 0; and a lone signal that is
    not older than the clock reading scores its own strength, capped at
    100. *)
Theorem X17_source_score_bounds (signals : list IntentSignal)
    (decayDays : Q) (now : Z) :
  (calculateSourceScore signals decayDays now <= 100)%Q
  /\ ((forall s, List.In s signals -> (0 <= signalStrength s)%Q) ->
      (0 <= calculateSourceScore signals decayDays now)%Q)
  /\ (forall s,
        signals = [s] -> (now <= timestamp s)%Z ->
        (calculateSourceScore signals decayDays now
         == Qmin 100 (signalStrength s))%Q).
Proof.
  split; [apply calculateSourceScore_le_100 |].
  split; [apply calculateSourceScore_nonneg |].
  intros s -> Hfresh. unfold calculateSourceScore.
  cbn [length Nat.eqb fold_left sourceStep].
  rewrite (calculateDecay_fresh _ _ _ Hfresh).
  assert (Qeq_bool (0 + 1) 0 = false) as -> by reflexivity.
  apply Qmin_comp. field.
Qed.

Lemma sourceFold_decayed (decayDays : Q) (now : Z)
    (signals : list IntentSignal) (ws tw : Q) :
  (forall s, List.In s signals ->
     calculateDecay (timestamp s) decayDays now = 0%Q) ->
  (snd (fold_left (sourceStep decayDays now) signals (ws, tw)) == tw)%Q.
Proof.
  revert ws tw. induction signals as [| s signals IH]; intros ws tw Hs;
    cbn [fold_left]; [reflexivity |].
  cbn [sourceStep]. rewrite (Hs s) by now left.
  rewrite IH; [ring |]. intros s' Hs'. apply Hs. now right.
Qed.

(** X18: a list of signals that are all fully decayed (age above 0 and at
    least the decay window) scores 0 whatever the strengths, and so does
    the empty list. *)
Theorem X18_all_decayed_scores_zero (signals : list IntentSignal)
    (decayDays : Q) (now : Z) :
  (forall s, List.In s signals ->
     (0 < ageDays s now)%Q /\ (decayDays <= ageDays s now)%Q) ->
  calculateSourceScore signals decayDays now = 0%Q.
Proof.
  intros Hs. unfold calculateSourceScore.
  destruct (length signals =? 0)%nat; [reflexivity |].
  pose proof (sourceFold_decayed decayDays now signals 0 0) as Htw.
  destruct (fold_left (sourceStep decayDays now) signals (0%Q, 0%Q))
    as [ws tw].
  cbn [snd] in Htw.
  rewrite (proj2 (Qeq_bool_iff tw 0)); [reflexivity |].
  apply Htw. intros s Hin. destruct (Hs s Hin) as [Hpos Hge].
  exact (calculateDecay_zero s decayDays now Hpos Hge).
Qed.

Lemma X18_all_decayed_scores_zero_witness :
  (forall s, List.In s [stale50] ->
     (0 < ageDays s later31Days)%Q /\ (30 <= ageDays s later31Days)%Q)
  /\ calculateSourceScore [stale50] 30 later31Days = 0%Q.
Proof.
  assert (forall s, List.In s [stale50] ->
            (0 < ageDays s later31Days)%Q /\ (30 <= ageDays s later31Days)%Q)
    as Hs.
  { intros s [<- | []]. split; [reflexivity | vm_compute; discriminate]. }
  split; [exact Hs |].
  exact (X18_all_decayed_scores_zero [stale50] 30 later31Days Hs).
Defined.

(** ** The unified score *)

Lemma calculateUnifiedScore_fields (st : Stores) (companyId : string)
    (config : ScoringConfig) (now : Z) (score : UnifiedIntentScore) :
  fst (calculateUnifiedScore st companyId config now) = Some score ->
  getSignalsForCompany st companyId <> []
  /\ snd (calculateUnifiedScore st companyId config now)
     = {| signalStore := signalStore st;
          scoreCache := <[companyId := score]> (scoreCache st) |}
  /\ overallScore score
     = overallOf (getSignalsForCompany st companyId) config now
  /\ apolloScore score
     = Math_round
         (calculateSourceScore
            (List.filter (fun s => Source_eqb (source s) Apollo)
               (getSignalsForCompany st companyId))
            (decayDays config) now)
  /\ zoomInfoScore score
     = Math_round
         (calculateSourceScore
            (List.filter (fun s => Source_eqb (source s) ZoomInfo)
               (getSignalsForCompany st companyId))
            (decayDays config) now)
  /\ topTopics score = calculateTopTopics (getSignalsForCompany st companyId)
  /\ score_companyId score = companyId
  /\ signalCount score = length (getSignalsForCompany st companyId)
  /\ lastUpdated score = now
  /\ trend score
     = determineTrend (overallScore score)
         (overallScore <$> scoreCache st !! companyId)
  /\ isSpike score
     = checkForSpike (overallScore score)
         (overallScore <$> scoreCache st !! companyId)
         (spikeThresholdPercent config).
Proof.
  unfold calculateUnifiedScore, overallOf.
  destruct (getSignalsForCompany st companyId) as [| s0 rest] eqn:E;
    cbn [length Nat.eqb fst snd]; [discriminate |].
  intros H. injection H as <-. cbn. repeat split. discriminate.
Qed.

(** X19: on signals whose strength is at least 0, under weights that are
    at least 0 and sum to at most 1, the overall score and the two source
    scores of the result are integers between 0 and 100. *)
Theorem X19_scores_in_range (st : Stores) (companyId : string)
    (config : ScoringConfig) (now : Z) (score : UnifiedIntentScore) :
  signalsInRange st -> weightsInRange config ->
  (apolloWeight config + zoomInfoWeight config <= 1)%Q ->
  fst (calculateUnifiedScore st companyId config now) = Some score ->
  ((0 <= overallScore score)%Q /\ (overallScore score <= 100)%Q)
  /\ ((0 <= apolloScore score)%Q /\ (apolloScore score <= 100)%Q)
  /\ ((0 <= zoomInfoScore score)%Q /\ (zoomInfoScore score <= 100)%Q)
  /\ exists zo za zz : Z,
       overallScore score = inject_Z zo /\ apolloScore score = inject_Z za
       /\ zoomInfoScore score = inject_Z zz.
Proof.
  intros Hsig [Hwa Hwz] Hsum Hcall.
  destruct (calculateUnifiedScore_fields _ _ _ _ _ Hcall)
    as (_ & _ & -> & -> & -> & _).
  assert (forall src s,
            List.In s (List.filter (fun s => Source_eqb (source s) src)
                         (getSignalsForCompany st companyId)) ->
            (0 <= signalStrength s)%Q) as Hin.
  { intros src s Hs. apply filter_In in Hs as [Hs _].
    unfold getSignalsForCompany in Hs.
    destruct (signalStore st !! companyId) as [l |] eqn:El; [| destruct Hs].
    exact (Hsig _ _ _ El Hs). }
  pose proof (calculateSourceScore_nonneg _ (decayDays config) now
                (Hin Apollo)) as A0.
  pose proof (calculateSourceScore_nonneg _ (decayDays config) now
                (Hin ZoomInfo)) as Z0.
  pose proof (calculateSourceScore_le_100
                (List.filter (fun s => Source_eqb (source s) Apollo)
                   (getSignalsForCompany st companyId))
                (decayDays config) now) as A1.
  pose proof (calculateSourceScore_le_100
                (List.filter (fun s => Source_eqb (source s) ZoomInfo)
                   (getSignalsForCompany st companyId))
                (decayDays config) now) as Z1.
  unfold overallOf.
  set (a := calculateSourceScore _ _ _) in *.
  set (z := calculateSourceScore _ _ _) in *.
  pose proof (Qmult_le_0_compat _ _ A0 Hwa) as PA0.
  pose proof (Qmult_le_0_compat _ _ Z0 Hwz) as PZ0.
  pose proof (Qmult_le_compat_r _ _ _ A1 Hwa) as PA1.
  pose proof (Qmult_le_compat_r _ _ _ Z1 Hwz) as PZ1.
  split; [apply Math_round_range; lra |].
  split; [apply Math_round_range; lra |].
  split; [apply Math_round_range; lra |].
  do 3 eexists. repeat split.
Qed.

Lemma oneSignal_inRange : signalsInRange oneSignal.
Proof.
  apply signalsInRange_add; [apply noStores_inRange | cbn; lra].
Qed.

Lemma X19_scores_in_range_witness :
  signalsInRange oneSignal /\ weightsInRange defaultConfig
  /\ (apolloWeight defaultConfig + zoomInfoWeight defaultConfig <= 1)%Q
  /\ exists score,
       fst (calculateUnifiedScore oneSignal "c1" defaultConfig 1000)
       = Some score
       /\ (0 <= overallScore score)%Q /\ (overallScore score <= 100)%Q.
Proof.
  assert (weightsInRange defaultConfig) as Hw by (split; cbn; lra).
  assert (apolloWeight defaultConfig + zoomInfoWeight defaultConfig <= 1)%Q
    as Hsum by (vm_compute; discriminate).
  split; [exact oneSignal_inRange |]. split; [exact Hw |].
  split; [exact Hsum |].
  eexists. split; [vm_compute; reflexivity |].
  refine (proj1 (X19_scores_in_range oneSignal "c1" defaultConfig 1000 _
                   oneSignal_inRange Hw Hsum _)).
  vm_compute. reflexivity.
Defined.

(** X20: computing the score of a company leaves the signal store as it
    is and changes the score cache at that company only, where it puts the
    score it returns; the result is [null] exactly when the company has no
    signal, and then nothing changes at all. *)
Theorem X20_score_touches_own_cache_entry (st : Stores)
    (companyId : string) (config : ScoringConfig) (now : Z) :
  let result := fst (calculateUnifiedScore st companyId config now) in
  let st' := snd (calculateUnifiedScore st companyId config now) in
  signalStore st' = signalStore st
  /\ (forall other, other <> companyId ->
        scoreCache st' !! other = scoreCache st !! other)
  /\ (result = None <-> getSignalsForCompany st companyId = [])
  /\ (result = None -> st' = st)
  /\ (forall score, result = Some score ->
        scoreCache st' !! companyId = Some score
        /\ score_companyId score = companyId
        /\ signalCount score = length (getSignalsForCompany st companyId)
        /\ lastUpdated score = now).
Proof.
  intros result st'. subst result st'.
  destruct (getSignalsForCompany st companyId) as [| s0 rest] eqn:E.
  - rewrite calculateUnifiedScore_none by exact E. cbn [fst snd].
    repeat split; try reflexivity; discriminate.
  - destruct (calculateUnifiedScore_some st companyId config now)
      as (score & Hcall & _); [congruence |].
    assert (fst (calculateUnifiedScore st companyId config now) = Some score)
      as Hfst by now rewrite Hcall.
    destruct (calculateUnifiedScore_fields _ _ _ _ _ Hfst)
      as (_ & _ & _ & _ & _ & _ & Hid & Hcount & Hnow & _).
    rewrite Hcall. cbn [fst snd signalStore scoreCache].
    split; [reflexivity |]. split; [| split; [| split]].
    + intros other Hne. now apply lookup_insert_ne.
    + split; discriminate.
    + discriminate.
    + intros score' H. injection H as <-.
      rewrite lookup_insert_eq, <- E. repeat split; assumption.
Qed.

(** X21: the trend of a computed score is increasing exactly when a score
    was cached for the company and the new overall score exceeds it by
    more than 5, decreasing exactly when it falls short of it by more than
    5, and stable otherwise, in particular when nothing was cached. *)
Theorem X21_trend_threshold (st : Stores) (companyId : string)
    (config : ScoringConfig) (now : Z) (score : UnifiedIntentScore) :
  fst (calculateUnifiedScore st companyId config now) = Some score ->
  (trend score = Increasing
   <-> exists previous, scoreCache st !! companyId = Some previous
         /\ (overallScore previous + 5 < overallScore score)%Q)
  /\ (trend score = Decreasing
      <-> exists previous, scoreCache st !! companyId = Some previous
            /\ (overallScore score < overallScore previous - 5)%Q)
  /\ (scoreCache st !! companyId = None -> trend score = Stable).
Proof.
  intros Hcall.
  destruct (calculateUnifiedScore_fields _ _ _ _ _ Hcall)
    as (_ & _ & _ & _ & _ & _ & _ & _ & _ & -> & _).
  destruct (scoreCache st !! companyId) as [previous |];
    cbn [fmap option_fmap option_map determineTrend].
  - destruct (Qlt_bool 5 (overallScore score - overallScore previous)) eqn:Up;
      [apply Qlt_bool_iff in Up | apply Qlt_bool_false_iff in Up];
      destruct (Qlt_bool (overallScore score - overallScore previous) (-5))
        eqn:Down;
      try apply Qlt_bool_iff in Down; try apply Qlt_bool_false_iff in Down;
      (split; [| split]);
      try (intros H; discriminate H);
      try (split; [discriminate |]; intros (p & Hp & Hlt);
           injection Hp as <-; exfalso; lra);
      try (split; [intros _; exists previous; split; [reflexivity | lra]
                  | reflexivity]).
  - split; [| split]; [split; [discriminate | intros (p & Hp & _);
                                discriminate Hp] ..| reflexivity].
Qed.

Lemma X21_trend_threshold_witness :
  exists score,
    fst (calculateUnifiedScore scoredOnce "c1" defaultConfig 1000)
    = Some score
    /\ trend score = Increasing
    /\ exists previous, scoreCache scoredOnce !! "c1" = Some previous
         /\ (overallScore previous + 5 < overallScore score)%Q.
Proof.
  eexists. split; [vm_compute; reflexivity |]. split; [reflexivity |].
  refine (proj1 (proj1 (X21_trend_threshold scoredOnce "c1" defaultConfig
                          1000 _ _)) _); vm_compute; reflexivity.
Defined.


(** ** Sorting in descending order *)

Lemma insertDescBy_perm {A : Type} (key : A -> Q) (x : A) (l : list A) :
  Permutation (insertDescBy key x l) (x :: l).
Proof.
  induction l as [| u rest IH]; cbn [insertDescBy]; [reflexivity |].
  destruct (Qlt_bool (key x) (key u)); [| reflexivity].
  rewrite IH. apply perm_swap.
Qed.

Lemma sortDescBy_perm {A : Type} (key : A -> Q) (l : list A) :
  Permutation (sortDescBy key l) l.
Proof.
  induction l as [| x rest IH]; [reflexivity |].
  change (sortDescBy key (x :: rest))
    with (insertDescBy key x (sortDescBy key rest)).
  rewrite insertDescBy_perm. now rewrite IH.
Qed.

Lemma insertDescBy_descending {A : Type} (key : A -> Q) (x : A)
    (l : list A) :
  descendingBy key l -> descendingBy key (insertDescBy key x l).
Proof.
  unfold descendingBy.
  induction l as [| u rest IH]; intros Hs; cbn [insertDescBy].
  - constructor; [constructor | constructor].
  - apply StronglySorted_inv in Hs as [Hrest Hu].
    destruct (Qlt_bool (key x) (key u)) eqn:E.
    + apply Qlt_bool_iff in E. constructor; [now apply IH |].
      apply (Permutation_Forall (x := x :: rest)).
      * symmetry. apply insertDescBy_perm.
      * constructor; [lra | exact Hu].
    + apply Qlt_bool_false_iff in E. constructor.
      * now constructor.
      * constructor; [lra |].
        eapply List.Forall_impl; [| exact Hu]. cbn. intros a Ha. lra.
Qed.

Lemma sortDescBy_descending {A : Type} (key : A -> Q) (l : list A) :
  descendingBy key (sortDescBy key l).
Proof.
  induction l as [| x rest IH]; [constructor |].
  change (sortDescBy key (x :: rest))
    with (insertDescBy key x (sortDescBy key rest)).
  now apply insertDescBy_descending.
Qed.

Lemma descendingBy_app {A : Type} (key : A -> Q) (l1 l2 : list A) :
  descendingBy key (l1 ++ l2) ->
  descendingBy key l1
  /\ forall a b, List.In a l1 -> List.In b l2 -> (key b <= key a)%Q.
Proof.
  unfold descendingBy. induction l1 as [| x l1 IH]; cbn [app]; intros Hs.
  - split; [constructor | intros a b []].
  - apply StronglySorted_inv in Hs as [Hrest Hx].
    destruct (IH Hrest) as [Hl1 Hcross]. split.
    + constructor; [exact Hl1 |].
      apply List.Forall_forall. intros a Ha.
      apply (proj1 (List.Forall_forall _ _) Hx). apply in_or_app. now left.
    + intros a b [<- | Ha] Hb.
      * apply (proj1 (List.Forall_forall _ _) Hx). apply in_or_app. now right.
      * now apply Hcross.
Qed.

Lemma sortByScoreDesc_sortDescBy (topics : list TopicScore) :
  sortByScoreDesc topics = sortDescBy ts_score topics.
Proof.
  unfold sortByScoreDesc, sortDescBy.
  induction topics as [| t rest IH]; [reflexivity |].
  cbn [fold_right]. rewrite IH.
  generalize (fold_right (insertDescBy ts_score) [] rest). intros sorted.
  induction sorted as [| u sorted IHs]; [reflexivity |].
  cbn [sortInsert insertDescBy]. now rewrite IHs.
Qed.

(** ** The topic map of [calculateTopTopics] *)

Lemma calculateTopTopics_eq (signals : list IntentSignal) :
  calculateTopTopics signals
  = take 5
      (sortDescBy ts_score (map (topicEntry signals) (topicMapOf signals))).
Proof.
  unfold calculateTopTopics. rewrite sortByScoreDesc_sortDescBy.
  reflexivity.
Qed.

Lemma topicGet_topicSet (m : list (string * (Q * list Source)))
    (t t' : string) (v : Q * list Source) :
  topicGet (topicSet m t v) t'
  = if String.eqb t t' then Some v else topicGet m t'.
Proof.
  induction m as [| [k w] rest IH]; cbn [topicSet topicGet]; [reflexivity |].
  destruct (String.eqb k t) eqn:Ekt; cbn [topicGet].
  - apply String.eqb_eq in Ekt. subst k.
    destruct (String.eqb t t'); reflexivity.
  - rewrite IH. destruct (String.eqb k t') eqn:Ekt'; [| reflexivity].
    apply String.eqb_eq in Ekt'. subst t'. now rewrite String.eqb_sym, Ekt.
Qed.

Lemma topicSet_keys (m : list (string * (Q * list Source)))
    (t k : string) (v : Q * list Source) :
  List.In k (map fst (topicSet m t v)) <-> k = t \/ List.In k (map fst m).
Proof.
  induction m as [| [k0 w] rest IH]; cbn [topicSet map fst List.In].
  - intuition congruence.
  - destruct (String.eqb k0 t) eqn:E; cbn [map fst List.In].
    + apply String.eqb_eq in E. intuition congruence.
    + rewrite IH. intuition congruence.
Qed.

Lemma topicSet_NoDup (m : list (string * (Q * list Source)))
    (t : string) (v : Q * list Source) :
  NoDup (map fst m) -> NoDup (map fst (topicSet m t v)).
Proof.
  induction m as [| [k0 w] rest IH]; cbn [topicSet map fst]; intros Hm.
  - apply NoDup_singleton.
  - destruct (String.eqb k0 t) eqn:E; cbn [map fst]; [exact Hm |].
    apply String.eqb_neq in E. inversion Hm as [| ? ? Hnot Hrest]; subst.
    constructor; [| now apply IH].
    rewrite list_elem_of_In, topicSet_keys.
    rewrite list_elem_of_In in Hnot. intuition congruence.
Qed.

Lemma topicGet_In (m : list (string * (Q * list Source)))
    (t : string) (v : Q * list Source) :
  NoDup (map fst m) -> List.In (t, v) m -> topicGet m t = Some v.
Proof.
  induction m as [| [k w] rest IH]; cbn [map fst List.In topicGet];
    intros Hm Hin; [destruct Hin |].
  inversion Hm as [| ? ? Hnot Hrest]; subst.
  destruct Hin as [Heq | Hin].
  - injection Heq as -> ->. now rewrite String.eqb_refl.
  - destruct (String.eqb k t) eqn:E; [| now apply IH].
    apply String.eqb_eq in E. subst k. exfalso. apply Hnot.
    rewrite list_elem_of_In. apply (in_map fst) in Hin. exact Hin.
Qed.

Lemma topicGet_Some (m : list (string * (Q * list Source)))
    (t : string) (v : Q * list Source) :
  topicGet m t = Some v -> List.In (t, v) m.
Proof.
  induction m as [| [k w] rest IH]; cbn [topicGet List.In]; [discriminate |].
  destruct (String.eqb k t) eqn:E.
  - apply String.eqb_eq in E. subst k. intros H. injection H as ->. now left.
  - intros H. right. now apply IH.
Qed.

Lemma withTopic_snoc (t : string) (seen : list IntentSignal)
    (s : IntentSignal) :
  withTopic t (seen ++ [s])
  = withTopic t seen ++ (if String.eqb (topic s) t then [s] else []).
Proof.
  unfold withTopic. rewrite List.filter_app. cbn [List.filter].
  destruct (String.eqb (topic s) t); reflexivity.
Qed.

Lemma topicInv_step (m : list (string * (Q * list Source)))
    (seen : list IntentSignal) (s : IntentSignal) :
  topicInv m seen -> topicInv (topicStep m s) (seen ++ [s]).
Proof.
  intros [Hm Hget]. unfold topicStep.
  destruct (default (0%Q, []) (topicGet m (topic s))) as [score sources]
    eqn:D.
  split; [now apply topicSet_NoDup |].
  intros t. rewrite topicGet_topicSet. unfold accOf.
  rewrite withTopic_snoc. destruct (String.eqb (topic s) t) eqn:E.
  - apply String.eqb_eq in E. subst t.
    rewrite fold_left_app. cbn [fold_left].
    specialize (Hget (topic s)). rewrite Hget in D. unfold accOf in D.
    destruct (withTopic (topic s) seen) as [| s0 rest]; cbn [app].
    + cbn in D. cbn [fold_left]. unfold accStep. cbn [fst snd].
      injection D as <- <-. reflexivity.
    + remember (fold_left accStep (s0 :: rest) (0%Q, [])) as acc.
      cbn in D. rewrite D. reflexivity.
  - rewrite app_nil_r. apply Hget.
Qed.

Lemma topicInv_fold (rest : list IntentSignal)
    (m : list (string * (Q * list Source))) (seen : list IntentSignal) :
  topicInv m seen -> topicInv (fold_left topicStep rest m) (seen ++ rest).
Proof.
  revert m seen. induction rest as [| s rest IH]; intros m seen Hinv.
  - now rewrite app_nil_r.
  - cbn [fold_left].
    replace (seen ++ s :: rest) with ((seen ++ [s]) ++ rest)
      by now rewrite <- app_assoc.
    apply IH. now apply topicInv_step.
Qed.

Lemma topicMapOf_inv (signals : list IntentSignal) :
  topicInv (topicMapOf signals) signals.
Proof.
  apply (topicInv_fold signals [] []). split; [constructor | reflexivity].
Qed.

Lemma strengthSum_cons (s : IntentSignal) (l : list IntentSignal) :
  strengthSum (s :: l) = (signalStrength s + strengthSum l)%Q.
Proof. reflexivity. Qed.

Lemma accStep_sum (l : list IntentSignal) (acc : Q * list Source) :
  (fst (fold_left accStep l acc) == fst acc + strengthSum l)%Q.
Proof.
  revert acc. induction l as [| s l IH]; intros acc; cbn [fold_left].
  - change (strengthSum []) with 0%Q. ring.
  - rewrite IH, strengthSum_cons. unfold accStep. cbn [fst]. ring.
Qed.

Lemma Source_eqb_eq (a b : Source) : Source_eqb a b = true <-> a = b.
Proof. destruct a, b; cbn; split; congruence. Qed.

Lemma setAdd_In (sources : list Source) (x src : Source) :
  List.In src (setAdd sources x) <-> List.In src sources \/ src = x.
Proof.
  unfold setAdd. destruct (existsb (Source_eqb x) sources) eqn:E.
  - apply existsb_exists in E as (y & Hy & Hxy).
    apply Source_eqb_eq in Hxy. subst y. intuition congruence.
  - rewrite in_app_iff. cbn [List.In]. intuition congruence.
Qed.

Lemma setAdd_NoDup (sources : list Source) (x : Source) :
  NoDup sources -> NoDup (setAdd sources x).
Proof.
  intros Hs. unfold setAdd.
  destruct (existsb (Source_eqb x) sources) eqn:E; [exact Hs |].
  apply NoDup_app. split; [exact Hs |]. split.
  - intros y Hy Hx. apply list_elem_of_singleton in Hx. subst y.
    assert (existsb (Source_eqb x) sources = true) as Habs; [| congruence].
    apply existsb_exists. exists x. split.
    + now apply list_elem_of_In.
    + now apply Source_eqb_eq.
  - apply NoDup_singleton.
Qed.

Lemma accStep_sources (l : list IntentSignal) (acc : Q * list Source)
    (src : Source) :
  List.In src (snd (fold_left accStep l acc))
  <-> List.In src (snd acc) \/ exists s, List.In s l /\ source s = src.
Proof.
  revert acc. induction l as [| s l IH]; intros acc; cbn [fold_left].
  - split; [now left | intros [H | (s & [] & _)]; exact H].
  - rewrite IH. unfold accStep. cbn [snd]. rewrite setAdd_In. split.
    + intros [[H | ->] | (s' & Hs' & Hsrc)].
      * now left.
      * right. exists s. split; [now left | reflexivity].
      * right. exists s'. split; [now right | exact Hsrc].
    + intros [H | (s' & [<- | Hs'] & Hsrc)].
      * left. now left.
      * left. right. now symmetry.
      * right. exists s'. now split.
Qed.

Lemma accStep_NoDup (l : list IntentSignal) (acc : Q * list Source) :
  NoDup (snd acc) -> NoDup (snd (fold_left accStep l acc)).
Proof.
  revert acc. induction l as [| s l IH]; intros acc Hacc; cbn [fold_left];
    [exact Hacc |].
  apply IH. unfold accStep. cbn [snd]. now apply setAdd_NoDup.
Qed.

Lemma withTopic_In (t : string) (signals : list IntentSignal)
    (s : IntentSignal) :
  List.In s (withTopic t signals) <-> List.In s signals /\ topic s = t.
Proof.
  unfold withTopic. rewrite List.filter_In. now rewrite String.eqb_eq.
Qed.

(** The entries that [calculateTopTopics] sorts: one for each topic of the
    signals. *)
Lemma topicEntries_keys (signals : list IntentSignal) :
  map ts_topic (map (topicEntry signals) (topicMapOf signals))
  = map fst (topicMapOf signals).
Proof.
  rewrite List.map_map. apply map_ext. intros [t [score sources]].
  reflexivity.
Qed.

Lemma topicEntries_of (signals : list IntentSignal) (e : TopicScore) :
  List.In e (map (topicEntry signals) (topicMapOf signals)) ->
  withTopic (ts_topic e) signals <> []
  /\ ts_score e = meanStrength (ts_topic e) signals
  /\ ts_sources e = snd (accOf (ts_topic e) signals).
Proof.
  intros He. apply in_map_iff in He as ([t [score sources]] & <- & Hin).
  destruct (topicMapOf_inv signals) as [Hm Hget].
  apply (topicGet_In _ _ _ Hm) in Hin. rewrite Hget in Hin.
  cbn [topicEntry ts_topic ts_score ts_sources].
  destruct (withTopic t signals) as [| s0 rest] eqn:Ew; [discriminate |].
  injection Hin as Hacc. split; [discriminate |].
  unfold meanStrength. rewrite Ew.
  split; [| now rewrite Hacc]. f_equal. apply Math_round_comp.
  assert (score == strengthSum (s0 :: rest))%Q as ->; [| reflexivity].
  change score with (fst (score, sources)). rewrite <- Hacc. unfold accOf.
  rewrite Ew, accStep_sum. cbn [fst]. ring.
Qed.

Lemma topicEntries_all (signals : list IntentSignal) (s : IntentSignal) :
  List.In s signals ->
  exists e,
    List.In e (map (topicEntry signals) (topicMapOf signals))
    /\ ts_topic e = topic s.
Proof.
  intros Hs. destruct (topicMapOf_inv signals) as [Hm Hget].
  specialize (Hget (topic s)).
  destruct (withTopic (topic s) signals) as [| s0 rest] eqn:Ew.
  - exfalso. assert (List.In s (withTopic (topic s) signals)) as H
      by now apply withTopic_In.
    rewrite Ew in H. destruct H.
  - apply topicGet_Some in Hget.
    exists (topicEntry signals (topic s, accOf (topic s) signals)). split.
    + now apply in_map.
    + destruct (accOf (topic s) signals). reflexivity.
Qed.

(** ** The top topics *)

Lemma take_In {A : Type} (n : nat) (l : list A) (x : A) :
  List.In x (take n l) -> List.In x l.
Proof.
  intros H. rewrite <- (take_drop n l). apply in_or_app. now left.
Qed.

(** X22: [calculateTopTopics] returns at most five topics, in order of
    non-increasing score, no topic twice; and when every strength is a
    whole number from 0 to 100, a topic of the signals that is not among
    them is left out only when five were returned, and then its capped,
    rounded mean strength is at most the score of each of the five. *)
Theorem X22_top_topics_shape (signals : list IntentSignal) :
  (length (calculateTopTopics signals) <= 5)%nat
  /\ descendingBy ts_score (calculateTopTopics signals)
  /\ NoDup (map ts_topic (calculateTopTopics signals))
  /\ ((forall s, List.In s signals -> wholeStrength s) ->
      forall s,
        List.In s signals ->
        List.In (topic s) (map ts_topic (calculateTopTopics signals))
        \/ (length (calculateTopTopics signals) = 5%nat
            /\ forall e,
                 List.In e (calculateTopTopics signals) ->
                 (meanStrength (topic s) signals <= ts_score e)%Q)).
Proof.
  rewrite calculateTopTopics_eq.
  set (entries := map (topicEntry signals) (topicMapOf signals)).
  pose proof (sortDescBy_perm ts_score entries) as Hperm.
  pose proof (sortDescBy_descending ts_score entries) as Hsorted.
  set (sorted := sortDescBy ts_score entries) in *.
  rewrite <- (take_drop 5 sorted) in Hsorted.
  apply descendingBy_app in Hsorted as [Htop Hcross].
  split; [rewrite length_take; lia |]. split; [exact Htop |]. split.
  - assert (NoDup (map ts_topic sorted)) as Hnd.
    { rewrite (Permutation_map ts_topic Hperm). unfold entries.
      rewrite topicEntries_keys. apply (topicMapOf_inv signals). }
    rewrite <- (take_drop 5 sorted), map_app in Hnd.
    now apply NoDup_app in Hnd as [Hnd _].
  - intros _ s Hs.
    destruct (topicEntries_all signals s Hs) as (e & He & Htopic).
    destruct (topicEntries_of signals e He) as (_ & Hscore & _).
    fold entries in He.
    apply (Permutation_in (l' := sorted)) in He; [| now symmetry].
    rewrite <- (take_drop 5 sorted) in He.
    apply in_app_or in He as [He | He].
    + left. rewrite <- Htopic. now apply in_map.
    + right. split.
      * rewrite length_take. destruct (drop 5 sorted) as [| d ds] eqn:Ed;
          [destruct He |].
        assert (length (drop 5 sorted) = S (length ds)) as Hlen
          by now rewrite Ed.
        rewrite length_drop in Hlen. lia.
      * intros a Ha. rewrite <- Htopic, <- Hscore. now apply Hcross.
Qed.

Lemma topicSignals_whole (s : IntentSignal) :
  List.In s topicSignals -> wholeStrength s.
Proof.
  intros [<- | [<- | [<- | []]]]; eexists; (split; [| reflexivity]); lia.
Qed.

(** X23: each topic that [calculateTopTopics] returns is the topic of a
    signal; its sources are the sources of the signals with that topic,
    each once; its score is a whole number of at most 100, and when every
    strength is a whole number from 0 to 100 it is the mean strength of
    those signals, rounded and capped at 100. *)
Theorem X23_topic_score_is_mean (signals : list IntentSignal)
    (e : TopicScore) :
  List.In e (calculateTopTopics signals) ->
  withTopic (ts_topic e) signals <> []
  /\ ((forall s, List.In s signals -> wholeStrength s) ->
      ts_score e = meanStrength (ts_topic e) signals)
  /\ (ts_score e <= 100)%Q
  /\ (exists z : Z, (ts_score e == inject_Z z)%Q)
  /\ NoDup (ts_sources e)
  /\ forall src,
       List.In src (ts_sources e)
       <-> exists s,
             List.In s signals /\ topic s = ts_topic e /\ source s = src.
Proof.
  rewrite calculateTopTopics_eq. intros He. apply take_In in He.
  apply (Permutation_in (l' := map (topicEntry signals) (topicMapOf signals)))
    in He; [| apply sortDescBy_perm].
  destruct (topicEntries_of signals e He) as (Hne & Hscore & Hsources).
  split; [exact Hne |]. split; [intros _; exact Hscore |].
  split; [rewrite Hscore; apply Q.le_min_l |]. split.
  { rewrite Hscore. unfold meanStrength.
    destruct (Q.min_spec 100
                (Math_round
                   (strengthSum (withTopic (ts_topic e) signals)
                    / inject_Z
                        (Z.of_nat
                           (length (withTopic (ts_topic e) signals))))))
      as [[_ Hmin] | [_ Hmin]].
    - exists 100%Z. exact Hmin.
    - destruct (Math_round_integer
                  (strengthSum (withTopic (ts_topic e) signals)
                   / inject_Z
                       (Z.of_nat
                          (length (withTopic (ts_topic e) signals)))))
        as [z Hz].
      exists z. rewrite Hmin, Hz. reflexivity. }
  rewrite Hsources. unfold accOf. split.
  - apply accStep_NoDup. constructor.
  - intros src. rewrite accStep_sources. cbn [snd List.In]. split.
    + intros [[] | (s & Hs & Hsrc)]. apply withTopic_In in Hs as [Hs Ht].
      exists s. now repeat split.
    + intros (s & Hs & Ht & Hsrc). right. exists s. split; [| exact Hsrc].
      now apply withTopic_In.
Qed.

Lemma X23_topic_score_is_mean_witness :
  exists e,
    List.In e (calculateTopTopics topicSignals)
    /\ ts_topic e = "Cloud"
    /\ ts_score e = meanStrength "Cloud" topicSignals
    /\ (ts_score e == 65)%Q.
Proof.
  eexists. split; [vm_compute; left; reflexivity |].
  split; [reflexivity |]. split; [| reflexivity].
  refine (proj1 (proj2 (X23_topic_score_is_mean topicSignals _ _))
            topicSignals_whole).
  vm_compute. left. reflexivity.
Defined.

(** ** Scoring every company *)

Lemma calculateUnifiedScore_signalStore (st : Stores) (id : string)
    (config : ScoringConfig) (now : Z) :
  signalStore (snd (calculateUnifiedScore st id config now)) = signalStore st.
Proof.
  destruct (getSignalsForCompany st id) as [| s0 rest] eqn:E.
  - now rewrite calculateUnifiedScore_none.
  - destruct (calculateUnifiedScore_some st id config now)
      as (score & Hcall & _); [congruence |].
    now rewrite Hcall.
Qed.

Lemma calculateUnifiedScore_cache_other (st : Stores) (id other : string)
    (config : ScoringConfig) (now : Z) :
  other <> id ->
  scoreCache (snd (calculateUnifiedScore st id config now)) !! other
  = scoreCache st !! other.
Proof.
  intros Hne. destruct (getSignalsForCompany st id) as [| s0 rest] eqn:E.
  - now rewrite calculateUnifiedScore_none.
  - destruct (calculateUnifiedScore_some st id config now)
      as (score & Hcall & _); [congruence |].
    rewrite Hcall. cbn [snd scoreCache]. apply lookup_insert_ne. congruence.
Qed.

Lemma calculateUnifiedScore_fst_local (st st0 : Stores) (id : string)
    (config : ScoringConfig) (now : Z) :
  signalStore st = signalStore st0 ->
  scoreCache st !! id = scoreCache st0 !! id ->
  fst (calculateUnifiedScore st id config now)
  = fst (calculateUnifiedScore st0 id config now).
Proof.
  intros Hs Hc. unfold calculateUnifiedScore, getSignalsForCompany.
  rewrite Hs, Hc.
  destruct (length (default [] (signalStore st0 !! id)) =? 0)%nat;
    reflexivity.
Qed.

Lemma getSignalsForCompany_local (st st' : Stores) (id : string) :
  signalStore st' = signalStore st ->
  getSignalsForCompany st' id = getSignalsForCompany st id.
Proof. unfold getSignalsForCompany. now intros ->. Qed.

Lemma hasSignals_local (st st' : Stores) (id : string) :
  signalStore st' = signalStore st -> hasSignals st' id = hasSignals st id.
Proof.
  intros H. unfold hasSignals. now rewrite (getSignalsForCompany_local st st').
Qed.

Lemma calculateUnifiedScore_settles (config : ScoringConfig) (now : Z)
    (st : Stores) (id : string) :
  settled config now (snd (calculateUnifiedScore st id config now)) id.
Proof.
  destruct (getSignalsForCompany st id) as [| s0 rest] eqn:E.
  - rewrite calculateUnifiedScore_none by exact E. now left.
  - destruct (calculateUnifiedScore_some st id config now)
      as (score & Hcall & _); [congruence |].
    assert (fst (calculateUnifiedScore st id config now) = Some score)
      as Hfst by now rewrite Hcall.
    destruct (calculateUnifiedScore_fields _ _ _ _ _ Hfst)
      as (_ & _ & Hov & _).
    rewrite Hcall. cbn [snd]. right. exists score. split.
    + cbn [scoreCache]. apply lookup_insert_eq.
    + rewrite Hov. reflexivity.
Qed.

Lemma calculateUnifiedScore_keeps_settled (config : ScoringConfig) (now : Z)
    (st : Stores) (id other : string) :
  settled config now st other ->
  settled config now (snd (calculateUnifiedScore st id config now)) other.
Proof.
  intros Hs. destruct (decide (other = id)) as [-> | Hne];
    [apply calculateUnifiedScore_settles |].
  unfold settled in *.
  rewrite !(getSignalsForCompany_local st
              (snd (calculateUnifiedScore st id config now)) other
              (calculateUnifiedScore_signalStore _ _ _ _)).
  rewrite calculateUnifiedScore_cache_other by exact Hne. exact Hs.
Qed.

(** *** Spike detection *)

Lemma detectStep_eq (config : ScoringConfig) (now : Z)
    (spikes : list AwarenessSpike) (st : Stores) (id : string) :
  detectStep config now (spikes, st) id
  = (spikes ++ spikeOf st config now id,
     snd (calculateUnifiedScore st id config now)).
Proof.
  unfold spikeOf, detectStep.
  destruct (calculateUnifiedScore st id config now) as [[score |] st'];
    destruct (scoreCache st !! id) as [previous |]; cbn [fst snd];
    try destruct (isSpike score); cbn [fst snd app];
    rewrite ?app_nil_r; reflexivity.
Qed.

Lemma spikeOf_In (config : ScoringConfig) (now : Z) (st : Stores)
    (id : string) (spike : AwarenessSpike) :
  List.In spike (spikeOf st config now id)
  <-> exists previous score,
        scoreCache st !! id = Some previous
        /\ fst (calculateUnifiedScore st id config now) = Some score
        /\ isSpike score = true
        /\ spike
           = {| spike_companyId := id;
                spike_companyName := score_companyName score;
                spike_previousScore := overallScore previous;
                spike_currentScore := overallScore score;
                percentageIncrease :=
                  Math_round
                    (if Qlt_bool 0 (overallScore previous)
                     then percentIncrease (overallScore score)
                            (overallScore previous)
                     else 0%Q);
                triggeringTopics := map ts_topic (topTopics score);
                spike_timestamp := now |}.
Proof.
  unfold spikeOf, detectStep, percentIncrease.
  destruct (calculateUnifiedScore st id config now) as [[score |] st'];
    destruct (scoreCache st !! id) as [previous |]; cbn [fst snd];
    try destruct (isSpike score) eqn:Es; cbn [fst snd app List.In]; split;
    try (intros []; fail);
    try (intros (p & sc & Hp & Hsc & _); discriminate);
    try (intros (p & sc & Hp & Hsc & Hs & _); injection Hsc as <-;
         congruence).
  - intros [<- | []]. exists previous, score.
    repeat split; first [exact Es | reflexivity].
  - intros (p & sc & Hp & Hsc & _ & ->). injection Hp as <-.
    injection Hsc as <-. now left.
Qed.

Lemma spikeOf_local (config : ScoringConfig) (now : Z) (st st0 : Stores)
    (id : string) :
  signalStore st = signalStore st0 ->
  scoreCache st !! id = scoreCache st0 !! id ->
  spikeOf st config now id = spikeOf st0 config now id.
Proof.
  intros Hs Hc.
  pose proof (calculateUnifiedScore_fst_local st st0 id config now Hs Hc)
    as Hf.
  unfold spikeOf, detectStep. rewrite Hc.
  destruct (calculateUnifiedScore st id config now) as [cur st1].
  destruct (calculateUnifiedScore st0 id config now) as [cur0 st2].
  cbn [fst] in Hf. subst cur0.
  destruct cur as [score |]; destruct (scoreCache st0 !! id);
    try destruct (isSpike score); reflexivity.
Qed.

Lemma settled_no_spike (config : ScoringConfig) (now : Z) (st : Stores)
    (id : string) :
  (0 < spikeThresholdPercent config)%Q ->
  settled config now st id ->
  spikeOf st config now id = [].
Proof.
  intros Hth Hs.
  destruct (spikeOf st config now id) as [| spike rest] eqn:E;
    [reflexivity |]. exfalso.
  assert (List.In spike (spikeOf st config now id)) as Hin
    by (rewrite E; now left).
  apply spikeOf_In in Hin as (previous & score & Hprev & Hcall & Hspike & _).
  destruct (calculateUnifiedScore_fields _ _ _ _ _ Hcall)
    as (Hne & _ & Hov & _ & _ & _ & _ & _ & _ & _ & His).
  destruct Hs as [Hs | (p & Hp & Hpov)]; [contradiction |].
  assert (p = previous) as -> by congruence.
  rewrite Hprev in His. cbn [fmap option_fmap option_map] in His.
  rewrite Hpov, <- Hov, checkForSpike_same, Hspike in His.
  assert (Qle_bool (spikeThresholdPercent config) 0 = false) as Hle
    by now apply Qle_bool_false_iff.
  rewrite Hle, andb_false_r in His. discriminate.
Qed.

Lemma detect_keeps_settled (config : ScoringConfig) (now : Z)
    (keys : list string) (spikes : list AwarenessSpike) (st : Stores)
    (id : string) :
  settled config now st id ->
  settled config now
    (snd (fold_left (detectStep config now) keys (spikes, st))) id.
Proof.
  revert spikes st. induction keys as [| k keys IH]; intros spikes st Hs;
    cbn [fold_left]; [exact Hs |].
  rewrite detectStep_eq. apply IH.
  now apply calculateUnifiedScore_keeps_settled.
Qed.

Lemma detect_settles (config : ScoringConfig) (now : Z)
    (keys : list string) (spikes : list AwarenessSpike) (st : Stores)
    (id : string) :
  List.In id keys ->
  settled config now
    (snd (fold_left (detectStep config now) keys (spikes, st))) id.
Proof.
  revert spikes st. induction keys as [| k keys IH]; intros spikes st;
    [intros [] |].
  intros [<- | Hin]; cbn [fold_left]; rewrite detectStep_eq.
  - apply detect_keeps_settled. apply calculateUnifiedScore_settles.
  - now apply IH.
Qed.

Lemma detect_quiet (config : ScoringConfig) (now : Z) (keys : list string)
    (spikes : list AwarenessSpike) (st : Stores) :
  (0 < spikeThresholdPercent config)%Q ->
  (forall id, List.In id keys -> settled config now st id) ->
  fst (fold_left (detectStep config now) keys (spikes, st)) = spikes.
Proof.
  intros Hth. revert spikes st.
  induction keys as [| k keys IH]; intros spikes st Hs; cbn [fold_left];
    [reflexivity |].
  rewrite detectStep_eq, settled_no_spike, app_nil_r;
    [| exact Hth | apply Hs; now left].
  apply IH. intros id Hid. apply calculateUnifiedScore_keeps_settled.
  apply Hs. now right.
Qed.

Lemma detect_flat (config : ScoringConfig) (now : Z) (keys : list string)
    (spikes : list AwarenessSpike) (st st0 : Stores) :
  NoDup keys ->
  signalStore st = signalStore st0 ->
  (forall id, List.In id keys -> scoreCache st !! id = scoreCache st0 !! id) ->
  fst (fold_left (detectStep config now) keys (spikes, st))
  = spikes ++ flat_map (spikeOf st0 config now) keys.
Proof.
  revert spikes st. induction keys as [| k keys IH];
    intros spikes st Hnd Hs Hc; cbn [fold_left flat_map].
  - now rewrite app_nil_r.
  - apply NoDup_cons in Hnd as [Hk Hnd].
    rewrite detectStep_eq, IH; [| exact Hnd | |].
    + rewrite <- app_assoc. do 2 f_equal.
      apply spikeOf_local; [exact Hs | apply Hc; now left].
    + now rewrite calculateUnifiedScore_signalStore.
    + intros id Hid. rewrite calculateUnifiedScore_cache_other.
      * apply Hc. now right.
      * intros ->. apply Hk. now apply list_elem_of_In.
Qed.

(** X24: with a spike threshold above 0, a run of [detectAwarenessSpikes]
    right after another one, on the same signals at the same clock reading
    under the same configuration, reports no spike: a spike is reported by
    the first run that sees the jump, and not again. *)
Theorem X24_spikes_reported_once (st : Stores) (keys : list string)
    (config : ScoringConfig) (now : Z) :
  (0 < spikeThresholdPercent config)%Q ->
  fst (detectAwarenessSpikes
         (snd (detectAwarenessSpikes st keys config now)) keys config now)
  = [].
Proof.
  intros Hth. unfold detectAwarenessSpikes at 1.
  apply detect_quiet; [exact Hth |].
  intros id Hid. unfold detectAwarenessSpikes. now apply detect_settles.
Qed.

Lemma X24_spikes_reported_once_witness :
  length (fst (detectAwarenessSpikes scoredOnce ["c1"] defaultConfig 1000))
  = 1%nat
  /\ fst (detectAwarenessSpikes
            (snd (detectAwarenessSpikes scoredOnce ["c1"] defaultConfig 1000))
            ["c1"] defaultConfig 1000)
     = [].
Proof.
  split; [vm_compute; reflexivity |].
  apply (X24_spikes_reported_once scoredOnce ["c1"] defaultConfig 1000).
  reflexivity.
Defined.

Lemma Math_round_near (x : Q) : (Qabs (Math_round x - x) <= 1 # 2)%Q.
Proof.
  unfold Math_round.
  pose proof (Qfloor_le (x + (1 # 2))) as Hle.
  pose proof (Qlt_floor (x + (1 # 2))) as Hlt.
  rewrite inject_Z_plus in Hlt. change (inject_Z 1) with 1%Q in Hlt.
  apply Qabs_Qle_condition. split; lra.
Qed.

(** X25: with distinct keys, each spike that [detectAwarenessSpikes]
    reports is for a company among the keys that had a cached score other
    than 0 before the run and for which [calculateUnifiedScore] computes a
    score flagged as a spike.  The spike carries the cached score as the
    previous score and the computed score as the current score; the
    increase, (current - previous) / previous * 100, reaches the threshold,
    with [roundingMargin]; the percentage it reports is a whole number,
    within a half (and the margin) of the increase when the previous score
    is above 0, and 0 when it is below; it names the company, the topics
    of the computed score and the clock reading. *)
Theorem X25_spike_sound (st : Stores) (keys : list string)
    (config : ScoringConfig) (now : Z) (spike : AwarenessSpike) :
  NoDup keys ->
  List.In spike (fst (detectAwarenessSpikes st keys config now)) ->
  exists previous score,
    List.In (spike_companyId spike) keys
    /\ scoreCache st !! spike_companyId spike = Some previous
    /\ fst (calculateUnifiedScore st (spike_companyId spike) config now)
       = Some score
    /\ isSpike score = true
    /\ spike_previousScore spike = overallScore previous
    /\ spike_currentScore spike = overallScore score
    /\ spike_companyName spike = score_companyName score
    /\ ~ (overallScore previous == 0)%Q
    /\ (spikeThresholdPercent config
        <= percentIncrease (spike_currentScore spike)
             (spike_previousScore spike)
           + roundingMargin
               (percentIncrease (spike_currentScore spike)
                  (spike_previousScore spike)))%Q
    /\ (exists z : Z, percentageIncrease spike = inject_Z z)
    /\ ((0 < overallScore previous)%Q ->
        (Qabs (percentageIncrease spike
               - percentIncrease (spike_currentScore spike)
                   (spike_previousScore spike))
         <= (1 # 2)
            + roundingMargin
                (percentIncrease (spike_currentScore spike)
                   (spike_previousScore spike)))%Q)
    /\ ((overallScore previous < 0)%Q -> percentageIncrease spike = 0%Q)
    /\ triggeringTopics spike = map ts_topic (topTopics score)
    /\ spike_timestamp spike = now.
Proof.
  intros Hnd Hin. unfold detectAwarenessSpikes in Hin.
  rewrite (detect_flat config now keys [] st st Hnd eq_refl) in Hin
    by reflexivity.
  cbn [app] in Hin. apply in_flat_map in Hin as (id & Hid & Hin).
  apply spikeOf_In in Hin as (previous & score & Hprev & Hcall & Hspike & ->).
  cbn [spike_companyId spike_previousScore spike_currentScore
       spike_companyName percentageIncrease triggeringTopics
       spike_timestamp].
  destruct (calculateUnifiedScore_fields _ _ _ _ _ Hcall)
    as (_ & _ & _ & _ & _ & _ & _ & _ & _ & _ & His).
  rewrite Hspike, Hprev in His. cbn [fmap option_fmap option_map] in His.
  symmetry in His.
  apply checkForSpike_iff in His as (p & Hp & Hnz & Hjump).
  injection Hp as <-.
  pose proof (roundingMargin_nonneg
                (percentIncrease (overallScore score)
                   (overallScore previous))) as Hm.
  exists previous, score.
  split; [exact Hid |]. split; [exact Hprev |]. split; [exact Hcall |].
  split; [exact Hspike |]. split; [reflexivity |]. split; [reflexivity |].
  split; [reflexivity |]. split; [exact Hnz |].
  split; [lra |]. split; [apply Math_round_integer |].
  split; [| split; [| split; reflexivity]].
  - intros Hpos. apply Qlt_bool_iff in Hpos. rewrite Hpos.
    pose proof (Math_round_near
                  (percentIncrease (overallScore score)
                     (overallScore previous))).
    lra.
  - intros Hneg.
    assert (Qlt_bool 0 (overallScore previous) = false) as ->
      by (apply Qlt_bool_false_iff; lra).
    reflexivity.
Qed.

Lemma X25_spike_sound_witness :
  exists spike,
    List.In spike
      (fst (detectAwarenessSpikes scoredOnce ["c1"] defaultConfig 1000))
    /\ (spike_previousScore spike == 40)%Q
    /\ (spike_currentScore spike == 85)%Q
    /\ (spikeThresholdPercent defaultConfig
        <= percentIncrease (spike_currentScore spike)
             (spike_previousScore spike)
           + roundingMargin
               (percentIncrease (spike_currentScore spike)
                  (spike_previousScore spike)))%Q.
Proof.
  eexists. split; [vm_compute; left; reflexivity |].
  split; [reflexivity |]. split; [reflexivity |].
  destruct (X25_spike_sound scoredOnce ["c1"] defaultConfig 1000 _
              (NoDup_singleton "c1") (or_introl eq_refl))
    as (previous & score & _ & _ & _ & _ & _ & _ & _ & _ & Hjump & _).
  exact Hjump.
Defined.

(** X26: with distinct keys, [detectAwarenessSpikes] reports a spike for
    every company among the keys that has a cached score other than 0
    which the score that [calculateUnifiedScore] computes for it exceeds by
    the threshold percentage, with [roundingMargin] to spare: scoring one
    company never hides the spike of another. *)
Theorem X26_spike_complete (st : Stores) (keys : list string)
    (config : ScoringConfig) (now : Z) (id : string)
    (previous score : UnifiedIntentScore) :
  NoDup keys ->
  List.In id keys ->
  scoreCache st !! id = Some previous ->
  fst (calculateUnifiedScore st id config now) = Some score ->
  ~ (overallScore previous == 0)%Q ->
  (spikeThresholdPercent config
   <= percentIncrease (overallScore score) (overallScore previous)
      - roundingMargin
          (percentIncrease (overallScore score) (overallScore previous)))%Q ->
  exists spike,
    List.In spike (fst (detectAwarenessSpikes st keys config now))
    /\ spike_companyId spike = id
    /\ spike_previousScore spike = overallScore previous
    /\ spike_currentScore spike = overallScore score.
Proof.
  intros Hnd Hid Hprev Hfst Hnz Hjump.
  destruct (calculateUnifiedScore_fields _ _ _ _ _ Hfst)
    as (_ & _ & _ & _ & _ & _ & _ & _ & _ & _ & His).
  assert (isSpike score = true) as Hspike.
  { rewrite His. apply checkForSpike_iff. exists (overallScore previous).
    rewrite Hprev. split; [reflexivity |]. split; [exact Hnz |].
    pose proof (roundingMargin_nonneg
                  (percentIncrease (overallScore score)
                     (overallScore previous))).
    lra. }
  eexists. split.
  - unfold detectAwarenessSpikes.
    rewrite (detect_flat config now keys [] st st Hnd eq_refl)
      by reflexivity.
    cbn [app]. apply in_flat_map. exists id. split; [exact Hid |].
    apply spikeOf_In. exists previous, score. repeat split; eassumption.
  - repeat split.
Qed.

Lemma X26_spike_complete_witness :
  exists spike,
    List.In spike
      (fst (detectAwarenessSpikes scoredOnce ["c1"] defaultConfig 1000))
    /\ spike_companyId spike = "c1".
Proof.
  destruct (X26_spike_complete scoredOnce ["c1"] defaultConfig 1000 "c1"
              _ _ (NoDup_singleton "c1") (or_introl eq_refl)
              eq_refl eq_refl)
    as (spike & Hin & Hid & _).
  - vm_compute. discriminate.
  - vm_compute. discriminate.
  - exists spike. split; assumption.
Defined.

(** *** Listing every score *)

Lemma collectStep_eq (config : ScoringConfig) (now : Z)
    (scores : list UnifiedIntentScore) (st : Stores) (id : string) :
  collectStep config now (scores, st) id
  = (scores ++ match fst (calculateUnifiedScore st id config now) with
               | Some score => [score]
               | None => []
               end,
     snd (calculateUnifiedScore st id config now)).
Proof.
  unfold collectStep.
  destruct (calculateUnifiedScore st id config now) as [[score |] st'];
    cbn [fst snd]; rewrite ?app_nil_r; reflexivity.
Qed.

Lemma collect_fold (config : ScoringConfig) (now : Z) (keys : list string)
    (scores : list UnifiedIntentScore) (st : Stores) :
  map score_companyId
    (fst (fold_left (collectStep config now) keys (scores, st)))
  = map score_companyId scores ++ List.filter (hasSignals st) keys
  /\ forall score,
       List.In score
         (fst (fold_left (collectStep config now) keys (scores, st))) ->
       List.In score scores
       \/ (overallScore score
           = overallOf (getSignalsForCompany st (score_companyId score))
               config now
           /\ signalCount score
              = length (getSignalsForCompany st (score_companyId score))).
Proof.
  revert scores st. induction keys as [| k keys IH]; intros scores st;
    cbn [fold_left List.filter].
  - rewrite app_nil_r. split; [reflexivity | now left].
  - rewrite collectStep_eq.
    pose proof (calculateUnifiedScore_signalStore st k config now) as Hst.
    destruct (IH (scores
                  ++ match fst (calculateUnifiedScore st k config now) with
                     | Some score => [score]
                     | None => []
                     end)
                (snd (calculateUnifiedScore st k config now)))
      as [Hids Hscores].
    rewrite (List.filter_ext _ (hasSignals st)) in Hids
      by (intros id; now apply hasSignals_local).
    destruct (fst (calculateUnifiedScore st k config now)) as [score |]
      eqn:Hcall.
    + destruct (calculateUnifiedScore_fields _ _ _ _ _ Hcall)
        as (Hne & _ & Hov & _ & _ & _ & Hid & Hcount & _).
      assert (hasSignals st k = true) as ->.
      { unfold hasSignals.
        destruct (getSignalsForCompany st k); [contradiction | reflexivity]. }
      split.
      * rewrite Hids, map_app, <- app_assoc. cbn [map app].
        now rewrite Hid.
      * intros sc Hsc. destruct (Hscores sc Hsc) as [Hold | Hnew].
        -- apply in_app_or in Hold as [Hold | [<- | []]]; [now left |].
           right. rewrite Hid. now split.
        -- right.
           now rewrite !(getSignalsForCompany_local st _ _ Hst) in Hnew.
    + assert (hasSignals st k = false) as ->.
      { unfold hasSignals.
        destruct (getSignalsForCompany st k) as [| s0 rest] eqn:E;
          [reflexivity |].
        destruct (calculateUnifiedScore_some st k config now)
          as (score & Hsome & _); [congruence |].
        rewrite Hsome in Hcall. discriminate. }
      rewrite app_nil_r in Hids, Hscores |- *. split; [exact Hids |].
      intros sc Hsc. destruct (Hscores sc Hsc) as [Hold | Hnew];
        [now left |].
      right. now rewrite !(getSignalsForCompany_local st _ _ Hst) in Hnew.
Qed.

Lemma getAllUnifiedScores_fst (st : Stores) (keys : list string)
    (config : ScoringConfig) (now : Z) :
  fst (getAllUnifiedScores st keys config now)
  = sortDescBy overallScore
      (fst (fold_left (collectStep config now) keys ([], st))).
Proof.
  unfold getAllUnifiedScores.
  now destruct (fold_left (collectStep config now) keys ([], st)).
Qed.

(** X27: [getAllUnifiedScores] returns the scores in order of
    non-increasing overall score, one for each key that has a signal and
    none for the others; each is the score of its company's signals and
    counts them. *)
Theorem X27_all_scores_sorted (st : Stores) (keys : list string)
    (config : ScoringConfig) (now : Z) :
  descendingBy overallScore (fst (getAllUnifiedScores st keys config now))
  /\ Permutation
       (map score_companyId (fst (getAllUnifiedScores st keys config now)))
       (List.filter (hasSignals st) keys)
  /\ forall score,
       List.In score (fst (getAllUnifiedScores st keys config now)) ->
       overallScore score
       = overallOf (getSignalsForCompany st (score_companyId score))
           config now
       /\ signalCount score
          = length (getSignalsForCompany st (score_companyId score)).
Proof.
  rewrite getAllUnifiedScores_fst.
  destruct (collect_fold config now keys [] st) as [Hids Hscores].
  split; [apply sortDescBy_descending |]. split.
  - rewrite <- (app_nil_l (List.filter _ _)). cbn [map] in Hids.
    rewrite <- Hids. apply Permutation_map. apply sortDescBy_perm.
  - intros score Hin.
    apply (Permutation_in _ (sortDescBy_perm overallScore _)) in Hin.
    destruct (Hscores score Hin) as [[] | H]. exact H.
Qed.

(** *** Starting over *)

Lemma addIntentSignals_get (st : Stores) (signals : list IntentSignal)
    (id : string) :
  getSignalsForCompany (addIntentSignals st signals) id
  = getSignalsForCompany st id ++ ofCompany id signals.
Proof.
  unfold addIntentSignals. revert st.
  induction signals as [| s signals IH]; intros st; cbn [fold_left].
  - unfold ofCompany. cbn [List.filter]. now rewrite app_nil_r.
  - rewrite IH, addIntentSignal_get, <- app_assoc. f_equal.
    unfold ofCompany. cbn [List.filter].
    destruct (String.eqb (companyId s) id); reflexivity.
Qed.

Lemma addIntentSignals_cache (st : Stores) (signals : list IntentSignal) :
  scoreCache (addIntentSignals st signals) = scoreCache st.
Proof.
  unfold addIntentSignals. revert st.
  induction signals as [| s signals IH]; intros st; cbn [fold_left];
    [reflexivity |].
  now rewrite IH.
Qed.

(** X28: [clearAllSignals] forgets the signals and the cached scores
    alike: whatever the stores held, after clearing and adding a batch a
    company has exactly its signals of the batch, in batch order, and its
    first score has trend stable and no spike flag; a company without a
    signal in the batch has no score. *)
Theorem X28_clear_forgets_history (st : Stores)
    (signals : list IntentSignal) (id : string) (config : ScoringConfig)
    (now : Z) :
  getSignalsForCompany (addIntentSignals (clearAllSignals st) signals) id
  = ofCompany id signals
  /\ match fst (calculateUnifiedScore
                  (addIntentSignals (clearAllSignals st) signals) id config
                  now) with
     | Some score =>
         ofCompany id signals <> []
         /\ overallScore score = overallOf (ofCompany id signals) config now
         /\ trend score = Stable
         /\ isSpike score = false
     | None => ofCompany id signals = []
     end.
Proof.
  assert (getSignalsForCompany
            (addIntentSignals (clearAllSignals st) signals) id
          = ofCompany id signals) as Hget.
  { rewrite addIntentSignals_get. unfold getSignalsForCompany, clearAllSignals.
    cbn [signalStore]. now rewrite lookup_empty. }
  split; [exact Hget |].
  destruct (fst (calculateUnifiedScore _ id config now)) as [score |]
    eqn:Hcall.
  - destruct (calculateUnifiedScore_fields _ _ _ _ _ Hcall)
      as (Hne & _ & Hov & _ & _ & _ & _ & _ & _ & Htrend & Hspike).
    rewrite addIntentSignals_cache in Htrend, Hspike.
    unfold clearAllSignals in Htrend, Hspike.
    cbn [scoreCache] in Htrend, Hspike.
    rewrite lookup_empty in Htrend, Hspike.
    rewrite Hget in Hne, Hov. repeat split; assumption.
  - destruct (ofCompany id signals) as [| s0 rest] eqn:E; [reflexivity |].
    destruct (calculateUnifiedScore_some
                (addIntentSignals (clearAllSignals st) signals) id config now)
      as (score & Hsome & _); [congruence |].
    rewrite Hsome in Hcall. discriminate.
Qed.

End ScoringEngineExtras.
